(** * Scylla buffer primitives: bytes_ostream and the fragmented UTF-8 validator

    A shallow embedding of [bytes_ostream.hh] and [utils/utf8.hh].

    Conventions.
    - A byte ([uint8_t], [bytes::value_type]) is a [Byte.byte]; [u8] gives its
      unsigned value.
    - [size_t] is a 64-bit unsigned integer, [bytes::size_type] a 32-bit one;
      both are carried as [Z] and every addition and subtraction of the source
      is followed by the reduction modulo 2^64 (resp. 2^32) that the machine
      performs.
    - A fragmented view is the list of its fragments, each a list of bytes.
    - Reads and writes that leave the object they address have no meaning in
      C++; the embedding gives each of them a name of its own instead of a
      value, so that a theorem has to rule them out. *)

From Stdlib Require Import ZArith List Lia Bool.
From Stdlib.Strings Require Import Byte.
Import ListNotations.
Local Open Scope Z_scope.

Definition u8 (b : byte) : Z := Z.of_N (Byte.to_N b).

Definition len {A : Type} (l : list A) : Z := Z.of_nat (length l).

(* ================================================================== *)
(** * utils/utf8.hh *)
(* ================================================================== *)

Module Utf8.

(** [size_t] arithmetic. *)
Definition size_t_modulus : Z := 2 ^ 64.
Definition to_size_t (x : Z) : Z := x mod size_t_modulus.

(** [struct partial_validation_results] (utf8.hh, lines 37-41). *)
Record partial_validation_results : Type := mk_pvr {
  error : bool;
  unvalidated_tail : Z;
  bytes_needed_for_tail : Z
}.

(** ** The contiguous validators

    [validate_partial] and [validate_with_error_position] are declared in
    utf8.hh and defined in utf8.cc.  The scanner below follows the
    description of the contiguous scan: one left-to-right pass that
    classifies every byte and keeps, for a multi-byte sequence under way, the
    number of bytes seen, the number still owed, and the sub-range the next
    byte has to lie in. *)

Inductive phase : Type :=
| Boundary                              (* between two sequences *)
| Inside (have need : Z) (lo hi : Z)    (* within a multi-byte sequence *)
| Malformed.                            (* an ill-formed sequence was met *)

Record scanner : Type := mk_scanner {
  at_phase : phase;
  confirmed : Z        (* bytes of the complete sequences scanned so far *)
}.

(** Modelled from the spec: the classification of a leading byte, which lives
    in utf8.cc.  00..7F is a one-byte sequence; C2..DF, E0..EF and F0..F4
    open a sequence of two, three and four bytes; the second byte of a
    sequence opened by E0, ED, F0 or F4 is confined to a narrower range than
    80..BF, which is what excludes overlong forms, surrogates and values above
    U+10FFFF.  80..C1 and F5..FF never open a sequence. *)
Definition leading (b : Z) : phase :=
  if b <=? 0x7F then Boundary
  else if b <? 0xC2 then Malformed
  else if b <=? 0xDF then Inside 1 1 0x80 0xBF
  else if b =? 0xE0 then Inside 1 2 0xA0 0xBF
  else if b =? 0xED then Inside 1 2 0x80 0x9F
  else if b <=? 0xEF then Inside 1 2 0x80 0xBF
  else if b =? 0xF0 then Inside 1 3 0x90 0xBF
  else if b <=? 0xF3 then Inside 1 3 0x80 0xBF
  else if b =? 0xF4 then Inside 1 3 0x80 0x8F
  else Malformed.

(** Modelled from the spec: one step of the contiguous scan of utf8.cc. *)
Definition scan_byte (s : scanner) (b : byte) : scanner :=
  match at_phase s with
  | Boundary =>
      match leading (u8 b) with
      | Boundary => mk_scanner Boundary (confirmed s + 1)
      | p => mk_scanner p (confirmed s)
      end
  | Inside have need lo hi =>
      if (lo <=? u8 b) && (u8 b <=? hi) then
        if need =? 1 then mk_scanner Boundary (confirmed s + have + 1)
        else mk_scanner (Inside (have + 1) (need - 1) 0x80 0xBF) (confirmed s)
      else mk_scanner Malformed (confirmed s)
  | Malformed => s
  end.

Definition scan (s : scanner) (data : list byte) : scanner :=
  fold_left scan_byte data s.

Definition scan_start : scanner := mk_scanner Boundary 0.

(** Modelled from the spec: [internal::validate_partial] of utf8.cc.  An
    ill-formed sequence is an error; a well-formed prefix of a sequence that
    the input cuts short is not, and is reported by its length and by the
    number of bytes it still lacks. *)
Definition validate_partial (data : list byte) : partial_validation_results :=
  match at_phase (scan scan_start data) with
  | Boundary => mk_pvr false 0 0
  | Inside have need _ _ => mk_pvr false have need
  | Malformed => mk_pvr true 0 0
  end.

(** Modelled from the spec: [validate_with_error_position] of utf8.cc.
    [None] stands for [std::nullopt]; an error is located at the first byte
    of the first sequence that is ill-formed or cut short by the end of the
    buffer. *)
Definition validate_with_error_position (data : list byte) : option Z :=
  let s := scan scan_start data in
  match at_phase s with
  | Boundary => None
  | _ => Some (confirmed s)
  end.

(** Modelled from the spec: [validate] of utf8.cc, the boolean verdict. *)
Definition validate (data : list byte) : bool :=
  match validate_with_error_position data with
  | None => true
  | Some _ => false
  end.

(** Lines 68-70: the overload for a view of a single fragment, which hands
    the fragment to the contiguous validator. *)
Definition validate_with_error_position_fragmented_single (frag : list byte)
  : option Z :=
  validate_with_error_position frag.

(** ** The fragmented validator (utf8.hh, lines 72-118) *)

(** What a run of the function comes to.  The last three are the
    operations the C++ text leaves undefined. *)
Inductive outcome : Type :=
| Returned (r : option Z)
| CarryOutOfBounds        (* partial_codepoint[i] written with i >= 4 *)
| FragmentOutOfBounds     (* *data read outside the fragment *)
| EmptyOptional.          (* operator* applied to std::nullopt *)

(** The four locals declared before the loop. *)
Record carry : Type := mk_carry {
  partial_codepoint : list byte;     (* uint8_t partial_codepoint[4] *)
  partial_filled : Z;
  partial_more_needed : Z;
  bytes_validated : Z
}.

(** Lines 73-76.  The array is not initialised; no cell is read before it
    is written, and the bytes chosen here do not matter. *)
Definition carry_start : carry := mk_carry [x00; x00; x00; x00] 0 0 0.

(** [partial_codepoint[i] = b] on the four-cell array. *)
Fixpoint poke (cells : list byte) (i : nat) (b : byte) : option (list byte) :=
  match cells, i with
  | [], _ => None
  | _ :: rest, O => Some (b :: rest)
  | c :: rest, S j =>
      match poke rest j b with
      | Some rest' => Some (c :: rest')
      | None => None
      end
  end.

Definition store_carry (c : carry) (b : byte) : option carry :=
  match poke (partial_codepoint c) (Z.to_nat (partial_filled c)) b with
  | Some cells =>
      Some (mk_carry cells (to_size_t (partial_filled c + 1))
                     (partial_more_needed c) (bytes_validated c))
  | None => None
  end.

(** The bytes [partial_codepoint[0 .. partial_filled)]. *)
Definition carried (c : carry) : list byte :=
  firstn (Z.to_nat (partial_filled c)) (partial_codepoint c).

Section Fragmented.

(** The two functions of utf8.cc the loop calls. *)
Variable validate_partial : list byte -> partial_validation_results.
Variable validate_with_error_position : list byte -> option Z.

(** Lines 82-86:
    [while (partial_more_needed && len) { partial_codepoint[partial_filled++] = *data++; --partial_more_needed; --len; }]
    The result is the carry and the part of the fragment not yet read. *)
Fixpoint fill_partial (c : carry) (data : list byte)
  : option (carry * list byte) :=
  if partial_more_needed c =? 0 then Some (c, data) else
  match data with
  | [] => Some (c, [])
  | b :: rest =>
      match store_carry c b with
      | Some c1 =>
          fill_partial
            (mk_carry (partial_codepoint c1) (partial_filled c1)
                      (to_size_t (partial_more_needed c1 - 1)) (bytes_validated c1))
            rest
      | None => None
      end
  end.

(** Lines 108-111: [while (len) { partial_codepoint[partial_filled++] = *data++; --len; }]
    with [data] standing [at] bytes into the fragment and [count] bytes
    to go.  The byte is read before the cell is written. *)
Fixpoint copy_tail (c : carry) (frag : list byte) (at_ : Z) (count : nat)
  : carry + outcome :=
  match count with
  | O => inl c
  | S k =>
      if at_ <? 0 then inr FragmentOutOfBounds else
      match nth_error frag (Z.to_nat at_) with
      | None => inr FragmentOutOfBounds
      | Some b =>
          match store_carry c b with
          | None => inr CarryOutOfBounds
          | Some c1 => copy_tail c1 frag (at_ + 1) k
          end
      end
  end.

(** Lines 101-112, applied to what is left of the fragment. *)
Definition validate_rest (c : carry) (data : list byte) : carry + outcome :=
  let pvr := validate_partial data in
  if error pvr then
    match validate_with_error_position data with
    | Some p => inr (Returned (Some (to_size_t (bytes_validated c + p))))
    | None => inr EmptyOptional
    end
  else
    let c1 := mk_carry (partial_codepoint c) (partial_filled c)
                (partial_more_needed c)
                (to_size_t (bytes_validated c + to_size_t (len data - unvalidated_tail pvr))) in
    match copy_tail c1 data (len data - unvalidated_tail pvr)
                    (Z.to_nat (unvalidated_tail pvr)) with
    | inl c2 =>
        inl (mk_carry (partial_codepoint c2) (partial_filled c2)
                      (bytes_needed_for_tail pvr) (bytes_validated c2))
    | inr o => inr o
    end.

(** Lines 87-96: the check made once the loop of lines 82-86 is over. *)
Definition close_partial (c : carry) : carry + outcome :=
  if partial_more_needed c =? 0 then
    let pvr := validate_partial (carried c) in
    if error pvr then inr (Returned (Some (bytes_validated c)))
    else inl (mk_carry (partial_codepoint c) 0 0
                       (to_size_t (bytes_validated c + partial_filled c)))
  else inl c.

(** The body of the [for] loop, lines 78-112. *)
Definition fragment_step (c : carry) (frag : list byte) : carry + outcome :=
  if partial_more_needed c =? 0 then validate_rest c frag
  else
    match fill_partial c frag with
    | None => inr CarryOutOfBounds
    | Some (c1, rest) =>
        match close_partial c1 with
        | inr o => inr o
        | inl c2 =>
            match rest with
            | [] => inl c2                         (* if (!len) continue; *)
            | _ :: _ => validate_rest c2 rest
            end
        end
    end.

(** The [for] loop over the fragments, lines 77-113. *)
Fixpoint fragments_loop (c : carry) (frags : list (list byte))
  : carry + outcome :=
  match frags with
  | [] => inl c
  | frag :: more =>
      match fragment_step c frag with
      | inl c1 => fragments_loop c1 more
      | inr o => inr o
      end
  end.

(** Lines 72-118. *)
Definition validate_with_error_position_fragmented
    (fv : list (list byte)) : outcome :=
  match fragments_loop carry_start fv with
  | inr o => o
  | inl c =>
      if partial_more_needed c =? 0 then Returned None
      else Returned (Some (bytes_validated c))
  end.

End Fragmented.

(** The function as the repository links it. *)
Definition fragmented :=
  validate_with_error_position_fragmented validate_partial validate_with_error_position.

End Utf8.


(* ================================================================== *)
(** * bytes_ostream.hh *)
(* ================================================================== *)

Module Ostream.

(** Modelled from the spec: [bytes::size_type] is declared in types.hh,
    a file of the repository that is not embedded here; the specification gives the size type
    of the stream as a fixed-width integer of 32 bits.  Its arithmetic is
    modulo 2^32. *)
Definition size_type_modulus : Z := 2 ^ 32.
Definition to_size_type (x : Z) : Z := x mod size_type_modulus.

(** Line 30. *)
Definition chunk_size : Z := 512.

(** [sizeof(chunk)], the header of lines 22-28 on a 64-bit target: a
    [std::unique_ptr<chunk>] of eight bytes and a [size_type], rounded up to
    the alignment of the pointer. *)
Definition sizeof_chunk : Z := 16.

(** [offsetof(chunk, data)]: [data] comes right after [offset], twelve bytes
    into the header, where the padding that rounds the header up to
    [sizeof(chunk)] would lie. *)
Definition offsetof_data : Z := 12.

(** Line 31. *)
Definition usable_chunk_size : Z := to_size_type (chunk_size - sizeof_chunk).

(** A byte of [malloc]'ed storage: [None] until it is written. *)
Abbreviation cell := (option byte) (only parsing).

(** [struct chunk] (lines 22-28) together with the storage that follows it
    in its block.  [capacity] is what the block holds beyond
    [sizeof(chunk)], the measure the source itself uses on lines 31, 53 and
    188.  [data] is the block from [offsetof(chunk, data)] on: it has
    [sizeof(chunk) - offsetof(chunk, data)] cells more than [capacity].
    [next] is the rest of the list the chunk stands in. *)
Record chunk : Type := mk_chunk {
  capacity : Z;
  offset : Z;
  data : list cell
}.

(** The bytes of the block of a chunk that [data] spans. *)
Definition storage (ch : chunk) : Z :=
  capacity ch + sizeof_chunk - offsetof_data.

(** The members of lines 33-35.  [_begin] is the chain it owns, in order;
    [_current] is the index in that chain of the chunk pointed at, or [None]
    for [nullptr]. *)
Record bytes_ostream : Type := mk_stream {
  _begin : list chunk;
  _current : option nat;
  _size : Z
}.

(** What C++ gives no meaning to, or stops at. *)
Inductive fault : Type :=
| Overrun            (* bytes read or written outside the block of a chunk *)
| AssertionFailed    (* assert(...) does not hold *)
| NullPointer        (* _current-> with _current == nullptr *)
| Dangling.          (* a pointer to a chunk that is no longer in the chain *)

Inductive result (A : Type) : Type :=
| Ok (a : A)
| Fault (f : fault).
Arguments Ok {A} a.
Arguments Fault {A} f.

Definition bind {A B : Type} (r : result A) (k : A -> result B) : result B :=
  match r with
  | Ok a => k a
  | Fault f => Fault f
  end.

Notation "x <- e ;; k" := (bind e (fun x => k))
  (at level 61, e at next level, right associativity).
Notation "' p <- e ;; k" := (bind e (fun p => k))
  (at level 61, p pattern, e at next level, right associativity).

(** A [value_type*] into the storage of a chunk of the chain. *)
Record pointer : Type := mk_pointer {
  in_chunk : nat;
  at_byte : Z
}.

Definition deref (s : bytes_ostream) (i : nat) : result chunk :=
  match nth_error (_begin s) i with
  | Some ch => Ok ch
  | None => Fault Dangling
  end.

Fixpoint update_nth {A : Type} (i : nat) (x : A) (l : list A) : list A :=
  match l, i with
  | [], _ => []
  | _ :: rest, O => x :: rest
  | y :: rest, S j => y :: update_nth j x rest
  end.

(** Lines 37-42. *)
Definition current_space_left (s : bytes_ostream) : result Z :=
  match _current s with
  | None => Ok 0
  | Some i =>
      ch <- deref s i ;;
      Ok (to_size_type (usable_chunk_size - offset ch))
  end.

(** Lines 46-70.  [malloc] is taken to succeed. *)
Definition alloc (s : bytes_ostream) (size : Z) : result (bytes_ostream * pointer) :=
  space <- current_space_left s ;;
  if size <=? space then
    match _current s with
    | None => Fault NullPointer
    | Some i =>
        ch <- deref s i ;;
        let ret := mk_pointer i (offset ch) in
        let ch' := mk_chunk (capacity ch) (to_size_type (offset ch + size)) (data ch) in
        Ok (mk_stream (update_nth i ch' (_begin s)) (_current s)
                      (to_size_type (_size s + size)), ret)
    end
  else
    let alloc_size :=
      if size <=? usable_chunk_size then chunk_size else size + sizeof_chunk in
    let new_chunk :=
      mk_chunk (alloc_size - sizeof_chunk) size
               (repeat None (Z.to_nat (alloc_size - offsetof_data))) in
    match _current s with
    | Some i =>
        _ <- deref s i ;;
        Ok (mk_stream (firstn (S i) (_begin s) ++ [new_chunk]) (Some (S i))
                      (to_size_type (_size s + size)), mk_pointer (S i) 0)
    | None =>
        Ok (mk_stream [new_chunk] (Some 0%nat) (to_size_type (_size s + size)),
            mk_pointer 0 0)
    end.

(** [src] laid over the cells from index [at_] on. *)
Definition splice (cells : list cell) (at_ : Z) (src : list cell) : list cell :=
  firstn (Z.to_nat at_) cells ++ src ++
  skipn (Z.to_nat at_ + length src) cells.

(** [memcpy(dst, src, n)], and the stores through [unaligned<T>*]. *)
Definition memcpy (s : bytes_ostream) (dst : pointer) (src : list cell)
  : result bytes_ostream :=
  ch <- deref s (in_chunk dst) ;;
  if (0 <=? at_byte dst) && (at_byte dst + len src <=? storage ch) then
    Ok (mk_stream
          (update_nth (in_chunk dst)
             (mk_chunk (capacity ch) (offset ch) (splice (data ch) (at_byte dst) src))
             (_begin s))
          (_current s) (_size s))
  else Fault Overrun.

(** The cells [data[0 .. n)] of a chunk. *)
Definition read (ch : chunk) (n : Z) : result (list cell) :=
  if (0 <=? n) && (n <=? storage ch) then Ok (firstn (Z.to_nat n) (data ch))
  else Fault Overrun.

Definition byte_of (z : Z) : byte :=
  match Byte.of_N (Z.to_N (z mod 256)) with
  | Some b => b
  | None => x00
  end.

(** [net::hton(val)] as it lies in memory: the [sizeof_T] bytes of [val],
    the most significant first. *)
Definition hton (sizeof_T : nat) (val : Z) : list byte :=
  map (fun k => byte_of (Z.shiftr val (8 * Z.of_nat k))) (rev (seq 0 sizeof_T)).

(** Lines 118-123, for a type [T] of [sizeof_T] bytes. *)
Definition write (s : bytes_ostream) (sizeof_T : nat) (val : Z)
  : result bytes_ostream :=
  '(s1, p) <- alloc s (Z.of_nat sizeof_T) ;;
  memcpy s1 p (map Some (hton sizeof_T val)).

(** Lines 126-131. *)
Definition write_place_holder (s : bytes_ostream) (sizeof_T : nat)
  : result (bytes_ostream * pointer) :=
  alloc s (Z.of_nat sizeof_T).

(** [_current->offset += n; _size += n;] *)
Definition advance (s : bytes_ostream) (i : nat) (n : Z) : result bytes_ostream :=
  ch <- deref s i ;;
  Ok (mk_stream
        (update_nth i (mk_chunk (capacity ch) (to_size_type (offset ch + n)) (data ch))
                    (_begin s))
        (_current s) (to_size_type (_size s + n))).

(** Lines 134-152, [write(bytes_view)]. *)
Definition write_bytes (s : bytes_ostream) (v : list byte) : result bytes_ostream :=
  match v with
  | [] => Ok s
  | _ :: _ =>
      space_left <- current_space_left s ;;
      if len v <=? space_left then
        match _current s with
        | None => Fault NullPointer
        | Some i =>
            ch <- deref s i ;;
            s1 <- memcpy s (mk_pointer i (offset ch)) (map Some v) ;;
            advance s1 i (len v)
        end
      else
        '(s1, v1) <-
          (if space_left =? 0 then Ok (s, v)
           else
             match _current s with
             | None => Fault NullPointer
             | Some i =>
                 ch <- deref s i ;;
                 s1 <- memcpy s (mk_pointer i (offset ch))
                         (map Some (firstn (Z.to_nat space_left) v)) ;;
                 s2 <- advance s1 i space_left ;;
                 Ok (s2, skipn (Z.to_nat space_left) v)
             end) ;;
        '(s2, p) <- alloc s1 (to_size_type (len v1)) ;;
        memcpy s2 p (map Some v1)
  end.

(** Lines 155-159. *)
Definition write_blob (s : bytes_ostream) (v : list byte) : result bytes_ostream :=
  if to_size_type (len v) =? len v then
    s1 <- write s 4 (len v) ;;
    write_bytes s1 v
  else Fault AssertionFailed.

(** Lines 162-165, [set(place_holder<T> ph, T val)].  A [place_holder<T>]
    (lines 112-115) holds the pointer [alloc] returned, and [set] stores
    through it as [write] does.  [linearize] frees the chunks and with them
    every place holder; [set] is given here for a place holder taken since. *)
Definition set (s : bytes_ostream) (ph : pointer) (sizeof_T : nat) (val : Z)
  : result bytes_ostream :=
  memcpy s ph (map Some (hton sizeof_T val)).

(** Lines 167-169. *)
Definition is_linearized (s : bytes_ostream) : bool :=
  match _begin s with
  | [] => true
  | [_] => true
  | _ :: _ :: _ => false
  end.

(** Lines 172-179; the result is the cells the view spans. *)
Definition view (s : bytes_ostream) : result (list cell) :=
  if is_linearized s then
    match _current s with
    | None => Ok []
    | Some i =>
        ch <- deref s i ;;
        read ch (_size s)
    end
  else Fault AssertionFailed.

(** [dst = std::copy_n(r->data, r->offset, dst)] for every chunk [r] of the
    chain [src], which is not the chain written to. *)
Fixpoint copy_chain (src : list chunk) (s : bytes_ostream) (dst : pointer)
  : result bytes_ostream :=
  match src with
  | [] => Ok s
  | r :: next =>
      cells <- read r (offset r) ;;
      s1 <- memcpy s dst cells ;;
      copy_chain next s1 (mk_pointer (in_chunk dst) (at_byte dst + offset r))
  end.

(** Lines 183-207.  The new chunk is filled before it becomes the chain. *)
Definition linearize (s : bytes_ostream) : result (bytes_ostream * list cell) :=
  if is_linearized s then
    v <- view s ;;
    Ok (s, v)
  else
    let new_chunk :=
      mk_chunk (_size s + sizeof_chunk - sizeof_chunk) (_size s)
               (repeat None (Z.to_nat (_size s + sizeof_chunk - offsetof_data))) in
    s1 <- copy_chain (_begin s) (mk_stream [new_chunk] (Some 0%nat) (_size s))
                     (mk_pointer 0 0) ;;
    ch <- deref s1 0 ;;
    v <- read ch (_size s1) ;;
    Ok (s1, v).

(** Lines 210-216. *)
Definition size (s : bytes_ostream) : Z := _size s.
Definition empty (s : bytes_ostream) : bool := _size s =? 0.

(** Lines 72-76. *)
Definition fresh : bytes_ostream := mk_stream [] None 0.

(** Lines 222-231, for [o] an object other than [*this]. *)
Definition append (s o : bytes_ostream) : result bytes_ostream :=
  if 0 <? size o then
    '(s1, dst) <- alloc s (size o) ;;
    copy_chain (_begin o) s1 dst
  else Ok s.

(** ** Streams as objects

    The operations that take another stream take it by reference, and the
    reference may be to the stream itself. *)
Definition objects : Type := nat -> bytes_ostream.

Definition put (h : objects) (x : nat) (s : bytes_ostream) : objects :=
  fun y => if Nat.eqb y x then s else h y.

(** The loop of lines 225-229 when [o] is [*this]: [r] goes along the chain
    that is written to, through the positions [chunks], and finds each chunk
    as the allocation and the copies made so far have left it.
    [std::copy_n] on bytes is a [memmove]: the cells are read before any of
    them is written. *)
Fixpoint copy_own_chain (chunks : list nat) (s : bytes_ostream) (dst : pointer)
  : result bytes_ostream :=
  match chunks with
  | [] => Ok s
  | i :: next =>
      r <- deref s i ;;
      cells <- read r (offset r) ;;
      s1 <- memcpy s dst cells ;;
      copy_own_chain next s1 (mk_pointer (in_chunk dst) (at_byte dst + offset r))
  end.

(** Lines 222-231.  [o.size()] is read before the allocation and the chain
    of [o] after it.  When [o] is [*this], the chain read is the chain
    written, with the chunk the allocation has filled further or added. *)
Definition append_to (h : objects) (this o : nat) : result objects :=
  if 0 <? size (h o) then
    '(s1, dst) <- alloc (h this) (size (h o)) ;;
    s2 <- (if Nat.eqb this o
           then copy_own_chain (seq 0 (length (_begin s1))) s1 dst
           else copy_chain (_begin (h o)) s1 dst) ;;
    Ok (put h this s2)
  else Ok h.

(** Lines 95-101, [operator=(const bytes_ostream&)]. *)
Definition copy_assign (h : objects) (this o : nat) : result objects :=
  let h1 := put h this (mk_stream (_begin (h this)) (_current (h this)) 0) in
  let h2 := put h1 this (mk_stream (_begin (h1 this)) None (_size (h1 this))) in
  let h3 := put h2 this (mk_stream [] (_current (h2 this)) (_size (h2 this))) in
  append_to h3 this o.

(** Lines 87-93, the copy constructor, building the object [this]. *)
Definition copy_construct (h : objects) (this o : nat) : result objects :=
  append_to (put h this fresh) this o.

(** Lines 78-85, the move constructor, building the object [this]. *)
Definition move_construct (h : objects) (this o : nat) : objects :=
  let h1 := put h this (mk_stream (_begin (h o)) (_current (h o)) (_size (h o))) in
  put h1 o (mk_stream [] None 0).

(** Lines 103-110, [operator=(bytes_ostream&&)], for [o] an object other
    than [*this]. *)
Definition move_assign (h : objects) (this o : nat) : objects :=
  let h1 := put h this (mk_stream (_begin (h o)) (_current (h o)) (_size (h o))) in
  put h1 o (mk_stream [] None 0).

(** Lines 103-110 statement by statement, [o] being any object, [*this]
    included.  [_begin = std::move(o._begin)] is
    [_begin.reset(o._begin.release())]: the chain is taken out of [o] before
    it is given to [*this]. *)
Definition move_assign_in_place (h : objects) (this o : nat) : objects :=
  let h1 := put h this (mk_stream (_begin (h this)) (_current (h this)) (_size (h o))) in
  let chain := _begin (h1 o) in
  let h2 := put h1 o (mk_stream [] (_current (h1 o)) (_size (h1 o))) in
  let h3 := put h2 this (mk_stream chain (_current (h2 this)) (_size (h2 this))) in
  let h4 := put h3 this (mk_stream (_begin (h3 this)) (_current (h3 o)) (_size (h3 this))) in
  let h5 := put h4 o (mk_stream (_begin (h4 o)) None (_size (h4 o))) in
  put h5 o (mk_stream (_begin (h5 o)) (_current (h5 o)) 0).

(** ** Sequences of writes *)

Inductive op : Type :=
| Write (sizeof_T : nat) (val : Z)       (* write<T>(val) *)
| WriteBytes (v : list byte)             (* write(bytes_view) *)
| WriteBlob (v : list byte)              (* write_blob(bytes_view) *)
| WritePlaceHolder (sizeof_T : nat)      (* write_place_holder<T>() *)
| Append (o : bytes_ostream).            (* append(o), o another stream *)

Definition step (s : bytes_ostream) (o : op) : result bytes_ostream :=
  match o with
  | Write n val => write s n val
  | WriteBytes v => write_bytes s v
  | WriteBlob v => write_blob s v
  | WritePlaceHolder n => '(s1, _) <- write_place_holder s n ;; Ok s1
  | Append o => append s o
  end.

Fixpoint run (s : bytes_ostream) (ops : list op) : result bytes_ostream :=
  match ops with
  | [] => Ok s
  | o :: rest => s1 <- step s o ;; run s1 rest
  end.

(** The bytes of a chunk that count as written, and those of a stream. *)
Definition payload (ch : chunk) : list cell :=
  firstn (Z.to_nat (offset ch)) (data ch).

Definition contents (s : bytes_ostream) : list cell :=
  concat (map payload (_begin s)).

(** What an operation adds to the stream, and how many bytes that is. *)
Definition written (o : op) : list cell :=
  match o with
  | Write n val => map Some (hton n val)
  | WriteBytes v => map Some v
  | WriteBlob v => map Some (hton 4 (len v) ++ v)
  | WritePlaceHolder n => repeat None n
  | Append o => contents o
  end.

Definition byte_length (o : op) : Z :=
  match o with
  | Write n _ => Z.of_nat n
  | WriteBytes v => len v
  | WriteBlob v => 4 + len v
  | WritePlaceHolder n => Z.of_nat n
  | Append o => size o
  end.

Definition total_length (ops : list op) : Z :=
  fold_right (fun o acc => byte_length o + acc) 0 ops.

End Ostream.

(* ================================================================== *)
(** * Predicates and sample data for the statements below *)
(* ================================================================== *)

Import Utf8.
Import Ostream.

(** A well-formed beginning [t] of a sequence: [have] bytes are there,
    [need] are owed, and the next one has to lie in [lo..hi]. *)
Definition open_tail (t : list byte) (have need lo hi : Z) : Prop :=
  len t = have /\ 1 <= need /\ have + need <= 4 /\
  (forall x, scan (mk_scanner Boundary x) t = mk_scanner (Inside have need lo hi) x) /\
  exists b t' lo' hi',
    t = b :: t' /\ leading (u8 b) = Inside 1 (have + need - 1) lo' hi'.

(** Where a scan from the start of a buffer stands at its end. *)
Definition accounted (data : list byte) (s : scanner) : Prop :=
  0 <= confirmed s <= len data /\
  match at_phase s with
  | Boundary => confirmed s = len data
  | Inside have need lo hi =>
      exists pre t,
        data = pre ++ t /\
        scan scan_start pre = mk_scanner Boundary (confirmed s) /\
        confirmed s = len pre /\
        open_tail t have need lo hi
  | Malformed => True
  end.

(** A carry whose array has its four cells and whose fill count is one of
    its indices or its length. *)
Definition carry_shape (c : carry) : Prop :=
  length (partial_codepoint c) = 4%nat /\ 0 <= partial_filled c <= 4.

(** The carry holds the beginning of a sequence announced by its first
    byte as [partial_filled + partial_more_needed] bytes long. *)
Definition opened_by_leader (c : carry) : Prop :=
  exists b t lo hi,
    carried c = b :: t /\
    leading (u8 b) =
      Inside 1 (partial_filled c + partial_more_needed c - 1) lo hi.

(** The bytes in the carry are not looked at before the last of them has
    come, so the contiguous scan may already have found them ill-formed. *)
Definition pending_phase (c : carry) (ph : phase) : Prop :=
  ph = Malformed \/
  exists lo hi, ph = Inside (partial_filled c) (partial_more_needed c) lo hi.

(** [in_step c consumed]: after the fragments whose bytes are [consumed],
    the carry [c] stands where the contiguous scan of [consumed] stands. *)
Definition in_step (c : carry) (consumed : list byte) : Prop :=
  carry_shape c /\
  exists pre,
    consumed = pre ++ carried c /\
    scan scan_start pre = mk_scanner Boundary (bytes_validated c) /\
    bytes_validated c = len pre /\
    ((partial_more_needed c = 0 /\ partial_filled c = 0) \/
     (1 <= partial_more_needed c /\ 1 <= partial_filled c /\
      partial_filled c + partial_more_needed c <= 4 /\
      opened_by_leader c /\
      exists ph, pending_phase c ph /\
        forall x, scan (mk_scanner Boundary x) (carried c) = mk_scanner ph x)).

(** What is asked of [validate_partial]: a tail of at most three bytes
    which, with the bytes it needs, makes at most four. *)
Definition tail_report_bounded (vp : list byte -> partial_validation_results) : Prop :=
  forall data,
    0 <= unvalidated_tail (vp data) <= 3 /\
    0 <= bytes_needed_for_tail (vp data) /\
    unvalidated_tail (vp data) + bytes_needed_for_tail (vp data) <= 4.

(** A tail that is reported needs at least one byte. *)
Definition tail_report_unresolved (vp : list byte -> partial_validation_results) : Prop :=
  forall data,
    bytes_needed_for_tail (vp data) = 0 -> unvalidated_tail (vp data) = 0.

(** The state of the carry between two fragments. *)
Definition carry_in_bounds (c : carry) : Prop :=
  carry_shape c /\
  0 <= partial_more_needed c /\
  partial_filled c + partial_more_needed c <= 4 /\
  (partial_more_needed c = 0 -> partial_filled c = 0).

(** A [validate_partial] that answers within the first bound only: it calls
    the last three bytes of every fragment a tail that needs nothing. *)
Definition greedy_tail (data : list byte) : partial_validation_results :=
  mk_pvr false (Z.min 3 (len data)) 0.

(** ** Well-formed UTF-8, as the Unicode standard tabulates it *)

Definition continuation (b : Z) : Prop := 0x80 <= b <= 0xBF.

(** The first two bytes of a three-byte sequence. *)
Definition opens_three (b1 b2 : Z) : Prop :=
  (b1 = 0xE0 /\ 0xA0 <= b2 <= 0xBF) \/
  (0xE1 <= b1 <= 0xEC /\ 0x80 <= b2 <= 0xBF) \/
  (b1 = 0xED /\ 0x80 <= b2 <= 0x9F) \/
  (0xEE <= b1 <= 0xEF /\ 0x80 <= b2 <= 0xBF).

(** The first two bytes of a four-byte sequence. *)
Definition opens_four (b1 b2 : Z) : Prop :=
  (b1 = 0xF0 /\ 0x90 <= b2 <= 0xBF) \/
  (0xF1 <= b1 <= 0xF3 /\ 0x80 <= b2 <= 0xBF) \/
  (b1 = 0xF4 /\ 0x80 <= b2 <= 0x8F).

Inductive well_formed : list byte -> Prop :=
| wf_end : well_formed []
| wf_one (b : byte) (rest : list byte) :
    u8 b <= 0x7F -> well_formed rest -> well_formed (b :: rest)
| wf_two (b1 b2 : byte) (rest : list byte) :
    0xC2 <= u8 b1 <= 0xDF -> continuation (u8 b2) ->
    well_formed rest -> well_formed (b1 :: b2 :: rest)
| wf_three (b1 b2 b3 : byte) (rest : list byte) :
    opens_three (u8 b1) (u8 b2) -> continuation (u8 b3) ->
    well_formed rest -> well_formed (b1 :: b2 :: b3 :: rest)
| wf_four (b1 b2 b3 b4 : byte) (rest : list byte) :
    opens_four (u8 b1) (u8 b2) -> continuation (u8 b3) -> continuation (u8 b4) ->
    well_formed rest -> well_formed (b1 :: b2 :: b3 :: b4 :: rest).

(** The phase the scan moves to on a byte of value [b]. *)
Definition phase_step (ph : phase) (b : Z) : phase :=
  match ph with
  | Boundary => leading b
  | Inside have need lo hi =>
      if (lo <=? b) && (b <=? hi) then
        if need =? 1 then Boundary else Inside (have + 1) (need - 1) 0x80 0xBF
      else Malformed
  | Malformed => Malformed
  end.

(** The scan of [d] from the phase [ph] ends between two sequences. *)
Definition ends_well (ph : phase) (d : list byte) : Prop :=
  at_phase (scan (mk_scanner ph 0) d) = Boundary.

(** The chain of a stream, seen from [_current]. *)
Inductive facing (s : bytes_ostream) : Prop :=
| NoChunk : _begin s = [] -> _current s = None -> facing s
| LastChunk (init : list chunk) (cur : chunk) :
    _begin s = init ++ [cur] -> _current s = Some (length init) -> facing s.

(** [_current] is null when the chain is empty and points at its last chunk
    otherwise. *)
Definition linked (s : bytes_ostream) : Prop :=
  match _current s with
  | None => _begin s = []
  | Some i => S i = length (_begin s)
  end.

(** The chunk [alloc] creates for a request that the current one does not
    take. *)
Definition new_chunk (size : Z) : chunk :=
  let alloc_size :=
    if size <=? usable_chunk_size then chunk_size else size + sizeof_chunk in
  mk_chunk (alloc_size - sizeof_chunk) size
           (repeat None (Z.to_nat (alloc_size - offsetof_data))).

(** The cells that end the block of a chunk, past its [capacity], as
    [malloc] leaves them. *)
Definition spare : list cell :=
  repeat None (Z.to_nat (sizeof_chunk - offsetof_data)).

(** The sum of the filled lengths of a chain. *)
Definition filled (l : list chunk) : Z :=
  fold_right (fun ch acc => offset ch + acc) 0 l.

(** The invariant of the data model: filled length within capacity. *)
Definition chunk_within (ch : chunk) : Prop := offset ch <= capacity ch.
Definition within (s : bytes_ostream) : Prop := Forall chunk_within (_begin s).

(** The bookkeeping of a stream: [_current] in place, every chunk with the
    cells of its block, and [_size] the sum of the filled lengths. *)
Definition chunk_counted (ch : chunk) : Prop :=
  0 <= offset ch /\ len (data ch) = storage ch.
Definition counted (s : bytes_ostream) : Prop :=
  linked s /\
  Forall chunk_counted (_begin s) /\
  _size s = filled (_begin s).

(** The storage of a chunk: no cell written from [offset] on. *)
Definition chunk_cells (ch : chunk) : Prop :=
  skipn (Z.to_nat (offset ch)) (data ch) =
    repeat None (Z.to_nat (storage ch - offset ch)).
Definition cells_ok (s : bytes_ostream) : Prop := Forall chunk_cells (_begin s).

(** [below l l']: the chain [l'] is [l] with chunks filled further and
    chunks added. *)
Inductive below : list chunk -> list chunk -> Prop :=
| below_nil (l' : list chunk) : below [] l'
| below_cons (c c' : chunk) (l l' : list chunk) :
    capacity c = capacity c' -> offset c <= offset c' ->
    below l l' -> below (c :: l) (c' :: l').

(** [advances s s' w]: [s'] is [s] with the cells [w] added. *)
Definition advances (s s' : bytes_ostream) (w : list cell) : Prop :=
  counted s' /\
  filled (_begin s') = filled (_begin s) + len w /\
  below (_begin s) (_begin s') /\
  (cells_ok s -> within s' -> cells_ok s' /\ contents s' = contents s ++ w).

(** A chunk that can be read up to its filled length. *)
Definition readable (r : chunk) : Prop :=
  0 <= offset r <= storage r /\ len (data r) = storage r.

(** Well-formed operands: a stream that is appended has its bookkeeping
    right and its chunks filled within their capacity. *)
Definition op_ok (o : op) : Prop :=
  match o with
  | Append o => counted o /\ within o
  | _ => True
  end.

(** An operand of the right type: the size of a stream is not negative. *)
Definition op_typed (o : op) : Prop :=
  match o with
  | Append o => 0 <= size o
  | _ => True
  end.

(** Every chunk is of the standard size and filled within it. *)
Definition chunk_standard (ch : chunk) : Prop :=
  capacity ch = usable_chunk_size /\
  1 <= offset ch <= usable_chunk_size /\
  len (data ch) = storage ch.
Definition standard (s : bytes_ostream) : Prop :=
  linked s /\ Forall chunk_standard (_begin s).

(** [n] writes of an eight-byte zero. *)
Definition eight_bytes (n : nat) : list op := repeat (Write 8 0) n.

(** The chunk [_current] points at, if any, is of the standard size. *)
Definition current_standard (s : bytes_ostream) : Prop :=
  forall i ch,
    _current s = Some i -> nth_error (_begin s) i = Some ch ->
    capacity ch = usable_chunk_size.

(** Two small streams, as the objects 0 and 1. *)
Definition two_streams : objects :=
  fun x =>
    match x with
    | O => mk_stream [mk_chunk 496 2 ([Some x41; Some x42] ++ repeat None 498)]
                     (Some 0%nat) 2
    | _ => mk_stream [mk_chunk 496 1 ([Some x43] ++ repeat None 499)]
                     (Some 0%nat) 1
    end.

(** The capacity and the filled length of every chunk of a chain. *)
Definition layout (s : bytes_ostream) : list (Z * Z) :=
  map (fun ch => (capacity ch, offset ch)) (_begin s).

(** The stream a write of 600 bytes leaves: one chunk, full, the four
    bytes that end its block unwritten. *)
Definition full_oversized : bytes_ostream :=
  mk_stream [mk_chunk 600 600 (repeat (Some x41) 600 ++ spare)] (Some 0%nat) 600.

(** ** Further predicates on streams *)

(** [sizeof(T)] is at least one: [alloc] is not called with a size of zero. *)
Definition op_sized (o : op) : Prop :=
  match o with
  | Write n _ => 1 <= Z.of_nat n
  | WritePlaceHolder n => 1 <= Z.of_nat n
  | _ => True
  end.

(** The number a sequence of bytes stands for, the most significant first. *)
Definition be_value (bs : list byte) : Z :=
  fold_left (fun acc b => 256 * acc + u8 b) bs 0.

(** An operation that adds no more than a chunk of the standard size holds. *)
Definition op_small (o : op) : Prop := byte_length o <= usable_chunk_size.

(** A stream with its bookkeeping right, every chunk filled within its
    capacity and unwritten beyond, and a current chunk of the standard
    size. *)
Definition well_kept (s : bytes_ostream) : Prop :=
  counted s /\ within s /\ cells_ok s /\ current_standard s.

(** A chunk with the cells [w] stored from index [at_] on. *)
Definition patch_chunk (at_ : Z) (w : list cell) (ch : chunk) : chunk :=
  mk_chunk (capacity ch) (offset ch) (splice (data ch) at_ w).

(** A chain with the cells [w] stored in its chunk [k]. *)
Fixpoint patch_chain (k : nat) (at_ : Z) (w : list cell) (l : list chunk)
  : list chunk :=
  match l, k with
  | [], _ => []
  | ch :: rest, O => patch_chunk at_ w ch :: rest
  | ch :: rest, S j => ch :: patch_chain j at_ w rest
  end.

(** The stream [s] with the cells [w] stored at [p]. *)
Definition patch (p : pointer) (w : list cell) (s : bytes_ostream) : bytes_ostream :=
  mk_stream (patch_chain (in_chunk p) (at_byte p) w (_begin s)) (_current s) (_size s).

(** The cells [p .. p + len w) belong to the block of a chunk of [s] and
    lie below its filled length: they have been handed out by [alloc]. *)
Definition covered (s : bytes_ostream) (p : pointer) (w : list cell) : Prop :=
  exists ch,
    nth_error (_begin s) (in_chunk p) = Some ch /\
    0 <= at_byte p /\
    at_byte p + len w <= offset ch /\
    at_byte p + len w <= storage ch.

(** The pointer [q] is to another chunk than [p], or past the cells
    [p .. p + len w). *)
Definition beyond (p : pointer) (w : list cell) (q : pointer) : Prop :=
  in_chunk q <> in_chunk p \/ at_byte p + len w <= at_byte q.

(** ** What the loop asks of the functions it calls *)

(** The tail [validate_partial] reports is part of the buffer it was
    given. *)
Definition tail_in_fragment (vp : list byte -> partial_validation_results) : Prop :=
  forall data, error (vp data) = false -> unvalidated_tail (vp data) <= len data.

(** Where [validate_partial] reports an error,
    [validate_with_error_position] has a position to give. *)
Definition error_is_located (vp : list byte -> partial_validation_results)
    (vwep : list byte -> option Z) : Prop :=
  forall data, error (vp data) = true -> vwep data <> None.

(** [bytes_validated] as a [size_t]. *)
Definition position_in_range (c : carry) : Prop :=
  0 <= bytes_validated c < 2 ^ 64.

(** After the fragments whose bytes are [consumed], the carry holds the
    last [partial_filled] of them and [bytes_validated] counts the bytes
    before. *)
Definition tallied (c : carry) (consumed : list byte) : Prop :=
  carry_in_bounds c /\
  exists pre, consumed = pre ++ carried c /\ len pre = bytes_validated c.

(* ================================================================== *)
(** * Facts about the contiguous scan *)
(* ================================================================== *)

Lemma len_nil {A : Type} : len (@nil A) = 0.
Proof. reflexivity. Qed.

Lemma len_cons {A : Type} (x : A) (l : list A) : len (x :: l) = len l + 1.
Proof. unfold len. cbn [length]. lia. Qed.

Lemma len_app {A : Type} (l1 l2 : list A) : len (l1 ++ l2) = len l1 + len l2.
Proof. unfold len. rewrite length_app. lia. Qed.

Lemma len_snoc {A : Type} (l : list A) (x : A) : len (l ++ [x]) = len l + 1.
Proof. unfold len. rewrite length_app. cbn [length]. lia. Qed.

Lemma len_nonneg {A : Type} (l : list A) : 0 <= len l.
Proof. unfold len. lia. Qed.

Lemma wrap_small (x : Z) : 0 <= x < 2 ^ 64 -> to_size_t x = x.
Proof. intros H. unfold to_size_t, size_t_modulus. now apply Z.mod_small. Qed.

Lemma scan_app (s : scanner) (d1 d2 : list byte) :
  scan s (d1 ++ d2) = scan (scan s d1) d2.
Proof. unfold scan. apply fold_left_app. Qed.

Lemma scan_cons (s : scanner) (b : byte) (d : list byte) :
  scan s (b :: d) = scan (scan_byte s b) d.
Proof. reflexivity. Qed.

Lemma scan_snoc (s : scanner) (d : list byte) (b : byte) :
  scan s (d ++ [b]) = scan_byte (scan s d) b.
Proof. now rewrite scan_app. Qed.

(** An ill-formed sequence is never forgiven. *)
Lemma scan_malformed (p : Z) (d : list byte) :
  scan (mk_scanner Malformed p) d = mk_scanner Malformed p.
Proof. induction d as [|b d IH]; [reflexivity|]. rewrite scan_cons. exact IH. Qed.

(** The phase reached does not depend on the count, and the count is
    carried along additively. *)
Lemma scan_byte_shift (ph : phase) (p q : Z) (b : byte) :
  scan_byte (mk_scanner ph (p + q)) b =
  mk_scanner (at_phase (scan_byte (mk_scanner ph p) b))
             (confirmed (scan_byte (mk_scanner ph p) b) + q).
Proof.
  unfold scan_byte; cbn [at_phase confirmed].
  destruct ph as [|have need lo hi|].
  - destruct (leading (u8 b)); cbn [at_phase confirmed]; f_equal; lia.
  - destruct ((lo <=? u8 b) && (u8 b <=? hi)); [destruct (need =? 1)|];
      cbn [at_phase confirmed]; f_equal; lia.
  - reflexivity.
Qed.

Lemma scan_shift (d : list byte) : forall (ph : phase) (p q : Z),
  scan (mk_scanner ph (p + q)) d =
  mk_scanner (at_phase (scan (mk_scanner ph p) d))
             (confirmed (scan (mk_scanner ph p) d) + q).
Proof.
  induction d as [|b d IH]; intros ph p q.
  - reflexivity.
  - rewrite !scan_cons, scan_byte_shift.
    destruct (scan_byte (mk_scanner ph p) b) as [ph' p'].
    cbn [at_phase confirmed]. apply IH.
Qed.

Lemma scan_from (d : list byte) (ph : phase) (p : Z) :
  scan (mk_scanner ph p) d =
  mk_scanner (at_phase (scan (mk_scanner ph 0) d))
             (confirmed (scan (mk_scanner ph 0) d) + p).
Proof. rewrite <- scan_shift. reflexivity. Qed.

Lemma scan_from_boundary (d : list byte) (p : Z) :
  scan (mk_scanner Boundary p) d =
  mk_scanner (at_phase (scan scan_start d)) (confirmed (scan scan_start d) + p).
Proof. apply scan_from. Qed.

(** What [leading] can answer. *)
Lemma leading_inside (b have need lo hi : Z) :
  leading b = Inside have need lo hi -> have = 1 /\ 1 <= need <= 3.
Proof.
  unfold leading.
  repeat match goal with
         | |- context [if ?c then _ else _] => destruct c
         end; intros H; inversion H; lia.
Qed.

(** Within a sequence that lacks [need] bytes, at most [need] further bytes
    either spoil it, leave it open, or close it. *)
Lemma inside_progress (q : list byte) : forall have need lo hi,
  1 <= need -> len q <= need ->
  (forall p, scan (mk_scanner (Inside have need lo hi) p) q =
             mk_scanner Malformed p) \/
  (len q < need /\ exists lo' hi', forall p,
      scan (mk_scanner (Inside have need lo hi) p) q =
      mk_scanner (Inside (have + len q) (need - len q) lo' hi') p) \/
  (len q = need /\ forall p,
      scan (mk_scanner (Inside have need lo hi) p) q =
      mk_scanner Boundary (p + have + need)).
Proof.
  induction q as [|b q IH]; intros have need lo hi Hn Hq.
  - right; left. rewrite len_nil in *. split; [lia|].
    exists lo, hi. intros p. cbn. f_equal. f_equal; lia.
  - rewrite len_cons in *. pose proof (len_nonneg q).
    destruct ((lo <=? u8 b) && (u8 b <=? hi)) eqn:Er.
    + destruct (need =? 1) eqn:E.
      * apply Z.eqb_eq in E. subst need.
        assert (q = []) as -> by (destruct q; [reflexivity|rewrite len_cons in Hq; pose proof (len_nonneg q); lia]).
        right; right. rewrite len_nil. split; [lia|]. intros p.
        rewrite scan_cons. unfold scan_byte. cbn [at_phase confirmed].
        rewrite Er. reflexivity.
      * assert (forall p, scan (mk_scanner (Inside have need lo hi) p) (b :: q) =
                          scan (mk_scanner (Inside (have + 1) (need - 1) 0x80 0xBF) p) q) as Hstep.
        { intros p. rewrite scan_cons. unfold scan_byte. cbn [at_phase confirmed].
          rewrite Er, E. reflexivity. }
        apply Z.eqb_neq in E.
        destruct (IH (have + 1) (need - 1) 0x80 0xBF ltac:(lia) ltac:(lia))
          as [H1|[[H1 (lo' & hi' & H2)]|[H1 H2]]].
        -- left. intros p. rewrite Hstep. apply H1.
        -- right; left. split; [lia|]. exists lo', hi'. intros p.
           rewrite Hstep, H2. f_equal. f_equal; lia.
        -- right; right. split; [lia|]. intros p. rewrite Hstep, H2. f_equal; lia.
    + left. intros p. rewrite scan_cons. unfold scan_byte. cbn [at_phase confirmed].
      rewrite Er. apply scan_malformed.
Qed.

Lemma scan_accounted (data : list byte) : accounted data (scan scan_start data).
Proof.
  induction data as [|b data IH] using rev_ind.
  - split; [cbn; lia | reflexivity].
  - rewrite scan_snoc. destruct (scan scan_start data) as [ph p] eqn:Es.
    destruct IH as [Hb IH]. cbn [at_phase confirmed] in *.
    pose proof (len_nonneg data) as Hlen.
    unfold accounted, scan_byte. rewrite len_snoc.
    cbn [at_phase confirmed].
    destruct ph as [|have need lo hi|].
    + destruct (leading (u8 b)) as [|h n lo hi|] eqn:El; cbn [at_phase confirmed].
      * split; lia.
      * split; [lia|]. destruct (leading_inside _ _ _ _ _ El) as [-> Hn].
        exists data, [b]. repeat split; try lia.
        -- congruence.
        -- intros x. cbn. unfold scan_byte. cbn [at_phase confirmed].
           rewrite El. reflexivity.
        -- exists b, [], lo, hi. split; [reflexivity|].
           rewrite El. f_equal; lia.
      * split; [lia|exact I].
    + destruct IH as (pre & t & Hd & Hpre & Hp & Ht).
      destruct Ht as (Hl & Hn & Hs & Hscan & (b0 & t' & lo' & hi' & Ht & Hlead)).
      assert (len data = p + have) as Hdl by (rewrite Hd, len_app; lia).
      destruct ((lo <=? u8 b) && (u8 b <=? hi)) eqn:Er; cbn [at_phase confirmed].
      * destruct (need =? 1) eqn:E; cbn [at_phase confirmed].
        -- apply Z.eqb_eq in E. split; lia.
        -- apply Z.eqb_neq in E. split; [lia|].
           exists pre, (t ++ [b]). repeat split; try lia.
           ++ rewrite Hd, app_assoc. reflexivity.
           ++ exact Hpre.
           ++ rewrite len_snoc. lia.
           ++ intros x. rewrite scan_snoc, Hscan.
              unfold scan_byte. cbn [at_phase confirmed]. rewrite Er.
              apply Z.eqb_neq in E. rewrite E. reflexivity.
           ++ exists b0, (t' ++ [b]), lo', hi'. split.
              ** rewrite Ht. reflexivity.
              ** rewrite Hlead. f_equal; lia.
      * split; [lia|exact I].
    + cbn [at_phase confirmed]. split; [lia|exact I].
Qed.

(* ================================================================== *)
(** * The contiguous scan accepts the well-formed sequences *)
(* ================================================================== *)

Lemma at_phase_scan_byte (ph : phase) (p : Z) (b : byte) :
  at_phase (scan_byte (mk_scanner ph p) b) = phase_step ph (u8 b).
Proof.
  unfold scan_byte, phase_step. cbn [at_phase confirmed].
  destruct ph as [|have need lo hi|].
  - destruct (leading (u8 b)); reflexivity.
  - destruct ((lo <=? u8 b) && (u8 b <=? hi)); [destruct (need =? 1)|]; reflexivity.
  - reflexivity.
Qed.

Lemma ends_well_nil (ph : phase) : ends_well ph [] <-> ph = Boundary.
Proof. reflexivity. Qed.

Lemma ends_well_cons (ph : phase) (b : byte) (d : list byte) :
  ends_well ph (b :: d) <-> ends_well (phase_step ph (u8 b)) d.
Proof.
  unfold ends_well. rewrite scan_cons, <- (at_phase_scan_byte ph 0 b).
  destruct (scan_byte (mk_scanner ph 0) b) as [ph' p'].
  cbn [at_phase]. rewrite (scan_from d ph' p'). reflexivity.
Qed.

Lemma ends_well_malformed (d : list byte) : ~ ends_well Malformed d.
Proof. unfold ends_well. rewrite scan_malformed. discriminate. Qed.

Lemma validate_ends_well (data : list byte) :
  validate data = true <-> ends_well Boundary data.
Proof.
  unfold validate, validate_with_error_position, ends_well, scan_start.
  destruct (at_phase (scan (mk_scanner Boundary 0) data)); split;
    (reflexivity || discriminate).
Qed.

(** The nine rows of [leading]. *)
Lemma leading_rows (b : Z) :
  (b <= 0x7F /\ leading b = Boundary) \/
  (0xC2 <= b <= 0xDF /\ leading b = Inside 1 1 0x80 0xBF) \/
  (b = 0xE0 /\ leading b = Inside 1 2 0xA0 0xBF) \/
  (0xE1 <= b <= 0xEC /\ leading b = Inside 1 2 0x80 0xBF) \/
  (b = 0xED /\ leading b = Inside 1 2 0x80 0x9F) \/
  (0xEE <= b <= 0xEF /\ leading b = Inside 1 2 0x80 0xBF) \/
  (b = 0xF0 /\ leading b = Inside 1 3 0x90 0xBF) \/
  (0xF1 <= b <= 0xF3 /\ leading b = Inside 1 3 0x80 0xBF) \/
  (b = 0xF4 /\ leading b = Inside 1 3 0x80 0x8F) \/
  ((0x80 <= b <= 0xC1 \/ 0xF5 <= b) /\ leading b = Malformed).
Proof.
  unfold leading.
  repeat match goal with
         | |- context [if ?c then _ else _] => destruct c eqn:?
         end;
  repeat match goal with
         | H : (_ <=? _) = true |- _ => apply Z.leb_le in H
         | H : (_ <=? _) = false |- _ => apply Z.leb_gt in H
         | H : (_ <? _) = true |- _ => apply Z.ltb_lt in H
         | H : (_ <? _) = false |- _ => apply Z.ltb_ge in H
         | H : (_ =? _) = true |- _ => apply Z.eqb_eq in H
         | H : (_ =? _) = false |- _ => apply Z.eqb_neq in H
         end;
  try lia;
  destruct (Z.le_gt_cases b 0xEC);
  first [ left; split; [lia|reflexivity]
        | right; left; split; [lia|reflexivity]
        | do 2 right; left; split; [lia|reflexivity]
        | do 3 right; left; split; [lia|reflexivity]
        | do 4 right; left; split; [lia|reflexivity]
        | do 5 right; left; split; [lia|reflexivity]
        | do 6 right; left; split; [lia|reflexivity]
        | do 7 right; left; split; [lia|reflexivity]
        | do 8 right; left; split; [lia|reflexivity]
        | do 9 right; split; [lia|reflexivity] ].
Qed.

(** A byte met within a sequence. *)
Lemma ends_well_inside (have need lo hi : Z) (d : list byte) :
  ends_well (Inside have need lo hi) d <->
  exists b rest,
    d = b :: rest /\ lo <= u8 b <= hi /\
    ends_well (if need =? 1 then Boundary
               else Inside (have + 1) (need - 1) 0x80 0xBF) rest.
Proof.
  destruct d as [|b rest].
  - rewrite ends_well_nil. split; [discriminate|].
    intros (b & rest & H & _). discriminate.
  - rewrite ends_well_cons. cbn [phase_step].
    destruct ((lo <=? u8 b) && (u8 b <=? hi)) eqn:E.
    + apply andb_prop in E. destruct E as [E1 E2].
      apply Z.leb_le in E1, E2. split.
      * intros H. exists b, rest. repeat split; auto.
      * intros (b' & rest' & Heq & _ & H). inversion Heq; subst. exact H.
    + split; [intros H; now apply ends_well_malformed in H|].
      intros (b' & rest' & Heq & Hr & _). inversion Heq; subst.
      apply andb_false_iff in E. destruct E as [E|E]; apply Z.leb_gt in E; lia.
Qed.

Lemma well_formed_ends_well (data : list byte) :
  well_formed data -> ends_well Boundary data.
Proof.
  induction 1 as [|b rest Hb _ IH|b1 b2 rest H1 H2 _ IH
                  |b1 b2 b3 rest H12 H3 _ IH|b1 b2 b3 b4 rest H12 H3 H4 _ IH].
  - reflexivity.
  - rewrite ends_well_cons. cbn [phase_step].
    destruct (leading_rows (u8 b)) as [[_ ->]|H]; [exact IH|].
    repeat (destruct H as [[Hr _]|H]; [lia|]). destruct H as [Hr _]. lia.
  - rewrite ends_well_cons. cbn [phase_step].
    destruct (leading_rows (u8 b1)) as [[Hr _]|[[_ ->]|H]]; [lia| |].
    + apply ends_well_inside. exists b2, rest. repeat split; auto; apply H2.
    + repeat (destruct H as [[Hr _]|H]; [lia|]). destruct H as [Hr _]. lia.
  - unfold continuation in *. rewrite ends_well_cons. cbn [phase_step].
    assert (exists lo hi, leading (u8 b1) = Inside 1 2 lo hi /\ lo <= u8 b2 <= hi)
      as (lo & hi & -> & Hr2).
    { destruct (leading_rows (u8 b1)) as [[Hr _]|[[Hr _]|[[Hr E]|[[Hr E]|[[Hr E]|[[Hr E]|H]]]]]];
        unfold opens_three in H12; try lia;
        try (eexists _, _; split; [exact E|lia]).
      all: repeat (destruct H as [[Hr _]|H]; [lia|]); destruct H as [Hr _]; lia. }
    apply ends_well_inside. exists b2, (b3 :: rest). repeat split; try lia.
    cbn [Z.eqb Pos.eqb]. apply ends_well_inside. exists b3, rest.
    repeat split; try lia. exact IH.
  - unfold continuation in *. rewrite ends_well_cons. cbn [phase_step].
    assert (exists lo hi, leading (u8 b1) = Inside 1 3 lo hi /\ lo <= u8 b2 <= hi)
      as (lo & hi & -> & Hr2).
    { destruct (leading_rows (u8 b1))
        as [[Hr _]|[[Hr _]|[[Hr _]|[[Hr _]|[[Hr _]|[[Hr _]|[[Hr E]|[[Hr E]|[[Hr E]|[Hr _]]]]]]]]]];
        unfold opens_four in H12; try lia;
        try (eexists _, _; split; [exact E|lia]). }
    apply ends_well_inside. exists b2, (b3 :: b4 :: rest). repeat split; try lia.
    cbn [Z.eqb Pos.eqb]. apply ends_well_inside. exists b3, (b4 :: rest).
    repeat split; try lia.
    cbn [Z.eqb Pos.eqb Z.add Z.sub Z.opp Z.pos_sub Pos.add Pos.succ Pos.pred_double].
    apply ends_well_inside. exists b4, rest. repeat split; try lia. exact IH.
Qed.

Ltac next_byte H b rest Hr :=
  apply ends_well_inside in H; destruct H as (b & rest & -> & Hr & H);
  simpl (_ =? _) in H; simpl (_ - _) in H; simpl (_ + _) in H; cbv iota in H.

Lemma ends_well_well_formed (n : nat) : forall data : list byte,
  (length data <= n)%nat -> ends_well Boundary data -> well_formed data.
Proof.
  induction n as [|n IH]; intros data Hn H.
  - destruct data; [constructor|cbn in Hn; lia].
  - destruct data as [|b1 d]; [constructor|].
    rewrite ends_well_cons in H. cbn [phase_step] in H.
    destruct (leading_rows (u8 b1))
      as [[Hr E]|[[Hr E]|[[Hr E]|[[Hr E]|[[Hr E]|[[Hr E]|[[Hr E]|[[Hr E]|[[Hr E]|[Hr E]]]]]]]]]];
      rewrite E in H; clear E.
    + apply wf_one; [exact Hr|]. apply IH; [cbn in Hn; lia|exact H].
    + next_byte H b2 rest Hr2.
      apply wf_two; [exact Hr|exact Hr2|]. apply IH; [cbn in Hn; lia|exact H].
    + next_byte H b2 rest Hr2. next_byte H b3 rest' Hr3.
      apply wf_three; [unfold opens_three; lia|exact Hr3|].
      apply IH; [cbn in Hn; lia|exact H].
    + next_byte H b2 rest Hr2. next_byte H b3 rest' Hr3.
      apply wf_three; [unfold opens_three; lia|exact Hr3|].
      apply IH; [cbn in Hn; lia|exact H].
    + next_byte H b2 rest Hr2. next_byte H b3 rest' Hr3.
      apply wf_three; [unfold opens_three; lia|exact Hr3|].
      apply IH; [cbn in Hn; lia|exact H].
    + next_byte H b2 rest Hr2. next_byte H b3 rest' Hr3.
      apply wf_three; [unfold opens_three; lia|exact Hr3|].
      apply IH; [cbn in Hn; lia|exact H].
    + next_byte H b2 rest Hr2. next_byte H b3 rest' Hr3. next_byte H b4 rest'' Hr4.
      apply wf_four; [unfold opens_four; lia|exact Hr3|exact Hr4|].
      apply IH; [cbn in Hn; lia|exact H].
    + next_byte H b2 rest Hr2. next_byte H b3 rest' Hr3. next_byte H b4 rest'' Hr4.
      apply wf_four; [unfold opens_four; lia|exact Hr3|exact Hr4|].
      apply IH; [cbn in Hn; lia|exact H].
    + next_byte H b2 rest Hr2. next_byte H b3 rest' Hr3. next_byte H b4 rest'' Hr4.
      apply wf_four; [unfold opens_four; lia|exact Hr3|exact Hr4|].
      apply IH; [cbn in Hn; lia|exact H].
    + now apply ends_well_malformed in H.
Qed.

(** The contiguous validator accepts exactly the byte sequences that the
    Unicode standard calls well formed: shortest forms only, no surrogate,
    nothing above U+10FFFF. *)
Theorem validate_iff_well_formed (data : list byte) :
  validate data = true <-> well_formed data.
Proof.
  rewrite validate_ends_well. split.
  - apply (ends_well_well_formed (length data)). lia.
  - apply well_formed_ends_well.
Qed.

(* ================================================================== *)
(** * Facts about the carry buffer *)
(* ================================================================== *)

Lemma poke_inside (cells : list byte) : forall (i : nat) (b : byte),
  (i < length cells)%nat ->
  exists cells',
    poke cells i b = Some cells' /\
    length cells' = length cells /\
    firstn (S i) cells' = firstn i cells ++ [b].
Proof.
  induction cells as [|c cells IH]; intros i b Hi; cbn [length] in Hi.
  - lia.
  - destruct i as [|i].
    + exists (b :: cells). repeat split.
    + destruct (IH i b ltac:(lia)) as (cells' & Hp & Hl & Hf).
      exists (c :: cells'). cbn [poke]. rewrite Hp. repeat split.
      * cbn [length]. now rewrite Hl.
      * change (firstn (S (S i)) (c :: cells')) with (c :: firstn (S i) cells').
        rewrite Hf. reflexivity.
Qed.

Lemma len_carried (c : carry) :
  carry_shape c -> len (carried c) = partial_filled c.
Proof.
  intros [Hl Hf]. unfold carried, len. rewrite length_firstn. lia.
Qed.

Lemma store_carry_inside (c : carry) (b : byte) :
  carry_shape c -> partial_filled c < 4 ->
  exists c',
    store_carry c b = Some c' /\
    carry_shape c' /\
    partial_filled c' = partial_filled c + 1 /\
    partial_more_needed c' = partial_more_needed c /\
    bytes_validated c' = bytes_validated c /\
    carried c' = carried c ++ [b].
Proof.
  intros [Hl Hf] Hlt. unfold store_carry.
  destruct (poke_inside (partial_codepoint c) (Z.to_nat (partial_filled c)) b
              ltac:(lia)) as (cells & Hp & Hlen & Hfirst).
  rewrite Hp. eexists. split; [reflexivity|].
  unfold carry_shape, carried. cbn [partial_codepoint partial_filled
    partial_more_needed bytes_validated].
  rewrite wrap_small by lia.
  repeat split; try lia.
  replace (Z.to_nat (partial_filled c + 1)) with (S (Z.to_nat (partial_filled c))) by lia.
  exact Hfirst.
Qed.

(** The loop of lines 82-86 moves a prefix [q] of the fragment into the
    carry and stops when nothing more is needed or the fragment is used up. *)
Lemma fill_partial_spec (data : list byte) : forall (c : carry),
  carry_shape c -> 0 <= partial_more_needed c ->
  partial_filled c + partial_more_needed c <= 4 ->
  exists c' q rest,
    fill_partial c data = Some (c', rest) /\
    data = q ++ rest /\
    carry_shape c' /\
    carried c' = carried c ++ q /\
    partial_filled c' = partial_filled c + len q /\
    partial_more_needed c' = partial_more_needed c - len q /\
    0 <= partial_more_needed c' /\
    bytes_validated c' = bytes_validated c /\
    (partial_more_needed c' = 0 \/ rest = []).
Proof.
  induction data as [|b data IH]; intros c Hs Hm Hsum.
  - exists c, [], []. cbn [fill_partial].
    destruct (partial_more_needed c =? 0);
      rewrite len_nil, Z.add_0_r, Z.sub_0_r, !app_nil_r;
      repeat split; auto; apply Hs.
  - cbn [fill_partial]. destruct (partial_more_needed c =? 0) eqn:E.
    + apply Z.eqb_eq in E. exists c, [], (b :: data).
      rewrite len_nil, Z.add_0_r, Z.sub_0_r, !app_nil_r.
      repeat split; auto; apply Hs.
    + apply Z.eqb_neq in E. pose proof Hs as [_ Hf0].
      destruct (store_carry_inside c b Hs ltac:(lia))
        as (c1 & Hst & Hs1 & Hf1 & Hm1 & Hv1 & Hc1).
      rewrite Hst.
      set (c2 := mk_carry (partial_codepoint c1) (partial_filled c1)
                   (to_size_t (partial_more_needed c1 - 1)) (bytes_validated c1)).
      assert (partial_more_needed c2 = partial_more_needed c - 1) as Hm2.
      { unfold c2. cbn [partial_more_needed]. rewrite wrap_small by lia. lia. }
      destruct (IH c2) as (c' & q & rest & Hfp & Hd & Hs' & Hc' & Hf' & Hm' & Hm0 & Hv' & Hstop).
      * exact Hs1.
      * lia.
      * rewrite Hm2. unfold c2. cbn [partial_filled]. lia.
      * exists c', (b :: q), rest. rewrite Hfp.
        repeat split; try (apply Hs'); auto.
        -- rewrite Hd. reflexivity.
        -- rewrite Hc'. unfold carried at 1, c2. cbn [partial_codepoint partial_filled].
           fold (carried c1). rewrite Hc1, <- app_assoc. reflexivity.
        -- rewrite Hf', len_cons. unfold c2. cbn [partial_filled]. lia.
        -- rewrite Hm', Hm2, len_cons. lia.
        -- rewrite Hv'. unfold c2. cbn [bytes_validated]. exact Hv1.
Qed.

Lemma skipn_nth_error {A : Type} (l : list A) : forall (n : nat) (x : A),
  nth_error l n = Some x -> skipn n l = x :: skipn (S n) l.
Proof.
  induction l as [|y l IH]; intros n x H.
  - destruct n; discriminate.
  - destruct n as [|n].
    + cbn in H. inversion H. reflexivity.
    + cbn in H. cbn [skipn]. rewrite (IH n x H). reflexivity.
Qed.

(** The loop of lines 108-111, as far as the carry is concerned: whatever
    the fragment, [count] cells are written if they are there to write. *)
Lemma copy_tail_shape (count : nat) : forall (c : carry) (frag : list byte) (at_ : Z),
  carry_shape c -> partial_filled c + Z.of_nat count <= 4 ->
  match copy_tail c frag at_ count with
  | inl c' =>
      carry_shape c' /\
      partial_filled c' = partial_filled c + Z.of_nat count /\
      partial_more_needed c' = partial_more_needed c /\
      bytes_validated c' = bytes_validated c
  | inr o => o = FragmentOutOfBounds
  end.
Proof.
  induction count as [|k IH]; intros c frag at_ Hs Hsum; pose proof Hs as [_ Hf0].
  - cbn [copy_tail]. repeat split; try apply Hs; lia.
  - cbn [copy_tail]. destruct (at_ <? 0); [reflexivity|].
    destruct (nth_error frag (Z.to_nat at_)) as [b|]; [|reflexivity].
    destruct (store_carry_inside c b Hs ltac:(lia))
      as (c1 & Hst & Hs1 & Hf1 & Hm1 & Hv1 & Hc1).
    rewrite Hst. specialize (IH c1 frag (at_ + 1) Hs1 ltac:(lia)).
    destruct (copy_tail c1 frag (at_ + 1) k) as [c'|o]; [|exact IH].
    destruct IH as (Hs' & Hf' & Hm' & Hv'). repeat split; try apply Hs'; lia.
Qed.

(** The same loop, as far as the bytes are concerned, when the tail lies
    within the fragment. *)
Lemma copy_tail_bytes (count : nat) : forall (c : carry) (frag : list byte) (at_ : Z),
  carry_shape c -> partial_filled c + Z.of_nat count <= 4 ->
  0 <= at_ -> at_ + Z.of_nat count <= len frag ->
  exists c',
    copy_tail c frag at_ count = inl c' /\
    carried c' = carried c ++ firstn count (skipn (Z.to_nat at_) frag).
Proof.
  induction count as [|k IH]; intros c frag at_ Hs Hsum Hat Hin; pose proof Hs as [_ Hf0].
  - exists c. cbn [copy_tail firstn]. now rewrite app_nil_r.
  - cbn [copy_tail]. destruct (at_ <? 0) eqn:E; [apply Z.ltb_lt in E; lia|].
    destruct (nth_error frag (Z.to_nat at_)) as [b|] eqn:En.
    + destruct (store_carry_inside c b Hs ltac:(lia))
        as (c1 & Hst & Hs1 & Hf1 & Hm1 & Hv1 & Hc1).
      rewrite Hst.
      destruct (IH c1 frag (at_ + 1) Hs1 ltac:(lia) ltac:(lia) ltac:(lia))
        as (c' & Hcp & Hc').
      exists c'. split; [exact Hcp|].
      rewrite Hc', Hc1, <- app_assoc. f_equal.
      rewrite (skipn_nth_error _ _ _ En). cbn [firstn app].
      replace (Z.to_nat (at_ + 1)) with (S (Z.to_nat at_)) by lia. reflexivity.
    + apply nth_error_None in En. unfold len in Hin. lia.
Qed.

(* ================================================================== *)
(** * The loop invariant of the fragmented validator *)
(* ================================================================== *)

Lemma in_step_start : in_step carry_start [].
Proof.
  split; [split; cbn; lia|]. exists []. repeat split. left. split; reflexivity.
Qed.

Lemma carried_empty (c : carry) : partial_filled c = 0 -> carried c = [].
Proof. intros H. unfold carried. rewrite H. reflexivity. Qed.

(** What the contiguous validator says of the bytes consumed so far. *)
Lemma in_step_verdict (c : carry) (consumed : list byte) :
  in_step c consumed ->
  validate_with_error_position consumed =
    if partial_more_needed c =? 0 then None else Some (bytes_validated c).
Proof.
  intros (Hs & pre & Hc & Hpre & Hbv & [[Hm Hf]|(Hm & Hf & Hsum & Hlead & ph & Hph & Hscan)]).
  - rewrite Hm. cbn. rewrite (carried_empty c Hf), app_nil_r in Hc. subst consumed.
    unfold validate_with_error_position. rewrite Hpre. reflexivity.
  - destruct (partial_more_needed c =? 0) eqn:E; [apply Z.eqb_eq in E; lia|].
    unfold validate_with_error_position. rewrite Hc, scan_app, Hpre, Hscan.
    cbn [at_phase confirmed].
    destruct Hph as [->|(lo & hi & ->)]; reflexivity.
Qed.

Lemma firstn_skipn_middle {A : Type} (l1 l2 : list A) :
  firstn (length l2) (skipn (length l1) (l1 ++ l2)) = l2.
Proof.
  rewrite skipn_app, skipn_all, Nat.sub_diag. cbn [skipn app].
  apply firstn_all.
Qed.

(** Lines 101-112 on the fragment bytes [data], entered with an empty
    carry. *)
Lemma validate_rest_sound (c : carry) (consumed data : list byte) :
  in_step c consumed -> partial_more_needed c = 0 ->
  len consumed + len data < 2 ^ 64 ->
  match validate_rest validate_partial validate_with_error_position c data with
  | inl c' => in_step c' (consumed ++ data)
  | inr o => exists p, o = Returned (Some p) /\
              scan scan_start (consumed ++ data) = mk_scanner Malformed p
  end.
Proof.
  intros (Hs & pre & Hc & Hpre & Hbv & Hcase) Hm Hbound.
  destruct Hcase as [[_ Hf]|[Hm1 _]]; [|lia].
  rewrite (carried_empty c Hf), app_nil_r in Hc. subst consumed.
  assert (scan scan_start (pre ++ data) =
          mk_scanner (at_phase (scan scan_start data))
                     (confirmed (scan scan_start data) + bytes_validated c)) as Hall.
  { rewrite scan_app, Hpre. apply scan_from_boundary. }
  pose proof (scan_accounted data) as [Hb Hacc].
  pose proof (len_nonneg pre) as Hpre0. pose proof (len_nonneg data) as Hdata0.
  unfold validate_rest, validate_partial, validate_with_error_position.
  destruct (scan scan_start data) as [ph p] eqn:Es.
  cbn [at_phase confirmed] in *.
  destruct ph as [|have need lo hi|];
    cbn [error unvalidated_tail bytes_needed_for_tail].
  - (* the fragment ends between two sequences *)
    rewrite Z.sub_0_r. cbn [Z.to_nat copy_tail].
    rewrite (wrap_small (len data)) by lia. rewrite wrap_small by lia.
    split; [exact Hs|]. exists (pre ++ data).
    cbn [partial_codepoint partial_filled partial_more_needed bytes_validated].
    rewrite carried_empty by exact Hf. rewrite app_nil_r.
    repeat split.
    + rewrite Hall. f_equal. lia.
    + rewrite len_app. lia.
    + left. split; [reflexivity|exact Hf].
  - (* the fragment ends within a sequence *)
    destruct Hacc as (pre2 & t & Hd & Hpre2 & Hp & Ht).
    destruct Ht as (Hl & Hn & Hsum & Hscan & Hlead).
    assert (len data = p + have) as Hdl by (rewrite Hd, len_app; lia).
    assert (1 <= have) as Hh.
    { destruct Hlead as (b0 & t' & _ & _ & -> & _).
      rewrite <- Hl, len_cons. pose proof (len_nonneg t'). lia. }
    replace (len data - have) with p by lia.
    rewrite (wrap_small p) by lia. rewrite wrap_small by lia.
    set (c1 := mk_carry (partial_codepoint c) (partial_filled c)
                 (partial_more_needed c) (bytes_validated c + p)).
    assert (carry_shape c1) as Hs1 by exact Hs.
    assert (partial_filled c1 + Z.of_nat (Z.to_nat have) <= 4) as Hroom.
    { unfold c1. cbn [partial_filled]. lia. }
    destruct (copy_tail_bytes (Z.to_nat have) c1 data p Hs1 Hroom ltac:(lia) ltac:(lia))
      as (c2 & Hcp & Hc2).
    pose proof (copy_tail_shape (Z.to_nat have) c1 data p Hs1 Hroom) as Hshape.
    rewrite Hcp in *. destruct Hshape as (Hs2 & Hf2 & Hm2 & Hv2).
    assert (carried c2 = t) as Hct.
    { rewrite Hc2. unfold carried at 1, c1. cbn [partial_filled partial_codepoint].
      rewrite Hf. cbn [Z.to_nat firstn app].
      rewrite Hd. replace (Z.to_nat p) with (length pre2) by (unfold len in Hp; lia).
      replace (Z.to_nat have) with (length t) by (unfold len in Hl; lia).
      apply firstn_skipn_middle. }
    unfold c1 in Hf2, Hv2. cbn [partial_filled bytes_validated] in Hf2, Hv2.
    split; [exact Hs2|]. exists (pre ++ pre2).
    unfold opened_by_leader, pending_phase, carried.
    cbn [partial_codepoint partial_filled partial_more_needed bytes_validated].
    fold (carried c2). rewrite Hct, Hv2, Hf2, Hf.
    replace (0 + Z.of_nat (Z.to_nat have)) with have by lia.
    repeat split.
    + rewrite Hd, app_assoc. reflexivity.
    + rewrite scan_app, Hpre, scan_from_boundary, Hpre2. cbn [at_phase confirmed].
      f_equal. lia.
    + rewrite len_app. lia.
    + right. repeat split; try lia.
      * exact Hlead.
      * exists (Inside have need lo hi). split; [|exact Hscan].
        right. exists lo, hi. reflexivity.
  - (* the fragment holds an ill-formed sequence *)
    exists (to_size_t (bytes_validated c + p)). split; [reflexivity|].
    rewrite Hall, wrap_small by lia. f_equal. lia.
Qed.

(** The body of the loop keeps the invariant, or returns once the
    contiguous scan has met an ill-formed sequence. *)
Lemma fragment_step_sound (c : carry) (consumed frag : list byte) :
  in_step c consumed ->
  len consumed + len frag < 2 ^ 64 ->
  match fragment_step validate_partial validate_with_error_position c frag with
  | inl c' => in_step c' (consumed ++ frag)
  | inr o => exists p, o = Returned (Some p) /\
              scan scan_start (consumed ++ frag) = mk_scanner Malformed p
  end.
Proof.
  intros Hin Hbound. unfold fragment_step.
  destruct (partial_more_needed c =? 0) eqn:E.
  { apply Z.eqb_eq in E. now apply validate_rest_sound. }
  apply Z.eqb_neq in E.
  destruct Hin as (Hs & pre & Hc & Hpre & Hbv &
                   [[Hm _]|(Hm & Hf & Hsum & Hlead & ph & Hph & Hscan)]); [lia|].
  destruct (fill_partial_spec frag c Hs ltac:(lia) Hsum)
    as (c1 & q & rest & Hfp & Hd & Hs1 & Hc1 & Hf1 & Hm1 & Hm0 & Hv1 & Hstop).
  rewrite Hfp.
  pose proof (len_carried c Hs) as Hlc. pose proof (len_carried c1 Hs1) as Hlc1.
  pose proof (len_nonneg pre) as Hpre0. pose proof (len_nonneg q) as Hq0.
  pose proof (len_nonneg rest) as Hrest0.
  assert (len consumed = len pre + partial_filled c) as Hlcons
      by (rewrite Hc, len_app; lia).
  assert (len frag = len q + len rest) as Hlfrag by (rewrite Hd; apply len_app).
  (* where the contiguous scan stands after the bytes now in the carry *)
  assert ((forall x, scan (mk_scanner Boundary x) (carried c1) = mk_scanner Malformed x) \/
          (len q < partial_more_needed c /\ exists lo' hi', forall x,
              scan (mk_scanner Boundary x) (carried c1) =
              mk_scanner (Inside (partial_filled c1) (partial_more_needed c1) lo' hi') x) \/
          (len q = partial_more_needed c /\ forall x,
              scan (mk_scanner Boundary x) (carried c1) =
              mk_scanner Boundary (x + partial_filled c1))) as Hafter.
  { destruct Hph as [->|(lo & hi & ->)].
    - left. intros x. rewrite Hc1, scan_app, Hscan. apply scan_malformed.
    - destruct (inside_progress q (partial_filled c) (partial_more_needed c) lo hi
                  ltac:(lia) ltac:(lia)) as [H1|[[H1 (lo' & hi' & H2)]|[H1 H2]]].
      + left. intros x. rewrite Hc1, scan_app, Hscan. apply H1.
      + right; left. split; [exact H1|]. exists lo', hi'. intros x.
        rewrite Hc1, scan_app, Hscan, H2, Hf1, Hm1. reflexivity.
      + right; right. split; [exact H1|]. intros x.
        rewrite Hc1, scan_app, Hscan, H2, Hf1. f_equal. lia. }
  assert (consumed ++ q = pre ++ carried c1) as Hcq
      by (rewrite Hc, Hc1, app_assoc; reflexivity).
  unfold close_partial.
  destruct (partial_more_needed c1 =? 0) eqn:E1.
  - apply Z.eqb_eq in E1.
    unfold validate_partial at 1.
    destruct Hafter as [HM|[[HI _]|[HB HBs]]]; [| lia |].
    + (* the completed sequence is ill-formed *)
      change (scan scan_start (carried c1))
        with (scan (mk_scanner Boundary 0) (carried c1)).
      rewrite HM. cbn [at_phase error].
      exists (bytes_validated c1). split; [reflexivity|].
      rewrite Hd, app_assoc, Hcq, !scan_app, Hpre, HM, Hv1. apply scan_malformed.
    + (* the completed sequence is well-formed *)
      change (scan scan_start (carried c1))
        with (scan (mk_scanner Boundary 0) (carried c1)).
      rewrite HBs. cbn [at_phase error].
      rewrite wrap_small by lia.
      set (c2 := mk_carry (partial_codepoint c1) 0 0
                   (bytes_validated c1 + partial_filled c1)).
      assert (in_step c2 (consumed ++ q)) as Hin2.
      { split; [split; [apply Hs1|cbn; lia]|].
        exists (pre ++ carried c1). unfold c2.
        cbn [partial_codepoint partial_filled partial_more_needed bytes_validated].
        repeat split.
        - rewrite Hcq. unfold carried at 3. cbn [partial_filled Z.to_nat firstn].
          now rewrite app_nil_r.
        - rewrite scan_app, Hpre, HBs, Hv1. reflexivity.
        - rewrite len_app. lia.
        - left. split; reflexivity. }
      destruct rest as [|b rest].
      * rewrite Hd, app_nil_r. exact Hin2.
      * rewrite Hd, app_assoc.
        apply validate_rest_sound; [exact Hin2|reflexivity|].
        rewrite len_app. lia.
  - apply Z.eqb_neq in E1.
    destruct Hstop as [Hstop| ->]; [lia|].
    rewrite Hd, app_nil_r.
    split; [exact Hs1|]. exists pre. repeat split.
    + exact Hcq.
    + rewrite Hv1. exact Hpre.
    + lia.
    + right. repeat split; try lia.
      * destruct Hlead as (b0 & t & lo & hi & Ht & Hl).
        exists b0, (t ++ q), lo, hi. split.
        -- rewrite Hc1, Ht. reflexivity.
        -- rewrite Hl. f_equal. lia.
      * destruct Hafter as [HM|[[HI (lo' & hi' & HIs)]|[HB _]]]; [| |lia].
        -- exists Malformed. split; [left; reflexivity|exact HM].
        -- exists (Inside (partial_filled c1) (partial_more_needed c1) lo' hi').
           split; [right; exists lo', hi'; reflexivity|exact HIs].
Qed.

(** The loop over the fragments. *)
Lemma fragments_loop_sound (frags : list (list byte)) :
  forall (c : carry) (consumed : list byte),
  in_step c consumed ->
  len consumed + len (concat frags) < 2 ^ 64 ->
  match fragments_loop validate_partial validate_with_error_position c frags with
  | inl c' => in_step c' (consumed ++ concat frags)
  | inr o => exists p, o = Returned (Some p) /\
              scan scan_start (consumed ++ concat frags) = mk_scanner Malformed p
  end.
Proof.
  induction frags as [|frag frags IH]; intros c consumed Hin Hbound.
  - cbn. now rewrite app_nil_r.
  - cbn [fragments_loop concat]. cbn [concat] in Hbound. rewrite len_app in Hbound.
    pose proof (len_nonneg (concat frags)).
    pose proof (fragment_step_sound c consumed frag Hin ltac:(lia)) as Hstep.
    destruct (fragment_step validate_partial validate_with_error_position c frag)
      as [c1|o].
    + rewrite app_assoc. apply IH; [exact Hstep|]. rewrite len_app. lia.
    + destruct Hstep as (p & -> & Hp). exists p. split; [reflexivity|].
      rewrite app_assoc, scan_app, Hp. apply scan_malformed.
Qed.

Lemma fragmented_is_contiguous (fv : list (list byte)) :
  len (concat fv) < 2 ^ 64 ->
  fragmented fv = Returned (validate_with_error_position (concat fv)).
Proof.
  intros Hbound.
  pose proof (fragments_loop_sound fv carry_start [] in_step_start
                ltac:(rewrite len_nil; lia)) as H.
  unfold fragmented, validate_with_error_position_fragmented.
  cbn [app] in H.
  destruct (fragments_loop validate_partial validate_with_error_position carry_start fv)
    as [c|o].
  - rewrite (in_step_verdict c _ H).
    destruct (partial_more_needed c =? 0); reflexivity.
  - destruct H as (p & -> & Hp).
    unfold validate_with_error_position. rewrite Hp. reflexivity.
Qed.

(* ================================================================== *)
(** * The fragmented validator against the contiguous one *)
(* ================================================================== *)

(** C1.  Whatever the way a byte sequence [data] is cut into an ordered list
    of fragments [fv], [validate_with_error_position_fragmented] run over
    the fragments returns what [validate_with_error_position] returns on
    [data]: [std::nullopt] for both, or the same position of the first
    error.  The length of [data] is a [size_t]. *)
Theorem fragmented_agrees_with_contiguous
    (data : list byte) (fv : list (list byte)) :
  concat fv = data ->
  len data < 2 ^ 64 ->
  fragmented fv = Returned (validate_with_error_position data).
Proof.
  intros <- Hbound. now apply fragmented_is_contiguous.
Qed.

Lemma fragmented_agrees_with_contiguous_witness :
  concat [[x41; xf0]; [x9f; x28]; []; [x80]] = [x41; xf0; x9f; x28; x80] /\
  len [x41; xf0; x9f; x28; x80] < 2 ^ 64 /\
  fragmented [[x41; xf0]; [x9f; x28]; []; [x80]] =
    Returned (validate_with_error_position [x41; xf0; x9f; x28; x80]).
Proof.
  split; [reflexivity|]. split; [reflexivity|].
  apply (fragmented_agrees_with_contiguous
           [x41; xf0; x9f; x28; x80] [[x41; xf0]; [x9f; x28]; []; [x80]]);
    reflexivity.
Defined.

(** C8.  When the loop has gone through every fragment and leaves the
    validator waiting for continuation bytes, the function reports an error
    at [bytes_validated]; and [bytes_validated] is the index of the leading
    byte of the sequence the end of the input cuts short: the input is a
    well-formed prefix [pre] of that length followed by the bytes [b :: t] in
    the carry, [b] opening a sequence of more bytes than are there.  When
    nothing is pending after the last fragment the function reports
    [std::nullopt]. *)
Theorem truncated_input_reported_at_leading_byte
    (fv : list (list byte)) (c : carry) :
  len (concat fv) < 2 ^ 64 ->
  fragments_loop validate_partial validate_with_error_position carry_start fv = inl c ->
  (partial_more_needed c = 0 -> fragmented fv = Returned None) /\
  (partial_more_needed c <> 0 ->
     fragmented fv = Returned (Some (bytes_validated c)) /\
     exists pre b t n lo hi,
       concat fv = pre ++ b :: t /\
       carried c = b :: t /\
       len pre = bytes_validated c /\
       validate pre = true /\
       leading (u8 b) = Inside 1 n lo hi /\
       len t < n /\
       n - len t = partial_more_needed c).
Proof.
  intros Hbound Hloop.
  pose proof (fragments_loop_sound fv carry_start [] in_step_start
                ltac:(rewrite len_nil; lia)) as H.
  rewrite Hloop in H. cbn [app] in H.
  unfold fragmented, validate_with_error_position_fragmented. rewrite Hloop.
  split; intros Hm.
  - rewrite Hm. reflexivity.
  - apply Z.eqb_neq in Hm. rewrite Hm. apply Z.eqb_neq in Hm.
    split; [reflexivity|].
    destruct H as (Hs & pre & Hc & Hpre & Hbv &
                   [[Hm0 _]|(Hm1 & Hf & Hsum & Hlead & _)]); [lia|].
    destruct Hlead as (b & t & lo & hi & Ht & Hl).
    exists pre, b, t, (partial_filled c + partial_more_needed c - 1), lo, hi.
    pose proof (len_carried c Hs) as Hlc. rewrite Ht, len_cons in Hlc.
    repeat split; try lia.
    + rewrite Hc, Ht. reflexivity.
    + exact Ht.
    + unfold validate, validate_with_error_position. rewrite Hpre. reflexivity.
    + exact Hl.
Qed.

Lemma truncated_input_reported_at_leading_byte_witness :
  len (concat [[x41; xc3; xa9; xf0]; [x9f]]) < 2 ^ 64 /\
  fragments_loop validate_partial validate_with_error_position carry_start
    [[x41; xc3; xa9; xf0]; [x9f]] = inl (mk_carry [xf0; x9f; x00; x00] 2 2 3) /\
  fragmented [[x41; xc3; xa9; xf0]; [x9f]] = Returned (Some 3).
Proof.
  split; [reflexivity|]. split; [reflexivity|].
  refine (proj1 (proj2 (truncated_input_reported_at_leading_byte
            [[x41; xc3; xa9; xf0]; [x9f]]
            (mk_carry [xf0; x9f; x00; x00] 2 2 3) _ _) _)).
  - reflexivity.
  - reflexivity.
  - cbn. lia.
Defined.

(** The overload of lines 68-70, for a view of a single fragment, calls
    the contiguous validator; the general function agrees with it. *)
Corollary single_fragment (frag : list byte) :
  len frag < 2 ^ 64 ->
  fragmented [frag] = Returned (validate_with_error_position frag).
Proof.
  intros H. rewrite fragmented_is_contiguous; cbn [concat]; rewrite app_nil_r; auto.
Qed.

(** ** The byte sequences the specification singles out *)

(** C3 28: a continuation byte out of range; reported at the leading byte. *)
Example invalid_continuation :
  validate_with_error_position [xc3; x28] = Some 0.
Proof. reflexivity. Qed.

(** E2 82: invalid as a whole buffer, one byte short as a fragment. *)
Example truncated_three_bytes :
  validate_with_error_position [xe2; x82] = Some 0 /\
  validate_partial [xe2; x82] = mk_pvr false 2 1.
Proof. split; reflexivity. Qed.

(** U+1F600, F0 9F 98 80, cut after one, two and three bytes. *)
Example four_bytes_across_two_fragments :
  fragmented [[xf0]; [x9f; x98; x80]] = Returned None /\
  fragmented [[xf0; x9f]; [x98; x80]] = Returned None /\
  fragmented [[xf0; x9f; x98]; [x80]] = Returned None.
Proof. repeat split; reflexivity. Qed.

(** A lone F0 at the end of the input. *)
Example lone_leading_byte :
  fragmented [[x41; x42]; [xf0]] = Returned (Some 2).
Proof. reflexivity. Qed.

(** Overlong forms, surrogates, values above U+10FFFF and the bytes that
    open no sequence are rejected. *)
Example ill_formed_sequences :
  validate [xc0; x80] = false /\ validate [xe0; x80; x80] = false /\
  validate [xed; xa0; x80] = false /\ validate [xf4; x90; x80; x80] = false /\
  validate [xf5; x80; x80; x80] = false /\ validate [x80] = false /\
  validate [x63; x61; x66; xc3; xa9] = true.
Proof. repeat split; reflexivity. Qed.

(* ================================================================== *)
(** * The carry buffer stays within its four cells *)
(* ================================================================== *)

Section CarryBounds.

Variable vp : list byte -> partial_validation_results.
Variable vwep : list byte -> option Z.
Hypothesis vp_bounded : tail_report_bounded vp.
Hypothesis vp_unresolved : tail_report_unresolved vp.

Lemma validate_rest_bounds (c : carry) (data : list byte) :
  carry_shape c -> partial_filled c = 0 ->
  match validate_rest vp vwep c data with
  | inl c' => carry_in_bounds c'
  | inr o => o <> CarryOutOfBounds
  end.
Proof.
  intros Hs Hf. unfold validate_rest.
  destruct (vp_bounded data) as (Ht & Hn & Hsum).
  pose proof (vp_unresolved data) as Hun.
  destruct (error (vp data)).
  - destruct (vwep data); discriminate.
  - set (c1 := mk_carry _ _ _ _).
    assert (carry_shape c1) as Hs1 by exact Hs.
    pose proof (copy_tail_shape (Z.to_nat (unvalidated_tail (vp data))) c1 data
                  (len data - unvalidated_tail (vp data)) Hs1) as Hcp.
    unfold c1 at 1 in Hcp. cbn [partial_filled] in Hcp.
    specialize (Hcp ltac:(lia)).
    destruct (copy_tail c1 data _ _) as [c2|o].
    + destruct Hcp as (Hs2 & Hf2 & _). unfold c1 in Hf2. cbn [partial_filled] in Hf2.
      unfold carry_in_bounds.
      cbn [partial_codepoint partial_filled partial_more_needed bytes_validated].
      repeat split; try apply Hs2; lia.
    + subst o. discriminate.
Qed.

Lemma fragment_step_bounds (c : carry) (frag : list byte) :
  carry_in_bounds c ->
  match fragment_step vp vwep c frag with
  | inl c' => carry_in_bounds c'
  | inr o => o <> CarryOutOfBounds
  end.
Proof.
  intros (Hs & Hm & Hsum & Hz). unfold fragment_step.
  destruct (partial_more_needed c =? 0) eqn:E.
  { apply Z.eqb_eq in E. apply validate_rest_bounds; auto. }
  destruct (fill_partial_spec frag c Hs Hm Hsum)
    as (c1 & q & rest & Hfp & Hd & Hs1 & Hc1 & Hf1 & Hm1 & Hm0 & Hv1 & Hstop).
  rewrite Hfp. unfold close_partial.
  destruct (partial_more_needed c1 =? 0) eqn:E1.
  - destruct (error (vp (carried c1))); [discriminate|].
    set (c2 := mk_carry _ _ _ _).
    assert (carry_in_bounds c2) as Hb2.
    { unfold c2, carry_in_bounds, carry_shape.
      cbn [partial_codepoint partial_filled partial_more_needed].
      repeat split; try apply Hs1; lia. }
    destruct rest as [|b rest]; [exact Hb2|].
    apply validate_rest_bounds; [apply Hb2|reflexivity].
  - apply Z.eqb_neq in E1. destruct Hstop as [Hstop| ->]; [lia|].
    unfold carry_in_bounds. repeat split; try apply Hs1; lia.
Qed.

Lemma fragments_loop_bounds (fv : list (list byte)) : forall (c : carry),
  carry_in_bounds c ->
  match fragments_loop vp vwep c fv with
  | inl c' => carry_in_bounds c'
  | inr o => o <> CarryOutOfBounds
  end.
Proof.
  induction fv as [|frag fv IH]; intros c Hc.
  - exact Hc.
  - cbn [fragments_loop].
    pose proof (fragment_step_bounds c frag Hc) as Hstep.
    destruct (fragment_step vp vwep c frag) as [c1|o]; [now apply IH|exact Hstep].
Qed.

End CarryBounds.

Lemma carry_start_in_bounds : carry_in_bounds carry_start.
Proof. unfold carry_in_bounds, carry_shape. cbn. repeat split; lia. Qed.

Lemma validate_partial_bounded : tail_report_bounded validate_partial.
Proof.
  intros data. unfold validate_partial.
  pose proof (scan_accounted data) as [_ H].
  destruct (at_phase (scan scan_start data)) as [|have need lo hi|];
    cbn [unvalidated_tail bytes_needed_for_tail]; try lia.
  destruct H as (pre & t & _ & _ & _ & (Hl & Hn & Hsum & _)).
  pose proof (len_nonneg t). lia.
Qed.

Lemma validate_partial_unresolved : tail_report_unresolved validate_partial.
Proof.
  intros data. unfold validate_partial.
  pose proof (scan_accounted data) as [_ H].
  destruct (at_phase (scan scan_start data)) as [|have need lo hi|];
    cbn [unvalidated_tail bytes_needed_for_tail]; try lia.
  destruct H as (pre & t & _ & _ & _ & (Hl & Hn & Hsum & _)). lia.
Qed.

(** C10, as stated, fails: [greedy_tail] answers within the bound the claim
    asks for, and the second of two three-byte fragments is then written to
    [partial_codepoint[3]], [[4]] and [[5]]. *)
Lemma carry_overrun_under_bounded_tail :
  tail_report_bounded greedy_tail /\
  validate_with_error_position_fragmented greedy_tail validate_with_error_position
    [[x61; x62; x63]; [x64; x65; x66]] = CarryOutOfBounds.
Proof.
  split; [|reflexivity].
  intros data. unfold greedy_tail. cbn [unvalidated_tail bytes_needed_for_tail].
  pose proof (len_nonneg data). lia.
Qed.

(** C10, amended.  When [validate_partial] reports tails of at most three
    bytes which with the bytes they need make at most four, and reports no
    tail that needs nothing, then after every fragment
    [partial_filled + partial_more_needed <= 4], and no run writes
    [partial_codepoint] at an index of 4 or more. *)
Theorem carry_buffer_in_bounds
    (vp : list byte -> partial_validation_results)
    (vwep : list byte -> option Z) (fv : list (list byte)) :
  tail_report_bounded vp ->
  tail_report_unresolved vp ->
  validate_with_error_position_fragmented vp vwep fv <> CarryOutOfBounds /\
  forall (n : nat),
    match fragments_loop vp vwep carry_start (firstn n fv) with
    | inl c => 0 <= partial_filled c /\ 0 <= partial_more_needed c /\
               partial_filled c + partial_more_needed c <= 4
    | inr o => o <> CarryOutOfBounds
    end.
Proof.
  intros Hb Hu. split.
  - unfold validate_with_error_position_fragmented.
    pose proof (fragments_loop_bounds vp vwep Hb Hu fv carry_start
                  carry_start_in_bounds) as H.
    destruct (fragments_loop vp vwep carry_start fv) as [c|o]; [|exact H].
    destruct (partial_more_needed c =? 0); discriminate.
  - intros n.
    pose proof (fragments_loop_bounds vp vwep Hb Hu (firstn n fv) carry_start
                  carry_start_in_bounds) as H.
    destruct (fragments_loop vp vwep carry_start (firstn n fv)) as [c|o]; [|exact H].
    destruct H as ((_ & Hf) & Hm & Hsum & _). lia.
Qed.

Lemma carry_buffer_in_bounds_witness :
  tail_report_bounded validate_partial /\
  tail_report_unresolved validate_partial /\
  fragmented [[x41; xf0]; [x9f; x98]; [x80; xe2]] <> CarryOutOfBounds.
Proof.
  split; [exact validate_partial_bounded|].
  split; [exact validate_partial_unresolved|].
  exact (proj1 (carry_buffer_in_bounds validate_partial validate_with_error_position
                  [[x41; xf0]; [x9f; x98]; [x80; xe2]]
                  validate_partial_bounded validate_partial_unresolved)).
Defined.

(* ================================================================== *)
(** * Facts about chains of chunks *)
(* ================================================================== *)

Lemma wrap32_small (x : Z) : 0 <= x < 2 ^ 32 -> to_size_type x = x.
Proof. intros H. unfold to_size_type, size_type_modulus. now apply Z.mod_small. Qed.

Lemma wrap32_range (x : Z) : 0 <= to_size_type x < 2 ^ 32.
Proof. unfold to_size_type, size_type_modulus. apply Z.mod_pos_bound. lia. Qed.

Lemma wrap32_add_l (x y : Z) : to_size_type (to_size_type x + y) = to_size_type (x + y).
Proof. unfold to_size_type. now rewrite Zplus_mod_idemp_l. Qed.

Lemma wrap32_add_r (x y : Z) : to_size_type (x + to_size_type y) = to_size_type (x + y).
Proof. unfold to_size_type. now rewrite Zplus_mod_idemp_r. Qed.

Lemma usable_chunk_size_value : usable_chunk_size = 496.
Proof. reflexivity. Qed.

Lemma storage_value (ch : chunk) : storage ch = capacity ch + 4.
Proof. unfold storage, sizeof_chunk, offsetof_data. lia. Qed.

Lemma storage_same (c c' : chunk) : capacity c = capacity c' -> storage c = storage c'.
Proof. unfold storage. now intros ->. Qed.

Lemma nth_error_last {A : Type} (init : list A) (x : A) :
  nth_error (init ++ [x]) (length init) = Some x.
Proof. induction init as [|y init IH]; [reflexivity|exact IH]. Qed.

Lemma update_nth_last {A : Type} (init : list A) (x y : A) :
  update_nth (length init) y (init ++ [x]) = init ++ [y].
Proof.
  induction init as [|z init IH]; [reflexivity|].
  cbn [length app update_nth]. now rewrite IH.
Qed.

Lemma firstn_last {A : Type} (init : list A) (x : A) :
  firstn (S (length init)) (init ++ [x]) = init ++ [x].
Proof.
  replace (S (length init)) with (length (init ++ [x]))
    by (rewrite length_app; cbn; lia).
  apply firstn_all.
Qed.

Lemma linked_facing (s : bytes_ostream) : linked s -> facing s.
Proof.
  unfold linked. destruct (_current s) as [i|] eqn:Ec; intros H.
  - destruct (_begin s) as [|c l] eqn:Eb using rev_ind; [cbn in H; lia|].
    clear IHl. rewrite length_app in H. cbn in H.
    apply (LastChunk s l c Eb). rewrite Ec. f_equal. lia.
  - now apply NoChunk.
Qed.

Lemma current_space_left_none (s : bytes_ostream) :
  _current s = None -> current_space_left s = Ok 0.
Proof. intros H. unfold current_space_left. now rewrite H. Qed.

Lemma current_space_left_last (s : bytes_ostream) (init : list chunk) (cur : chunk) :
  _begin s = init ++ [cur] -> _current s = Some (length init) ->
  current_space_left s = Ok (to_size_type (usable_chunk_size - offset cur)).
Proof.
  intros Hb Hc. unfold current_space_left, deref. rewrite Hc, Hb, nth_error_last.
  reflexivity.
Qed.

Lemma alloc_none (s : bytes_ostream) (size : Z) :
  _begin s = [] -> _current s = None ->
  alloc s size =
    if size <=? 0 then Fault NullPointer
    else Ok (mk_stream (_begin s ++ [new_chunk size]) (Some (length (_begin s)))
                       (to_size_type (_size s + size)),
             mk_pointer (length (_begin s)) 0).
Proof.
  intros Hb Hc. unfold alloc. rewrite (current_space_left_none s Hc).
  cbn [bind]. rewrite Hc, Hb. destruct (size <=? 0); reflexivity.
Qed.

Lemma alloc_last (s : bytes_ostream) (init : list chunk) (cur : chunk) (size : Z) :
  _begin s = init ++ [cur] -> _current s = Some (length init) ->
  alloc s size =
    if size <=? to_size_type (usable_chunk_size - offset cur) then
      Ok (mk_stream
            (init ++ [mk_chunk (capacity cur) (to_size_type (offset cur + size)) (data cur)])
            (Some (length init)) (to_size_type (_size s + size)),
          mk_pointer (length init) (offset cur))
    else
      Ok (mk_stream (_begin s ++ [new_chunk size]) (Some (length (_begin s)))
                    (to_size_type (_size s + size)),
          mk_pointer (length (_begin s)) 0).
Proof.
  intros Hb Hc. unfold alloc. rewrite (current_space_left_last s init cur Hb Hc).
  cbn [bind]. rewrite Hc. unfold deref. rewrite Hb, nth_error_last. cbn [bind].
  rewrite update_nth_last, firstn_last, length_app. cbn [length].
  replace (length init + 1)%nat with (S (length init)) by lia. reflexivity.
Qed.

Lemma memcpy_last (init : list chunk) (cur : chunk) (c : option nat) (z : Z)
    (at_ : Z) (src : list cell) :
  memcpy (mk_stream (init ++ [cur]) c z) (mk_pointer (length init) at_) src =
    if (0 <=? at_) && (at_ + len src <=? storage cur) then
      Ok (mk_stream
            (init ++ [mk_chunk (capacity cur) (offset cur) (splice (data cur) at_ src)])
            c z)
    else Fault Overrun.
Proof.
  unfold memcpy, deref. cbn [_begin _current _size in_chunk at_byte].
  rewrite nth_error_last. cbn [bind]. rewrite update_nth_last. reflexivity.
Qed.

Lemma advance_last (init : list chunk) (cur : chunk) (c : option nat) (z n : Z) :
  advance (mk_stream (init ++ [cur]) c z) (length init) n =
    Ok (mk_stream
          (init ++ [mk_chunk (capacity cur) (to_size_type (offset cur + n)) (data cur)])
          c (to_size_type (z + n))).
Proof.
  unfold advance, deref. cbn [_begin _current _size].
  rewrite nth_error_last. cbn [bind]. rewrite update_nth_last. reflexivity.
Qed.

(** ** Laying cells over cells *)

Lemma splice_length (cells : list cell) (at_ : Z) (src : list cell) :
  0 <= at_ -> at_ + len src <= len cells ->
  len (splice cells at_ src) = len cells.
Proof.
  unfold len, splice. intros H0 H1.
  rewrite !length_app, length_firstn, length_skipn. lia.
Qed.

Lemma splice_firstn (cells : list cell) (at_ : Z) (src : list cell) :
  0 <= at_ -> at_ <= len cells ->
  firstn (Z.to_nat (at_ + len src)) (splice cells at_ src) =
  firstn (Z.to_nat at_) cells ++ src.
Proof.
  unfold len, splice. intros H0 H1.
  rewrite app_assoc.
  replace (Z.to_nat (at_ + Z.of_nat (length src)))
    with (length (firstn (Z.to_nat at_) cells ++ src) + 0)%nat
    by (rewrite length_app, length_firstn; lia).
  rewrite firstn_app_2. cbn [firstn]. now rewrite app_nil_r.
Qed.

Lemma splice_skipn (cells : list cell) (at_ : Z) (src : list cell) :
  0 <= at_ -> at_ <= len cells ->
  skipn (Z.to_nat (at_ + len src)) (splice cells at_ src) =
  skipn (Z.to_nat (at_ + len src)) cells.
Proof.
  unfold len, splice. intros H0 H1.
  rewrite app_assoc.
  replace (Z.to_nat (at_ + Z.of_nat (length src)))
    with (length (firstn (Z.to_nat at_) cells ++ src))
    by (rewrite length_app, length_firstn; lia).
  rewrite skipn_app, skipn_all, Nat.sub_diag. cbn [skipn app].
  f_equal. rewrite length_app, length_firstn. lia.
Qed.

Lemma splice_splice (cells : list cell) (at_ : Z) (w1 w2 : list cell) :
  0 <= at_ -> at_ + len w1 <= len cells ->
  splice (splice cells at_ w1) (at_ + len w1) w2 = splice cells at_ (w1 ++ w2).
Proof.
  intros H0 H1. pose proof (len_nonneg w1) as Hw1.
  unfold splice at 1.
  rewrite (splice_firstn cells at_ w1) by lia.
  replace (Z.to_nat (at_ + len w1) + length w2)%nat
    with (length w2 + Z.to_nat (at_ + len w1))%nat by lia.
  rewrite <- skipn_skipn, (splice_skipn cells at_ w1) by lia.
  rewrite skipn_skipn. unfold splice, len. rewrite <- !app_assoc, length_app.
  do 4 f_equal. lia.
Qed.

Lemma splice_nil (cells : list cell) (at_ : Z) :
  splice cells at_ [] = cells.
Proof.
  unfold splice. cbn [app length]. rewrite Nat.add_0_r. apply firstn_skipn.
Qed.

Lemma firstn_repeat {A : Type} (x : A) (n m : nat) :
  (n <= m)%nat -> firstn n (repeat x m) = repeat x n.
Proof.
  revert m. induction n as [|n IH]; intros m H; [reflexivity|].
  destruct m as [|m]; [lia|]. cbn. f_equal. apply IH. lia.
Qed.

Lemma skipn_repeat {A : Type} (x : A) (n m : nat) :
  skipn n (repeat x m) = repeat x (m - n).
Proof.
  revert m. induction n as [|n IH]; intros m.
  - now rewrite Nat.sub_0_r.
  - destruct m as [|m]; [reflexivity|]. cbn. apply IH.
Qed.

Lemma len_repeat {A : Type} (x : A) (n : nat) : len (repeat x n) = Z.of_nat n.
Proof. unfold len. now rewrite repeat_length. Qed.

Lemma len_map {A B : Type} (f : A -> B) (l : list A) : len (map f l) = len l.
Proof. unfold len. now rewrite length_map. Qed.

(* ================================================================== *)
(** * Invariants of a stream *)
(* ================================================================== *)

Lemma filled_app (l1 l2 : list chunk) : filled (l1 ++ l2) = filled l1 + filled l2.
Proof. induction l1 as [|c l1 IH]; cbn; [reflexivity|]. fold (filled (l1 ++ l2)) (filled l1). lia. Qed.

Lemma filled_nonneg (l : list chunk) :
  Forall chunk_counted l -> 0 <= filled l.
Proof.
  induction 1 as [|c l [Hc _] _ IH]; cbn; [lia|]. fold (filled l). lia.
Qed.

Lemma contents_chain (l : list chunk) (c : option nat) (z : Z) :
  contents (mk_stream l c z) = concat (map payload l).
Proof. reflexivity. Qed.

Lemma below_refl (l : list chunk) : below l l.
Proof. induction l; constructor; auto; lia. Qed.

Lemma below_trans (l1 l2 l3 : list chunk) :
  below l1 l2 -> below l2 l3 -> below l1 l3.
Proof.
  intros H. revert l3. induction H as [|c c' l l' Hc Ho _ IH]; intros l3 H23.
  - constructor.
  - inversion H23; subst. constructor; [congruence|lia|auto].
Qed.

Lemma below_app (l m : list chunk) : below l (l ++ m).
Proof. induction l; cbn; constructor; auto; lia. Qed.

Lemma below_last (init : list chunk) (c c' : chunk) :
  capacity c = capacity c' -> offset c <= offset c' ->
  below (init ++ [c]) (init ++ [c']).
Proof.
  intros Hc Ho. induction init; cbn; constructor; auto; try lia. constructor.
Qed.

Lemma below_within (l l' : list chunk) :
  below l l' -> Forall chunk_within l' -> Forall chunk_within l.
Proof.
  induction 1 as [|c c' l l' Hc Ho _ IH]; intros H; [constructor|].
  inversion H; subst. constructor; [unfold chunk_within in *; lia|auto].
Qed.

Lemma advances_refl (s : bytes_ostream) : counted s -> advances s s [].
Proof.
  intros H. repeat split; try apply H.
  - rewrite len_nil. lia.
  - apply below_refl.
  - assumption.
  - now rewrite app_nil_r.
Qed.

Lemma advances_trans (s1 s2 s3 : bytes_ostream) (w1 w2 : list cell) :
  advances s1 s2 w1 -> advances s2 s3 w2 -> advances s1 s3 (w1 ++ w2).
Proof.
  intros (_ & Hf1 & Hb1 & Hc1) (Hk & Hf2 & Hb2 & Hc2).
  split; [exact Hk|]. split; [rewrite len_app; lia|].
  split; [eapply below_trans; eassumption|].
  intros Hcells Hw3.
  assert (within s2) as Hw2 by (eapply below_within; eassumption).
  destruct (Hc1 Hcells Hw2) as [Hcells2 Hcont2].
  destruct (Hc2 Hcells2 Hw3) as [Hcells3 Hcont3].
  split; [exact Hcells3|]. rewrite Hcont3, Hcont2, app_assoc. reflexivity.
Qed.

Lemma Forall_last {A : Type} (P : A -> Prop) (init : list A) (x : A) :
  Forall P (init ++ [x]) <-> Forall P init /\ P x.
Proof.
  rewrite Forall_app. split; intros [H1 H2]; split; auto.
  now inversion H2.
Qed.

Lemma splice_unwritten (cells : list cell) (at_ cap : Z) (n : nat) :
  0 <= at_ -> at_ + Z.of_nat n <= cap -> len cells = cap ->
  skipn (Z.to_nat at_) cells = repeat None (Z.to_nat (cap - at_)) ->
  splice cells at_ (repeat None n) = cells.
Proof.
  intros H0 H1 Hl Hs. unfold splice. rewrite repeat_length.
  rewrite <- (firstn_skipn (Z.to_nat at_) cells) at 3. f_equal.
  rewrite <- (firstn_skipn n (skipn (Z.to_nat at_) cells)).
  rewrite skipn_skipn. f_equal; [|f_equal; lia].
  rewrite Hs. symmetry. apply firstn_repeat. lia.
Qed.

(** The current chunk takes [n] more cells, [w]. *)
Lemma advances_in_place (init : list chunk) (cur cur' : chunk) (z n : Z) (w : list cell) :
  counted (mk_stream (init ++ [cur]) (Some (length init)) z) ->
  len w = n ->
  filled (init ++ [cur]) + n < 2 ^ 32 ->
  capacity cur' = capacity cur ->
  offset cur' = to_size_type (offset cur + n) ->
  len (data cur') = storage cur ->
  (chunk_cells cur -> offset cur + n <= capacity cur ->
   data cur' = splice (data cur) (offset cur) w) ->
  advances (mk_stream (init ++ [cur]) (Some (length init)) z)
           (mk_stream (init ++ [cur']) (Some (length init)) (to_size_type (z + n))) w.
Proof.
  intros (Hl & Ho & Hz) Hw Hn Hcap Hoff Hlen' Hdata.
  cbn [_begin _current _size] in *.
  apply Forall_last in Ho. destruct Ho as [Hoi [Hoc Hlen]].
  pose proof (filled_nonneg init Hoi) as Hfi.
  pose proof (len_nonneg w) as Hw0.
  rewrite filled_app in Hn, Hz. cbn [filled fold_right] in Hn, Hz.
  rewrite wrap32_small in Hoff by lia.
  unfold advances, counted. cbn [_begin _current _size].
  rewrite !filled_app. cbn [filled fold_right].
  split; [split; [|split]|split; [|split]].
  - unfold linked in *. cbn [_begin _current] in *. rewrite length_app in *. exact Hl.
  - apply Forall_last. split; [exact Hoi|]. split; [lia|].
    now rewrite (storage_same cur' cur Hcap).
  - rewrite wrap32_small by lia. lia.
  - lia.
  - apply below_last; [congruence|lia].
  - intros Hcells Hwithin.
    unfold cells_ok, within in *. cbn [_begin] in *.
    apply Forall_last in Hcells. apply Forall_last in Hwithin.
    destruct Hcells as [Hci Hcc]. destruct Hwithin as [_ Hwc].
    unfold chunk_within in Hwc.
    specialize (Hdata Hcc ltac:(lia)).
    unfold chunk_cells in Hcc. rewrite storage_value in Hcc, Hlen.
    split.
    + apply Forall_last. split; [exact Hci|].
      unfold chunk_cells.
      rewrite (storage_same cur' cur Hcap), storage_value, Hoff, Hdata.
      rewrite <- Hw, splice_skipn by lia.
      replace (Z.to_nat (offset cur + len w))
        with (Z.to_nat (len w) + Z.to_nat (offset cur))%nat by lia.
      rewrite <- skipn_skipn, Hcc, skipn_repeat. f_equal. lia.
    + rewrite !contents_chain, !map_app, !concat_app. cbn [map concat].
      rewrite !app_nil_r, <- app_assoc. f_equal.
      unfold payload. rewrite Hoff, Hdata, <- Hw. apply splice_firstn; lia.
Qed.

(** An empty chunk of capacity [cap] is linked in. *)
Lemma advances_open_chunk (s : bytes_ostream) (cap : Z) :
  counted s -> 0 <= cap ->
  advances s
    (mk_stream
       (_begin s ++
        [mk_chunk cap 0 (repeat None (Z.to_nat (cap + sizeof_chunk - offsetof_data)))])
       (Some (length (_begin s))) (_size s)) [].
Proof.
  intros (Hl & Ho & Hz) Hcap.
  unfold advances, counted. cbn [_begin _current _size].
  rewrite filled_app. cbn [filled fold_right offset].
  split; [split; [|split]|split; [|split]].
  - unfold linked. cbn [_begin _current]. rewrite length_app. cbn [length]. lia.
  - apply Forall_last. split; [exact Ho|].
    split; unfold storage; cbn [offset data capacity]; [lia|].
    rewrite len_repeat. unfold sizeof_chunk, offsetof_data. lia.
  - lia.
  - unfold len. cbn [length]. lia.
  - apply below_app.
  - intros Hcells _. split.
    + apply Forall_last. split; [exact Hcells|].
      unfold chunk_cells, storage. cbn [offset data capacity Z.to_nat skipn].
      f_equal. lia.
    + unfold contents. cbn [_begin]. rewrite map_app, concat_app. cbn.
      reflexivity.
Qed.

Lemma new_chunk_capacity (size : Z) :
  0 <= size ->
  size <= capacity (new_chunk size) /\
  len (data (new_chunk size)) = storage (new_chunk size) /\
  offset (new_chunk size) = size /\
  data (new_chunk size) = repeat None (Z.to_nat (storage (new_chunk size))).
Proof.
  intros H. unfold new_chunk, storage. cbn [capacity data offset]. rewrite len_repeat.
  rewrite usable_chunk_size_value. unfold chunk_size, sizeof_chunk, offsetof_data.
  destruct (size <=? 496) eqn:E; [apply Z.leb_le in E|apply Z.leb_gt in E];
    repeat split; try lia; f_equal; lia.
Qed.

(** A new chunk takes the [size] cells [w]. *)
Lemma advances_new_chunk (s : bytes_ostream) (size : Z) (cur' : chunk) (w : list cell) :
  counted s -> 0 <= size -> filled (_begin s) + size < 2 ^ 32 ->
  len w = size ->
  capacity cur' = capacity (new_chunk size) ->
  offset cur' = size ->
  len (data cur') = storage (new_chunk size) ->
  data cur' = splice (data (new_chunk size)) 0 w ->
  advances s
    (mk_stream (_begin s ++ [cur']) (Some (length (_begin s)))
               (to_size_type (_size s + size))) w.
Proof.
  intros Hk H0 Hn Hw Hcap Hoff Hlen Hdata.
  destruct (new_chunk_capacity size H0) as (Hfit & Hnl & Hno & Hnd).
  set (cap := capacity (new_chunk size)) in *.
  pose proof (advances_open_chunk s cap Hk ltac:(lia)) as Hopen.
  set (E := mk_chunk cap 0 (repeat None (Z.to_nat (cap + sizeof_chunk - offsetof_data)))) in *.
  assert (advances
            (mk_stream (_begin s ++ [E]) (Some (length (_begin s))) (_size s))
            (mk_stream (_begin s ++ [cur']) (Some (length (_begin s)))
                       (to_size_type (_size s + size))) w) as Hfill.
  { apply advances_in_place; try assumption.
    - apply Hopen.
    - destruct Hk as (_ & Ho & _). pose proof (filled_nonneg _ Ho).
      rewrite filled_app. cbn. lia.
    - cbn [offset E]. rewrite wrap32_small; [exact Hoff|].
      destruct Hk as (_ & Ho & _). pose proof (filled_nonneg _ Ho). lia.
    - intros _ _. rewrite Hdata, Hnd. reflexivity. }
  exact (advances_trans _ _ _ [] w Hopen Hfill).
Qed.

(** What [alloc] returns, and what the stream has gained once the region
    is written with [w] (or is left as it is, [w] being unwritten cells). *)
Lemma alloc_spec (s s1 : bytes_ostream) (size : Z) (p : pointer) :
  counted s -> 0 <= size -> filled (_begin s) + size < 2 ^ 32 ->
  alloc s size = Ok (s1, p) ->
  exists init cur at_ z1,
    s1 = mk_stream (init ++ [cur]) (Some (length init)) z1 /\
    p = mk_pointer (length init) at_ /\
    0 <= at_ /\ offset cur = at_ + size /\
    len (data cur) = storage cur /\
    forall cur' w,
      len w = size ->
      capacity cur' = capacity cur -> offset cur' = offset cur ->
      len (data cur') = storage cur ->
      (skipn (Z.to_nat at_) (data cur) =
         repeat None (Z.to_nat (storage cur - at_)) ->
       at_ + size <= capacity cur ->
       data cur' = splice (data cur) at_ w) ->
      advances s (mk_stream (init ++ [cur']) (Some (length init)) z1) w.
Proof.
  intros Hk H0 Hn Halloc.
  assert (forall cur' w,
    len w = size ->
    capacity cur' = capacity (new_chunk size) -> offset cur' = offset (new_chunk size) ->
    len (data cur') = storage (new_chunk size) ->
    (skipn (Z.to_nat 0) (data (new_chunk size)) =
       repeat None (Z.to_nat (storage (new_chunk size) - 0)) ->
     0 + size <= capacity (new_chunk size) ->
     data cur' = splice (data (new_chunk size)) 0 w) ->
    advances s (mk_stream (_begin s ++ [cur']) (Some (length (_begin s)))
                          (to_size_type (_size s + size))) w) as Hnew.
  { intros cur' w Hw Hcap Hoff Hlen Hdata.
    destruct (new_chunk_capacity size H0) as (Hfit & Hnl & Hno & Hnd).
    apply advances_new_chunk; try assumption; try congruence.
    apply Hdata; [|lia]. rewrite Z.sub_0_r. exact Hnd. }
  destruct (new_chunk_capacity size H0) as (Hfit & Hnl & Hno & Hnd).
  pose proof Hk as (Hl & Ho & Hz).
  destruct (linked_facing s Hl) as [Hb Hc|init cur Hb Hc].
  - rewrite (alloc_none s size Hb Hc) in Halloc.
    destruct (size <=? 0); [discriminate|]. inversion Halloc; subst s1 p.
    exists (_begin s), (new_chunk size), 0, (to_size_type (_size s + size)).
    split; [reflexivity|]. split; [reflexivity|]. split; [lia|].
    split; [lia|]. split; [exact Hnl|exact Hnew].
  - rewrite (alloc_last s init cur size Hb Hc) in Halloc.
    destruct (size <=? to_size_type (usable_chunk_size - offset cur)).
    + inversion Halloc; subst s1 p. clear Halloc.
      rewrite Hb in Ho. apply Forall_last in Ho. destruct Ho as [Hoi [Hoc Hlen]].
      pose proof (filled_nonneg init Hoi) as Hfi.
      rewrite Hb, filled_app in Hn. cbn [filled fold_right] in Hn.
      eexists init, _, (offset cur), _. split; [reflexivity|].
      cbn [capacity offset data].
      split; [reflexivity|]. split; [exact Hoc|].
      split; [rewrite wrap32_small; lia|]. split; [exact Hlen|].
      intros cur' w Hw Hcap Hoff Hlen' Hdata.
      rewrite wrap32_small in Hoff by lia.
      assert (s = mk_stream (init ++ [cur]) (Some (length init)) (_size s)) as Hs.
      { destruct s as [b c z]. cbn in Hb, Hc. now subst. }
      rewrite Hs at 1. rewrite Hs in Hk.
      apply advances_in_place; auto.
      * rewrite filled_app. cbn [filled fold_right]. lia.
      * rewrite wrap32_small; lia.
    + inversion Halloc; subst s1 p.
      exists (_begin s), (new_chunk size), 0, (to_size_type (_size s + size)).
      split; [reflexivity|]. split; [reflexivity|]. split; [lia|].
      split; [lia|]. split; [exact Hnl|exact Hnew].
Qed.

(* ================================================================== *)
(** * What each operation adds *)
(* ================================================================== *)

Lemma len_hton (n : nat) (val : Z) : len (hton n val) = Z.of_nat n.
Proof. unfold hton. rewrite len_map. unfold len. now rewrite length_rev, length_seq. Qed.

Lemma len_firstn {A : Type} (n : Z) (l : list A) :
  0 <= n <= len l -> len (firstn (Z.to_nat n) l) = n.
Proof. unfold len. intros H. rewrite length_firstn. lia. Qed.

Lemma len_skipn {A : Type} (n : Z) (l : list A) :
  0 <= n <= len l -> len (skipn (Z.to_nat n) l) = len l - n.
Proof. unfold len. intros H. rewrite length_skipn. lia. Qed.

(** [alloc] followed by a copy of [w] to the region it returns. *)
Lemma fill_advances (s s1 s' : bytes_ostream) (size : Z) (p : pointer) (w : list cell) :
  counted s -> 0 <= size -> filled (_begin s) + size < 2 ^ 32 ->
  len w = size ->
  alloc s size = Ok (s1, p) ->
  memcpy s1 p w = Ok s' ->
  advances s s' w.
Proof.
  intros Hk H0 Hn Hw Halloc Hcopy.
  destruct (alloc_spec s s1 size p Hk H0 Hn Halloc)
    as (init & cur & at_ & z1 & -> & -> & Hat & Hoff & Hlen & Hadv).
  rewrite memcpy_last in Hcopy.
  destruct ((0 <=? at_) && (at_ + len w <=? storage cur)) eqn:Ec; [|discriminate].
  apply andb_prop in Ec. destruct Ec as [_ Ec]. apply Z.leb_le in Ec.
  inversion Hcopy; subst s'. apply Hadv; cbn [capacity offset data]; auto.
  rewrite splice_length by lia. exact Hlen.
Qed.

(** [alloc] alone: the region is accounted for and left as it is. *)
Lemma alloc_advances (s s1 : bytes_ostream) (size : Z) (p : pointer) :
  counted s -> 0 <= size -> filled (_begin s) + size < 2 ^ 32 ->
  alloc s size = Ok (s1, p) ->
  advances s s1 (repeat None (Z.to_nat size)).
Proof.
  intros Hk H0 Hn Halloc.
  destruct (alloc_spec s s1 size p Hk H0 Hn Halloc)
    as (init & cur & at_ & z1 & -> & -> & Hat & Hoff & Hlen & Hadv).
  apply Hadv; auto.
  - rewrite len_repeat. lia.
  - intros Hnone Hfit. symmetry.
    pose proof (storage_value cur).
    apply (splice_unwritten (data cur) at_ (storage cur)); auto. lia.
Qed.

(** A copy to the end of the current chunk, then [offset] and [_size]
    moved on. *)
Lemma store_advances (init : list chunk) (cur : chunk) (z : Z) (w : list cell)
    (s1 s2 : bytes_ostream) :
  counted (mk_stream (init ++ [cur]) (Some (length init)) z) ->
  filled (init ++ [cur]) + len w < 2 ^ 32 ->
  memcpy (mk_stream (init ++ [cur]) (Some (length init)) z)
         (mk_pointer (length init) (offset cur)) w = Ok s1 ->
  advance s1 (length init) (len w) = Ok s2 ->
  advances (mk_stream (init ++ [cur]) (Some (length init)) z) s2 w.
Proof.
  intros Hk Hn Hcopy Hadv.
  rewrite memcpy_last in Hcopy.
  destruct ((0 <=? offset cur) && (offset cur + len w <=? storage cur)) eqn:Ec;
    [|discriminate].
  apply andb_prop in Ec. destruct Ec as [Ec0 Ec]. apply Z.leb_le in Ec, Ec0.
  inversion Hcopy; subst s1. rewrite advance_last in Hadv.
  inversion Hadv; subst s2. cbn [capacity offset data].
  pose proof Hk as (_ & Ho & _). cbn [_begin] in Ho.
  apply Forall_last in Ho. destruct Ho as [_ [_ Hlen]].
  apply advances_in_place; cbn [capacity offset data]; auto.
  rewrite splice_length by lia. exact Hlen.
Qed.

Lemma write_advances (s s' : bytes_ostream) (n : nat) (val : Z) :
  counted s -> filled (_begin s) + Z.of_nat n < 2 ^ 32 ->
  write s n val = Ok s' ->
  advances s s' (map Some (hton n val)).
Proof.
  intros Hk Hn H. unfold write in H.
  destruct (alloc s (Z.of_nat n)) as [[s1 p]|f] eqn:Ea; [|discriminate].
  cbn [bind] in H.
  apply (fill_advances s s1 s' (Z.of_nat n) p); auto; try lia.
  now rewrite len_map, len_hton.
Qed.

Lemma write_place_holder_advances (s s' : bytes_ostream) (n : nat) (p : pointer) :
  counted s -> filled (_begin s) + Z.of_nat n < 2 ^ 32 ->
  write_place_holder s n = Ok (s', p) ->
  advances s s' (repeat None n).
Proof.
  intros Hk Hn H. unfold write_place_holder in H.
  pose proof (alloc_advances s s' (Z.of_nat n) p Hk ltac:(lia) Hn H) as Ha.
  now rewrite Nat2Z.id in Ha.
Qed.

Lemma write_bytes_advances (s s' : bytes_ostream) (v : list byte) :
  counted s -> filled (_begin s) + len v < 2 ^ 32 ->
  write_bytes s v = Ok s' ->
  advances s s' (map Some v).
Proof.
  intros Hk Hn H. pose proof (len_nonneg v) as Hv0.
  pose proof Hk as (Hl & Ho & Hz). pose proof (filled_nonneg _ Ho) as Hf0.
  destruct v as [|b v0]; [inversion H; subst; now apply advances_refl|].
  set (v := b :: v0) in *. assert (1 <= len v) as Hv1.
  { unfold v. rewrite len_cons. pose proof (len_nonneg v0). lia. }
  unfold write_bytes in H. fold v in H.
  destruct (linked_facing s Hl) as [Hb Hc|init cur Hb Hc].
  - rewrite (current_space_left_none s Hc) in H. cbn [bind] in H.
    destruct (len v <=? 0) eqn:E; [apply Z.leb_le in E; lia|].
    cbn [Z.eqb bind] in H. rewrite wrap32_small in H by lia.
    destruct (alloc s (len v)) as [[s2 p]|f] eqn:Ea; [|discriminate].
    cbn [bind] in H.
    apply (fill_advances s s2 s' (len v) p); auto. apply len_map.
  - assert (s = mk_stream (init ++ [cur]) (Some (length init)) (_size s)) as Hs.
    { destruct s as [bg c z]. cbn in Hb, Hc. now subst. }
    rewrite (current_space_left_last s init cur Hb Hc) in H. cbn [bind] in H.
    rewrite Hc in H. unfold deref in H. rewrite Hb, nth_error_last in H.
    cbn [bind] in H.
    pose proof (wrap32_range (usable_chunk_size - offset cur)) as Hsp.
    set (space := to_size_type (usable_chunk_size - offset cur)) in *.
    pose proof Hn as Hn'. rewrite Hb in Hn'. rewrite Hb in Hf0.
    destruct (len v <=? space) eqn:E.
    + (* the bytes go to the current chunk *)
      rewrite Hs in H.
      destruct (memcpy _ _ _) as [s1|f] eqn:Em in H; [|discriminate].
      cbn [bind] in H.
      rewrite Hs. rewrite Hs in Hk.
      rewrite <- (len_map Some v) in H.
      apply (store_advances init cur (_size s) (map Some v) s1 s'); auto.
      now rewrite len_map.
    + apply Z.leb_gt in E.
      destruct (space =? 0) eqn:E0.
      * (* no room left: everything goes to a new chunk *)
        cbn [bind] in H. rewrite wrap32_small in H by lia.
        destruct (alloc s (len v)) as [[s2 p]|f] eqn:Ea; [|discriminate].
        cbn [bind] in H.
        apply (fill_advances s s2 s' (len v) p); auto; try lia.
        apply len_map.
      * (* the current chunk is filled up, the rest goes to a new chunk *)
        apply Z.eqb_neq in E0.
        rewrite Hs in H.
        destruct (memcpy _ _ _) as [s1|f] eqn:Em in H; [|discriminate].
        cbn [bind] in H.
        destruct (advance s1 (length init) space) as [s2|f] eqn:Ead; [|discriminate].
        cbn [bind] in H.
        assert (len (map Some (firstn (Z.to_nat space) v)) = space) as Hl1.
        { rewrite (len_map (@Some byte)). apply len_firstn. lia. }
        assert (len (skipn (Z.to_nat space) v) = len v - space) as Hl2
            by (apply len_skipn; lia).
        rewrite Hl2 in H. rewrite wrap32_small in H by lia.
        destruct (alloc s2 (len v - space)) as [[s3 p]|f] eqn:Ea; [|discriminate].
        cbn [bind] in H.
        rewrite Hs in Hk.
        assert (advances (mk_stream (init ++ [cur]) (Some (length init)) (_size s))
                         s2 (map Some (firstn (Z.to_nat space) v))) as Hfirst.
        { rewrite <- Hl1 in Ead.
          apply (store_advances init cur (_size s) _ s1 s2); auto.
          rewrite Hl1. lia. }
        assert (advances s2 s' (map Some (skipn (Z.to_nat space) v))) as Hrest.
        { destruct Hfirst as (Hk2 & Hf2 & _).
          apply (fill_advances s2 s3 s' (len v - space) p); auto; try lia.
          - rewrite Hf2, Hl1. cbn [_begin]. lia.
          - rewrite (len_map (@Some byte)). exact Hl2. }
        rewrite Hs.
        rewrite <- (firstn_skipn (Z.to_nat space) v), map_app.
        exact (advances_trans _ _ _ _ _ Hfirst Hrest).
Qed.

Lemma write_blob_advances (s s' : bytes_ostream) (v : list byte) :
  counted s -> filled (_begin s) + (4 + len v) < 2 ^ 32 ->
  write_blob s v = Ok s' ->
  advances s s' (map Some (hton 4 (len v) ++ v)).
Proof.
  intros Hk Hn H. pose proof (len_nonneg v) as Hv0. unfold write_blob in H.
  destruct (to_size_type (len v) =? len v); [|discriminate].
  destruct (write s 4 (len v)) as [s1|f] eqn:Ew; [|discriminate].
  cbn [bind] in H.
  pose proof (write_advances s s1 4 (len v) Hk ltac:(lia) Ew) as H1.
  assert (advances s1 s' (map Some v)) as H2.
  { destruct H1 as (Hk1 & Hf1 & _).
    apply write_bytes_advances; auto.
    rewrite Hf1, (len_map (@Some byte)), len_hton. lia. }
  rewrite map_app. exact (advances_trans _ _ _ _ _ H1 H2).
Qed.

Lemma len_payload (r : chunk) : readable r -> len (payload r) = offset r.
Proof. intros [Ho Hl]. unfold payload. apply len_firstn. lia. Qed.

Lemma len_chain_payload (l : list chunk) :
  Forall readable l -> len (concat (map payload l)) = filled l.
Proof.
  induction 1 as [|r l Hr _ IH]; [reflexivity|].
  cbn [map concat filled fold_right]. fold (filled l).
  rewrite len_app, IH, len_payload by exact Hr. reflexivity.
Qed.

Lemma chunk_eta (ch : chunk) :
  mk_chunk (capacity ch) (offset ch) (data ch) = ch.
Proof. now destruct ch. Qed.

(** The loop of [append] and of [linearize] into the last chunk of the
    stream written to. *)
Lemma copy_chain_last (src : list chunk) :
  forall (init : list chunk) (cur : chunk) (c : option nat) (z at_ : Z),
  Forall readable src ->
  0 <= at_ -> len (data cur) = storage cur ->
  (src = [] -> at_ <= storage cur) ->
  copy_chain src (mk_stream (init ++ [cur]) c z) (mk_pointer (length init) at_) =
    if at_ + len (concat (map payload src)) <=? storage cur then
      Ok (mk_stream
            (init ++ [mk_chunk (capacity cur) (offset cur)
                        (splice (data cur) at_ (concat (map payload src)))])
            c z)
    else Fault Overrun.
Proof.
  induction src as [|r src IH]; intros init cur c z at_ Hsrc Hat Hlen Hnil.
  - cbn [copy_chain map concat]. rewrite len_nil, Z.add_0_r, splice_nil, chunk_eta.
    destruct (at_ <=? storage cur) eqn:E; [reflexivity|].
    apply Z.leb_gt in E. specialize (Hnil eq_refl). lia.
  - inversion Hsrc as [|r' src' Hr Hsrc']; subst.
    pose proof (len_payload r Hr) as Hlp. destruct Hr as [Ho Hl].
    pose proof (len_nonneg (concat (map payload src))) as Hrest0.
    cbn [copy_chain map concat]. unfold read.
    destruct ((0 <=? offset r) && (offset r <=? storage r)) eqn:Er.
    2:{ apply andb_false_iff in Er. destruct Er as [Er|Er];
          [apply Z.leb_gt in Er|apply Z.leb_gt in Er]; lia. }
    cbn [bind]. fold (payload r). rewrite memcpy_last, len_app, Hlp.
    cbn [in_chunk at_byte].
    destruct ((0 <=? at_) && (at_ + offset r <=? storage cur)) eqn:Ec.
    + apply andb_prop in Ec. destruct Ec as [_ Ec]. apply Z.leb_le in Ec.
      cbn [bind]. rewrite IH; auto; try lia.
      * unfold storage. cbn [capacity offset data]. fold (storage cur).
        rewrite <- Hlp at 2.
        rewrite splice_splice by (rewrite ?Hlp; lia).
        rewrite Z.add_assoc. reflexivity.
      * unfold storage. cbn [data capacity]. fold (storage cur).
        rewrite splice_length; [exact Hlen| lia |]. lia.
    + cbn [bind]. apply andb_false_iff in Ec.
      destruct Ec as [Ec|Ec]; apply Z.leb_gt in Ec; [lia|].
      destruct (at_ + (offset r + len (concat (map payload src))) <=? storage cur) eqn:E;
        [apply Z.leb_le in E; lia|reflexivity].
Qed.

Lemma counted_readable (s : bytes_ostream) :
  counted s -> within s -> Forall readable (_begin s).
Proof.
  intros (_ & Ho & _) Hw. unfold within in Hw.
  induction Ho as [|c l [Hc Hl] _ IH]; [constructor|].
  inversion Hw; subst. constructor; [|auto].
  pose proof (storage_value c). unfold readable, chunk_within in *. lia.
Qed.

Lemma contents_of_nothing (l : list chunk) :
  Forall readable l -> filled l = 0 -> concat (map payload l) = [].
Proof.
  intros Hr Hf. pose proof (len_chain_payload l Hr) as H.
  rewrite Hf in H. destruct (concat (map payload l)); [reflexivity|].
  rewrite len_cons in H. pose proof (len_nonneg l0). lia.
Qed.

Lemma append_advances (s o s' : bytes_ostream) :
  counted s -> counted o -> within o ->
  filled (_begin s) + size o < 2 ^ 32 ->
  append s o = Ok s' ->
  advances s s' (contents o).
Proof.
  intros Hk Hko Hwo Hn H. unfold append in H.
  pose proof (counted_readable o Hko Hwo) as Hr.
  pose proof (len_chain_payload _ Hr) as Hlen.
  pose proof Hko as (_ & Hoo & Hzo). pose proof (filled_nonneg _ Hoo) as Hf0.
  unfold size in *.
  destruct (0 <? _size o) eqn:E.
  - apply Z.ltb_lt in E.
    destruct (alloc s (_size o)) as [[s1 dst]|f] eqn:Ea; [|discriminate].
    cbn [bind] in H.
    destruct (alloc_spec s s1 (_size o) dst Hk ltac:(lia) Hn Ea)
      as (init & cur & at_ & z1 & -> & -> & Hat & Hoff & Hlc & Hadv).
    rewrite copy_chain_last in H; auto.
    2:{ intros Hnil. rewrite Hnil in Hzo. cbn in Hzo. lia. }
    destruct (at_ + len (concat (map payload (_begin o))) <=? storage cur) eqn:Ec;
      [|discriminate].
    apply Z.leb_le in Ec. inversion H; subst s'.
    apply Hadv; cbn [capacity offset data]; auto.
    + unfold contents. lia.
    + rewrite splice_length; [exact Hlc|lia|lia].
  - apply Z.ltb_ge in E. inversion H; subst s'.
    unfold contents. rewrite contents_of_nothing by (auto; lia).
    now apply advances_refl.
Qed.

Lemma byte_length_nonneg (o : op) : op_ok o -> 0 <= byte_length o.
Proof.
  destruct o; cbn [byte_length op_ok]; intros H; try lia.
  - apply len_nonneg.
  - pose proof (len_nonneg v). lia.
  - destruct H as [(_ & Ho & Hz) _]. unfold size. rewrite Hz.
    now apply filled_nonneg.
Qed.

Lemma step_advances (s s' : bytes_ostream) (o : op) :
  op_ok o -> counted s ->
  filled (_begin s) + byte_length o < 2 ^ 32 ->
  step s o = Ok s' ->
  advances s s' (written o).
Proof.
  intros Hok Hk Hn H. destruct o as [n val|v|v|n|o]; cbn [step written byte_length] in *.
  - now apply write_advances.
  - now apply write_bytes_advances.
  - now apply write_blob_advances.
  - destruct (write_place_holder s n) as [[s1 p]|f] eqn:E; [|discriminate].
    cbn [bind] in H. inversion H; subst s'.
    now apply (write_place_holder_advances s s1 n p).
  - destruct Hok. now apply append_advances.
Qed.

Lemma total_length_nonneg (ops : list op) :
  Forall op_ok ops -> 0 <= total_length ops.
Proof.
  induction 1 as [|o ops Ho _ IH]; cbn; [lia|].
  fold (total_length ops). pose proof (byte_length_nonneg o Ho). lia.
Qed.

Lemma run_advances (ops : list op) : forall (s s' : bytes_ostream),
  Forall op_ok ops -> counted s ->
  filled (_begin s) + total_length ops < 2 ^ 32 ->
  run s ops = Ok s' ->
  advances s s' (concat (map written ops)).
Proof.
  induction ops as [|o ops IH]; intros s s' Hok Hk Hn H.
  - inversion H; subst. now apply advances_refl.
  - inversion Hok as [|o' ops' Ho Hops]; subst.
    cbn [run] in H. cbn [total_length fold_right] in Hn. fold (total_length ops) in Hn.
    pose proof (byte_length_nonneg o Ho) as Hb0.
    pose proof (total_length_nonneg ops Hops) as Ht0.
    destruct (step s o) as [s1|f] eqn:Es; [|discriminate]. cbn [bind] in H.
    pose proof (step_advances s s1 o Ho Hk ltac:(lia) Es) as H1.
    assert (advances s1 s' (concat (map written ops))) as H2.
    { destruct H1 as (Hk1 & Hf1 & _). apply IH; auto.
      rewrite Hf1. pose proof (len_nonneg (written o)).
      assert (len (written o) <= byte_length o); [|lia].
      clear - Ho. destruct o; cbn [written byte_length].
      - rewrite len_map, len_hton. lia.
      - rewrite len_map. lia.
      - rewrite len_map, len_app, len_hton. lia.
      - rewrite len_repeat. lia.
      - destruct Ho as [Hko Hwo]. unfold contents, size.
        rewrite (len_chain_payload _ (counted_readable _ Hko Hwo)).
        destruct Hko as (_ & _ & ->). lia. }
    cbn [map concat]. exact (advances_trans _ _ _ _ _ H1 H2).
Qed.

(* ================================================================== *)
(** * linearize and view *)
(* ================================================================== *)

Lemma splice_whole (n m : nat) (w : list cell) :
  length w = n -> splice (repeat None (n + m)) 0 w = w ++ repeat None m.
Proof.
  intros H. unfold splice. cbn [Z.to_nat firstn app Nat.add].
  rewrite skipn_repeat, H. do 2 f_equal. lia.
Qed.

Lemma len_spare : len spare = 4.
Proof. reflexivity. Qed.

Lemma linearize_contents (s : bytes_ostream) :
  counted s -> within s -> filled (_begin s) < 2 ^ 32 ->
  exists s',
    linearize s = Ok (s', contents s) /\
    view s' = Ok (contents s) /\
    size s' = size s /\
    (is_linearized s = true -> s' = s) /\
    (is_linearized s = false ->
       _begin s' = [mk_chunk (size s) (size s) (contents s ++ spare)] /\
       _current s' = Some 0%nat).
Proof.
  intros Hk Hw Hn. pose proof Hk as (Hl & Ho & Hz).
  pose proof (counted_readable s Hk Hw) as Hr.
  pose proof (len_chain_payload _ Hr) as Hlen.
  pose proof (filled_nonneg _ Ho) as Hf0.
  unfold linearize. destruct (is_linearized s) eqn:El.
  - (* at most one chunk: the view of the stream as it is *)
    assert (view s = Ok (contents s)) as Hv.
    { unfold view. rewrite El.
      destruct (linked_facing s Hl) as [Hb Hc|init cur Hb Hc].
      - rewrite Hc. unfold contents. rewrite Hb. reflexivity.
      - assert (init = []) as ->.
        { unfold is_linearized in El. rewrite Hb in El.
          destruct init as [|a [|b init]]; [reflexivity|discriminate|discriminate]. }
        rewrite Hc. unfold deref. rewrite Hb. cbn [app length nth_error bind].
        rewrite Hb in Hr, Hz. apply Forall_inv in Hr. destruct Hr as [Hoc Hlc].
        cbn [app filled fold_right] in Hz. rewrite Z.add_0_r in Hz.
        unfold read. rewrite Hz.
        destruct ((0 <=? offset cur) && (offset cur <=? storage cur)) eqn:E.
        + unfold contents. rewrite Hb. cbn [app map concat]. now rewrite app_nil_r.
        + apply andb_false_iff in E. destruct E as [E|E]; apply Z.leb_gt in E; lia. }
    exists s. rewrite Hv. cbn [bind].
    repeat split; auto; discriminate.
  - (* several chunks: one new chunk of [_size] bytes takes them all *)
    set (z := _size s) in *.
    set (N := mk_chunk (z + sizeof_chunk - sizeof_chunk) z
                (repeat None (Z.to_nat (z + sizeof_chunk - offsetof_data)))).
    change (mk_stream [N] (Some 0%nat) z)
      with (mk_stream ([] ++ [N]) (Some 0%nat) z).
    change (mk_pointer 0 0) with (mk_pointer (length (@nil chunk)) 0).
    assert (z + sizeof_chunk - sizeof_chunk = z) as Hcap by lia.
    assert (storage N = z + 4) as HsN.
    { rewrite storage_value. unfold N. cbn [capacity]. lia. }
    rewrite copy_chain_last; auto; try lia.
    2:{ rewrite HsN. unfold N. cbn [data]. rewrite len_repeat.
        unfold sizeof_chunk, offsetof_data. lia. }
    fold (contents s). unfold contents in Hlen |- *. fold (contents s) in Hlen |- *.
    assert (Z.of_nat (length (contents s)) = z) as Hlz by (fold (len (contents s)); lia).
    destruct (0 + len (contents s) <=? storage N) eqn:E.
    2:{ apply Z.leb_gt in E. lia. }
    cbn [bind app]. unfold deref. cbn [_begin nth_error bind _size].
    assert (splice (data N) 0 (contents s) = contents s ++ spare) as Hsp.
    { unfold N. cbn [data].
      replace (Z.to_nat (z + sizeof_chunk - offsetof_data))
        with (length (contents s) + Z.to_nat (sizeof_chunk - offsetof_data))%nat
        by (unfold sizeof_chunk, offsetof_data; lia).
      now apply splice_whole. }
    rewrite Hsp. unfold N. cbn [capacity offset]. rewrite Hcap.
    unfold read. rewrite storage_value. cbn [capacity data].
    destruct ((0 <=? z) && (z <=? z + 4)) eqn:E2.
    2:{ apply andb_false_iff in E2. destruct E2 as [E2|E2]; apply Z.leb_gt in E2; lia. }
    assert (firstn (Z.to_nat z) (contents s ++ spare) = contents s) as Hall.
    { rewrite firstn_app, firstn_all2 by lia.
      replace (Z.to_nat z - length (contents s))%nat with 0%nat by lia.
      cbn [firstn]. apply app_nil_r. }
    rewrite Hall. cbn [bind].
    eexists. split; [reflexivity|].
    unfold view, is_linearized, deref, read, size.
    cbn [_begin _current _size nth_error bind].
    rewrite storage_value. cbn [capacity data].
    rewrite E2, Hall. repeat split; auto; discriminate.
Qed.

(* ================================================================== *)
(** * size *)
(* ================================================================== *)

Lemma alloc_size (s s1 : bytes_ostream) (n : Z) (p : pointer) :
  alloc s n = Ok (s1, p) -> _size s1 = to_size_type (_size s + n).
Proof.
  unfold alloc. destruct (current_space_left s) as [space|f]; [|discriminate].
  cbn [bind]. destruct (n <=? space).
  - destruct (_current s) as [i|]; [|discriminate].
    destruct (deref s i); [|discriminate]. cbn [bind].
    intros H. inversion H. reflexivity.
  - destruct (_current s) as [i|].
    + destruct (deref s i); [|discriminate]. cbn [bind].
      intros H. inversion H. reflexivity.
    + intros H. inversion H. reflexivity.
Qed.

Lemma memcpy_size (s s1 : bytes_ostream) (p : pointer) (w : list cell) :
  memcpy s p w = Ok s1 -> _size s1 = _size s.
Proof.
  unfold memcpy. destruct (deref s (in_chunk p)); [|discriminate]. cbn [bind].
  destruct (_ && _); [|discriminate]. intros H. inversion H. reflexivity.
Qed.

Lemma advance_size (s s1 : bytes_ostream) (i : nat) (n : Z) :
  advance s i n = Ok s1 -> _size s1 = to_size_type (_size s + n).
Proof.
  unfold advance. destruct (deref s i); [|discriminate]. cbn [bind].
  intros H. inversion H. reflexivity.
Qed.

Lemma copy_chain_size (src : list chunk) : forall (s s1 : bytes_ostream) (p : pointer),
  copy_chain src s p = Ok s1 -> _size s1 = _size s.
Proof.
  induction src as [|r src IH]; intros s s1 p H; cbn [copy_chain] in H.
  - inversion H. reflexivity.
  - destruct (read r (offset r)) as [cells|f]; [|discriminate]. cbn [bind] in H.
    destruct (memcpy s p cells) as [s2|f] eqn:Em; [|discriminate]. cbn [bind] in H.
    rewrite (IH _ _ _ H). now apply memcpy_size in Em.
Qed.

Lemma write_size (s s1 : bytes_ostream) (n : nat) (val : Z) :
  write s n val = Ok s1 -> _size s1 = to_size_type (_size s + Z.of_nat n).
Proof.
  unfold write. destruct (alloc s (Z.of_nat n)) as [[s2 p]|f] eqn:Ea; [|discriminate].
  cbn [bind]. intros H. apply memcpy_size in H. apply alloc_size in Ea. congruence.
Qed.

Lemma current_space_left_range (s : bytes_ostream) (space : Z) :
  current_space_left s = Ok space -> 0 <= space < 2 ^ 32.
Proof.
  unfold current_space_left. destruct (_current s) as [i|].
  - destruct (deref s i); [|discriminate]. cbn [bind]. intros H. inversion H.
    apply wrap32_range.
  - intros H. inversion H. lia.
Qed.

Lemma write_bytes_size (s s1 : bytes_ostream) (v : list byte) :
  0 <= _size s < 2 ^ 32 ->
  write_bytes s v = Ok s1 -> _size s1 = to_size_type (_size s + len v).
Proof.
  intros Hr H. destruct v as [|b v0].
  { inversion H; subst. rewrite len_nil, Z.add_0_r. symmetry. now apply wrap32_small. }
  set (v := b :: v0) in *. unfold write_bytes in H. fold v in H.
  destruct (current_space_left s) as [space|f] eqn:Esp; [|discriminate].
  pose proof (current_space_left_range s space Esp) as Hsp.
  cbn [bind] in H. destruct (len v <=? space) eqn:E.
  - destruct (_current s) as [i|]; [|discriminate].
    destruct (deref s i) as [ch|f]; [|discriminate]. cbn [bind] in H.
    destruct (memcpy _ _ _) as [s2|f] eqn:Em in H; [|discriminate]. cbn [bind] in H.
    apply advance_size in H. apply memcpy_size in Em. congruence.
  - apply Z.leb_gt in E. destruct (space =? 0) eqn:E0.
    + cbn [bind] in H.
      destruct (alloc s (to_size_type (len v))) as [[s2 p]|f] eqn:Ea; [|discriminate].
      cbn [bind] in H. apply memcpy_size in H. apply alloc_size in Ea.
      rewrite H, Ea. apply wrap32_add_r.
    + destruct (_current s) as [i|]; [|discriminate].
      destruct (deref s i) as [ch|f]; [|discriminate]. cbn [bind] in H.
      destruct (memcpy _ _ _) as [s2|f] eqn:Em in H; [|discriminate]. cbn [bind] in H.
      destruct (advance s2 i space) as [s3|f] eqn:Ead; [|discriminate]. cbn [bind] in H.
      destruct (alloc s3 _) as [[s4 p]|f] eqn:Ea in H; [|discriminate].
      cbn [bind] in H. apply memcpy_size in H. apply alloc_size in Ea.
      apply advance_size in Ead. apply memcpy_size in Em.
      rewrite H, Ea, Ead, Em, (len_skipn space v) by lia.
      rewrite wrap32_add_r, wrap32_add_l. f_equal. lia.
Qed.

Lemma step_size (s s1 : bytes_ostream) (o : op) :
  op_typed o -> 0 <= _size s < 2 ^ 32 ->
  step s o = Ok s1 ->
  _size s1 = to_size_type (_size s + byte_length o).
Proof.
  intros Ht Hr H. destruct o as [n val|v|v|n|o]; cbn [step byte_length] in *.
  - now apply write_size in H.
  - now apply write_bytes_size.
  - unfold write_blob in H. destruct (_ =? _); [|discriminate].
    destruct (write s 4 (len v)) as [s2|f] eqn:Ew; [|discriminate]. cbn [bind] in H.
    apply write_size in Ew. apply write_bytes_size in H.
    + rewrite H, Ew, wrap32_add_l. f_equal. lia.
    + rewrite Ew. apply wrap32_range.
  - unfold write_place_holder in H.
    destruct (alloc s (Z.of_nat n)) as [[s2 p]|f] eqn:Ea; [|discriminate].
    cbn [bind] in H. inversion H; subst. now apply alloc_size in Ea.
  - unfold append in H. cbn [op_typed] in Ht. destruct (0 <? size o) eqn:E.
    + destruct (alloc s (size o)) as [[s2 p]|f] eqn:Ea; [|discriminate].
      cbn [bind] in H. apply copy_chain_size in H. apply alloc_size in Ea. congruence.
    + apply Z.ltb_ge in E. inversion H; subst.
      replace (size o) with 0 by lia. rewrite Z.add_0_r. symmetry.
      now apply wrap32_small.
Qed.

Lemma run_size (ops : list op) : forall (s s1 : bytes_ostream),
  Forall op_typed ops -> 0 <= _size s < 2 ^ 32 ->
  run s ops = Ok s1 ->
  _size s1 = to_size_type (_size s + total_length ops).
Proof.
  induction ops as [|o ops IH]; intros s s1 Ht Hr H.
  - inversion H; subst. cbn. rewrite Z.add_0_r. symmetry. now apply wrap32_small.
  - inversion Ht as [|o' ops' Ho Hops]; subst. cbn [run] in H.
    destruct (step s o) as [s2|f] eqn:Es; [|discriminate]. cbn [bind] in H.
    pose proof (step_size s s2 o Ho Hr Es) as H2.
    rewrite (IH s2 s1 Hops) by (rewrite ?H2; auto using wrap32_range).
    rewrite H2, wrap32_add_l. cbn [total_length fold_right]. f_equal.
    fold (total_length ops). lia.
Qed.

(* ================================================================== *)
(** * Streams of fixed-width writes *)
(* ================================================================== *)

Lemma standard_fresh : standard fresh.
Proof. split; [reflexivity|constructor]. Qed.

Lemma standard_readable (s : bytes_ostream) :
  standard s -> Forall readable (_begin s).
Proof.
  intros [_ H]. induction H as [|c l (Hc & Ho & Hl) _ IH]; constructor; auto.
  pose proof (storage_value c).
  unfold readable. rewrite usable_chunk_size_value in *. lia.
Qed.

Lemma standard_within (s : bytes_ostream) : standard s -> within s.
Proof.
  intros [_ H]. unfold within.
  induction H as [|c l (Hc & Ho & Hl) _ IH]; constructor; auto.
  unfold chunk_within. lia.
Qed.

Lemma standard_counted (s : bytes_ostream) :
  standard s -> _size s = filled (_begin s) -> counted s.
Proof.
  intros [Hl H] Hz. split; [exact Hl|]. split; [|exact Hz].
  clear Hz. induction H as [|c l (Hc & Ho & Hd) _ IH]; constructor; auto.
  unfold chunk_counted. split; [lia|exact Hd].
Qed.

Lemma standard_chain_bound (l : list chunk) :
  Forall chunk_standard l -> filled l <= usable_chunk_size * len l.
Proof.
  induction 1 as [|c l (Hc & Ho & Hd) _ IH]; [cbn; lia|].
  cbn [filled fold_right]. fold (filled l). rewrite len_cons. lia.
Qed.

(** A write of at most a chunk's worth to a new chunk. *)
Lemma write_new_chunk (s : bytes_ostream) (n : Z) (w : list cell) :
  standard s -> 1 <= n <= usable_chunk_size -> len w = n ->
  exists s',
    memcpy (mk_stream (_begin s ++ [new_chunk n]) (Some (length (_begin s)))
                      (to_size_type (_size s + n)))
           (mk_pointer (length (_begin s)) 0) w = Ok s' /\
    standard s' /\ filled (_begin s') = filled (_begin s) + n.
Proof.
  intros [Hl Hs] Hn Hw. rewrite memcpy_last.
  destruct (new_chunk_capacity n ltac:(lia)) as (Hfit & Hnl & Hno & Hnd).
  assert (capacity (new_chunk n) = usable_chunk_size) as Hcap.
  { unfold new_chunk. cbn [capacity].
    destruct (n <=? usable_chunk_size) eqn:E; [reflexivity|apply Z.leb_gt in E; lia]. }
  pose proof (storage_value (new_chunk n)) as Hst.
  destruct ((0 <=? 0) && (0 + len w <=? storage (new_chunk n))) eqn:E.
  2:{ apply andb_false_iff in E. destruct E as [E|E]; apply Z.leb_gt in E; lia. }
  eexists. split; [reflexivity|]. split; [split|].
  - unfold linked. cbn [_begin _current]. rewrite length_app. cbn [length]. lia.
  - cbn [_begin]. apply Forall_last. split; [exact Hs|].
    unfold chunk_standard, storage. cbn [capacity offset data].
    fold (storage (new_chunk n)).
    rewrite splice_length, Hno by lia. repeat split; auto; lia.
  - cbn [_begin]. rewrite filled_app. cbn [filled fold_right offset]. lia.
Qed.

(** A fixed-width write to a stream of standard chunks goes through and
    leaves a stream of standard chunks. *)
Lemma write_standard (s : bytes_ostream) (n : nat) (val : Z) :
  standard s -> 1 <= Z.of_nat n <= usable_chunk_size ->
  exists s',
    write s n val = Ok s' /\ standard s' /\
    filled (_begin s') = filled (_begin s) + Z.of_nat n.
Proof.
  intros Hst Hn. pose proof Hst as [Hl Hs]. unfold write.
  assert (len (map Some (hton n val)) = Z.of_nat n) as Hw
      by now rewrite len_map, len_hton.
  destruct (linked_facing s Hl) as [Hb Hc|init cur Hb Hc].
  - rewrite (alloc_none s _ Hb Hc).
    destruct (Z.of_nat n <=? 0) eqn:E; [apply Z.leb_le in E; lia|].
    cbn [bind]. now apply write_new_chunk.
  - rewrite (alloc_last s init cur _ Hb Hc).
    pose proof Hs as Hs'. rewrite Hb in Hs'. apply Forall_last in Hs'.
    destruct Hs' as [Hsi (Hcc & Hco & Hcl)].
    rewrite usable_chunk_size_value in *.
    rewrite (wrap32_small (496 - offset cur)) by lia.
    destruct (Z.of_nat n <=? 496 - offset cur) eqn:E.
    + apply Z.leb_le in E. cbn [bind]. rewrite memcpy_last.
      rewrite storage_value in Hcl |- *.
      cbn [capacity offset data]. rewrite Hw, Hcc.
      destruct ((0 <=? offset cur) && (offset cur + Z.of_nat n <=? 496 + 4)) eqn:E2.
      2:{ apply andb_false_iff in E2. destruct E2 as [E2|E2]; apply Z.leb_gt in E2; lia. }
      eexists. split; [reflexivity|]. split; [split|].
      * unfold linked in *. cbn [_begin _current]. rewrite Hb, Hc in Hl.
        rewrite length_app in *. exact Hl.
      * cbn [_begin]. apply Forall_last. split; [exact Hsi|].
        unfold chunk_standard. rewrite storage_value. cbn [capacity offset data].
        rewrite splice_length, wrap32_small by lia.
        rewrite usable_chunk_size_value. repeat split; auto; lia.
      * cbn [_begin]. rewrite Hb, !filled_app. cbn [filled fold_right offset].
        rewrite wrap32_small by lia. lia.
    + cbn [bind]. apply write_new_chunk; auto.
Qed.

Lemma eight_bytes_total (n : nat) : total_length (eight_bytes n) = 8 * Z.of_nat n.
Proof.
  induction n as [|n IH]; [reflexivity|].
  unfold eight_bytes in *. cbn [repeat total_length fold_right byte_length].
  fold (total_length (repeat (Write 8 0) n)). rewrite IH. lia.
Qed.

Lemma eight_bytes_typed (n : nat) : Forall op_typed (eight_bytes n).
Proof. apply Forall_forall. intros o Ho. apply repeat_spec in Ho. now subst. Qed.

(** As many eight-byte writes as one likes are carried out, 62 to a chunk. *)
Lemma eight_bytes_run (n : nat) : forall (s : bytes_ostream),
  standard s ->
  exists s',
    run s (eight_bytes n) = Ok s' /\ standard s' /\
    filled (_begin s') = filled (_begin s) + 8 * Z.of_nat n.
Proof.
  induction n as [|n IH]; intros s Hs.
  - exists s. repeat split; try apply Hs. cbn. lia.
  - unfold eight_bytes. cbn [repeat run step].
    destruct (write_standard s 8 0 Hs ltac:(rewrite usable_chunk_size_value; lia))
      as (s1 & Hw & Hs1 & Hf1).
    rewrite Hw. cbn [bind].
    destruct (IH s1 Hs1) as (s' & Hr & Hs' & Hf').
    exists s'. split; [exact Hr|]. split; [exact Hs'|]. lia.
Qed.

Lemma readable_counted (l : list chunk) :
  Forall readable l -> Forall chunk_counted l.
Proof.
  intros H. eapply Forall_impl; [|exact H].
  intros r [Ho Hl]. split; [lia|exact Hl].
Qed.

(** A chain that holds more than the block written to has room for: the
    copy leaves the block, or a chunk is read past the end of its own. *)
Lemma copy_chain_overrun (src : list chunk) :
  forall (init : list chunk) (cur : chunk) (c : option nat) (z at_ : Z),
  Forall chunk_counted src ->
  0 <= at_ <= storage cur -> storage cur < at_ + filled src ->
  copy_chain src (mk_stream (init ++ [cur]) c z) (mk_pointer (length init) at_) =
    Fault Overrun.
Proof.
  induction src as [|r src IH]; intros init cur c z at_ Hsrc Hat Hf.
  - cbn [filled fold_right] in Hf. lia.
  - inversion Hsrc as [|r' src' [Hr0 Hrl] Hsrc']; subst.
    cbn [filled fold_right] in Hf. fold (filled src) in Hf.
    cbn [copy_chain]. unfold read.
    destruct ((0 <=? offset r) && (offset r <=? storage r)) eqn:Er; [|reflexivity].
    apply andb_prop in Er. destruct Er as [_ Er]. apply Z.leb_le in Er.
    cbn [bind]. rewrite memcpy_last, len_firstn by lia.
    destruct ((0 <=? at_) && (at_ + offset r <=? storage cur)) eqn:Ec; [|reflexivity].
    apply andb_prop in Ec. destruct Ec as [_ Ec]. apply Z.leb_le in Ec.
    cbn [bind in_chunk at_byte].
    apply IH; [exact Hsrc'| |];
      rewrite (storage_same (mk_chunk _ _ _) cur eq_refl); lia.
Qed.

(** Once [_size] has wrapped, the block [linearize] allocates is too small
    for the chain. *)
Lemma linearize_wrapped (s : bytes_ostream) :
  Forall chunk_counted (_begin s) ->
  is_linearized s = false ->
  0 <= _size s -> _size s + sizeof_chunk - offsetof_data < filled (_begin s) ->
  linearize s = Fault Overrun.
Proof.
  intros Hr Hl Hz0 Hz. unfold linearize. rewrite Hl.
  unfold sizeof_chunk, offsetof_data in Hz.
  set (z := _size s) in *.
  set (N := mk_chunk (z + sizeof_chunk - sizeof_chunk) z
              (repeat None (Z.to_nat (z + sizeof_chunk - offsetof_data)))).
  assert (storage N = z + 4) as HsN.
  { rewrite storage_value. unfold N. cbn [capacity]. lia. }
  change (mk_stream [N] (Some 0%nat) z) with (mk_stream ([] ++ [N]) (Some 0%nat) z).
  change (mk_pointer 0 0) with (mk_pointer (length (@nil chunk)) 0).
  rewrite copy_chain_overrun; auto; lia.
Qed.

Lemma several_chunks (s : bytes_ostream) :
  standard s -> usable_chunk_size < filled (_begin s) -> is_linearized s = false.
Proof.
  intros [_ Hs] Hf. pose proof (standard_chain_bound _ Hs) as Hb.
  unfold is_linearized. destruct (_begin s) as [|a [|b l]]; [| |reflexivity].
  - rewrite usable_chunk_size_value in Hf. cbn [filled fold_right] in Hf. lia.
  - rewrite len_cons, len_nil in Hb. cbn [filled fold_right] in *. lia.
Qed.

Lemma counted_fresh : counted fresh.
Proof. split; [reflexivity|]. split; [constructor|reflexivity]. Qed.

Lemma len_written (o : op) : op_ok o -> len (written o) = byte_length o.
Proof.
  intros Ho. destruct o; cbn [written byte_length].
  - now rewrite len_map, len_hton.
  - apply len_map.
  - rewrite len_map, len_app, len_hton. lia.
  - apply len_repeat.
  - destruct Ho as [Hko Hwo]. unfold contents, size.
    rewrite (len_chain_payload _ (counted_readable _ Hko Hwo)).
    now destruct Hko as (_ & _ & ->).
Qed.

Lemma len_all_written (ops : list op) :
  Forall op_ok ops -> len (concat (map written ops)) = total_length ops.
Proof.
  induction 1 as [|o ops Ho _ IH]; [reflexivity|].
  cbn [map concat total_length fold_right]. fold (total_length ops).
  rewrite len_app, IH, len_written by exact Ho. reflexivity.
Qed.

Lemma total_length_typed (ops : list op) :
  Forall op_typed ops -> 0 <= total_length ops.
Proof.
  induction 1 as [|o ops Ho _ IH]; cbn [total_length fold_right]; [lia|].
  fold (total_length ops).
  assert (0 <= byte_length o); [|lia].
  destruct o; cbn [byte_length op_typed] in *; try lia.
  - apply len_nonneg.
  - pose proof (len_nonneg v). lia.
Qed.

(* ================================================================== *)
(** * size() and empty() *)
(* ================================================================== *)

(** C4, as stated, fails: 2^29 writes of an eight-byte value are carried
    out one after the other, they write 2^32 bytes, and [size()] is 0 and
    [empty()] true. *)
Lemma size_wraps_at_four_gibibytes :
  exists s,
    run fresh (eight_bytes (Z.to_nat (2 ^ 29))) = Ok s /\
    total_length (eight_bytes (Z.to_nat (2 ^ 29))) = 2 ^ 32 /\
    size s = 0 /\ empty s = true.
Proof.
  destruct (eight_bytes_run (Z.to_nat (2 ^ 29)) fresh standard_fresh)
    as (s & Hr & _ & _).
  exists s. split; [exact Hr|].
  assert (total_length (eight_bytes (Z.to_nat (2 ^ 29))) = 2 ^ 32) as Ht.
  { rewrite eight_bytes_total, Z2Nat.id by lia. reflexivity. }
  split; [exact Ht|].
  pose proof (run_size _ fresh s (eight_bytes_typed _) ltac:(cbn; lia) Hr) as Hz.
  rewrite Ht in Hz. cbn [fresh _size] in Hz.
  unfold size, empty. rewrite Hz. split; reflexivity.
Qed.

(** C4, amended.  After a sequence of write operations that is carried out
    to its end, [size()] is the sum of the byte lengths written and
    allocated, reduced modulo 2^32, and [empty()] tells whether that is
    zero; as long as the sum is below 2^32, [size()] is the sum and
    [empty()] is true exactly when the sum is zero. *)
Theorem size_is_the_total_modulo (ops : list op) (s : bytes_ostream) :
  Forall op_typed ops ->
  run fresh ops = Ok s ->
  size s = to_size_type (total_length ops) /\
  empty s = (to_size_type (total_length ops) =? 0) /\
  (total_length ops < 2 ^ 32 ->
     size s = total_length ops /\ (empty s = true <-> total_length ops = 0)).
Proof.
  intros Ht Hr.
  pose proof (run_size ops fresh s Ht ltac:(cbn; lia) Hr) as Hz.
  cbn [fresh _size] in Hz. rewrite Z.add_0_l in Hz.
  pose proof (total_length_typed ops Ht) as H0.
  unfold size, empty. rewrite Hz. split; [reflexivity|]. split; [reflexivity|].
  intros Hlt. rewrite wrap32_small by lia. split; [reflexivity|].
  apply Z.eqb_eq.
Qed.

Lemma size_is_the_total_modulo_witness :
  Forall op_typed [Write 2 0x1234; WriteBlob [x63; x61; x66; xc3; xa9];
                   WritePlaceHolder 4; WriteBytes [x41]] /\
  exists s,
    run fresh [Write 2 0x1234; WriteBlob [x63; x61; x66; xc3; xa9];
               WritePlaceHolder 4; WriteBytes [x41]] = Ok s /\
    size s = 16.
Proof.
  assert (Forall op_typed [Write 2 0x1234; WriteBlob [x63; x61; x66; xc3; xa9];
                           WritePlaceHolder 4; WriteBytes [x41]]) as Ht
      by (repeat constructor).
  split; [exact Ht|].
  destruct (run fresh [Write 2 0x1234; WriteBlob [x63; x61; x66; xc3; xa9];
                       WritePlaceHolder 4; WriteBytes [x41]]) as [s|f] eqn:Hr;
    [|vm_compute in Hr; discriminate].
  exists s. split; [reflexivity|].
  exact (proj1 (size_is_the_total_modulo _ s Ht Hr)).
Defined.

(* ================================================================== *)
(** * linearize() then view() *)
(* ================================================================== *)

Lemma cells_ok_fresh : cells_ok fresh.
Proof. constructor. Qed.

(** What a sequence of writes leaves behind, when it leaves every chunk
    filled within its capacity. *)
Lemma run_contents (ops : list op) (s : bytes_ostream) :
  Forall op_ok ops ->
  run fresh ops = Ok s ->
  within s ->
  total_length ops < 2 ^ 32 ->
  counted s /\ cells_ok s /\
  filled (_begin s) = total_length ops /\
  contents s = concat (map written ops).
Proof.
  intros Hok Hr Hw Hn.
  destruct (run_advances ops fresh s Hok counted_fresh ltac:(cbn; lia) Hr)
    as (Hk & Hf & _ & Hc).
  destruct (Hc cells_ok_fresh Hw) as [Hcells Hcont].
  rewrite len_all_written in Hf by exact Hok.
  repeat split; auto; apply Hk.
Qed.

(** C3, as stated, fails: after 2^29 writes of an eight-byte value
    [_size] is back at 0, and [linearize()] copies the chain into a block
    allocated for a header and no byte more. *)
Lemma linearize_overruns_at_four_gibibytes :
  exists s,
    run fresh (eight_bytes (Z.to_nat (2 ^ 29))) = Ok s /\
    linearize s = Fault Overrun.
Proof.
  destruct (eight_bytes_run (Z.to_nat (2 ^ 29)) fresh standard_fresh)
    as (s & Hr & Hs & Hf).
  exists s. split; [exact Hr|].
  rewrite Z2Nat.id in Hf by lia. cbn [fresh _begin filled fold_right] in Hf.
  pose proof (run_size _ fresh s (eight_bytes_typed _) ltac:(cbn; lia) Hr) as Hz.
  rewrite eight_bytes_total, Z2Nat.id in Hz by lia.
  apply linearize_wrapped.
  - apply readable_counted. now apply standard_readable.
  - apply several_chunks; [exact Hs|]. rewrite Hf. reflexivity.
  - rewrite Hz. discriminate.
  - rewrite Hz, Hf. reflexivity.
Qed.

(** C3, amended.  For a sequence of writes of less than 2^32 bytes in all
    that is carried out to its end and leaves every chunk filled within its
    capacity, [linearize()] returns the bytes written, in the order of the
    calls, and so does [view()] afterwards; when the chain had more than one
    chunk, it is replaced by one chunk of a capacity of exactly [size()] bytes
    that holds them, the four bytes that end its block being left as they
    are. *)
Theorem linearize_view_is_what_was_written (ops : list op) (s : bytes_ostream) :
  Forall op_ok ops ->
  run fresh ops = Ok s ->
  within s ->
  total_length ops < 2 ^ 32 ->
  exists s',
    linearize s = Ok (s', concat (map written ops)) /\
    view s' = Ok (concat (map written ops)) /\
    size s' = size s /\
    (is_linearized s = false ->
       _begin s' = [mk_chunk (size s) (size s) (concat (map written ops) ++ spare)] /\
       _current s' = Some 0%nat).
Proof.
  intros Hok Hr Hw Hn.
  destruct (run_contents ops s Hok Hr Hw Hn) as (Hk & _ & Hf & Hc).
  destruct (linearize_contents s Hk Hw ltac:(lia)) as (s' & Hl & Hv & Hz & _ & Hm).
  rewrite Hc in *. exists s'. repeat split; auto; now apply Hm.
Qed.

Lemma linearize_view_is_what_was_written_witness :
  exists s s',
    run fresh [WriteBytes (repeat x41 400); Write 2 0x1234;
               WriteBytes (repeat x42 200)] = Ok s /\
    is_linearized s = false /\
    linearize s = Ok (s', map Some (repeat x41 400 ++ [x12; x34] ++ repeat x42 200)).
Proof.
  destruct (run fresh [WriteBytes (repeat x41 400); Write 2 0x1234;
                       WriteBytes (repeat x42 200)]) as [s|f] eqn:Hr;
    [|vm_compute in Hr; discriminate].
  assert (Forall op_ok [WriteBytes (repeat x41 400); Write 2 0x1234;
                        WriteBytes (repeat x42 200)]) as Hok
      by (repeat constructor).
  assert (within s) as Hw.
  { vm_compute in Hr. inversion Hr. repeat constructor; vm_compute; discriminate. }
  destruct (linearize_view_is_what_was_written _ s Hok Hr Hw ltac:(vm_compute; reflexivity))
    as (s' & Hl & _).
  exists s, s'. split; [reflexivity|]. split.
  - vm_compute in Hr. inversion Hr. reflexivity.
  - exact Hl.
Defined.

(* ================================================================== *)
(** * append *)
(* ================================================================== *)

(** On a stream whose current chunk is of the standard size, [append] is
    carried out and leaves every chunk filled within its capacity. *)
Lemma append_total (s o : bytes_ostream) :
  counted s -> within s -> current_standard s ->
  counted o -> within o ->
  filled (_begin s) + size o < 2 ^ 32 ->
  exists s', append s o = Ok s' /\ within s'.
Proof.
  intros Hk Hw Hcs Hko Hwo Hn. unfold append.
  pose proof (counted_readable o Hko Hwo) as Hr.
  pose proof (len_chain_payload _ Hr) as Hlen.
  pose proof Hko as (_ & Hoo & Hzo). pose proof (filled_nonneg _ Hoo) as Hf0.
  pose proof Hk as (Hl & Ho & Hz). pose proof (filled_nonneg _ Ho) as Hfs.
  unfold size in *.
  destruct (0 <? _size o) eqn:E; [|exists s; split; [reflexivity|exact Hw]].
  apply Z.ltb_lt in E.
  assert (_begin o = [] -> False) as Hne.
  { intros Hnil. rewrite Hnil in Hzo. cbn in Hzo. lia. }
  destruct (new_chunk_capacity (_size o) ltac:(lia)) as (Hfit & Hnl & Hno & Hnd).
  (* the case of a new chunk, whatever the chain it is linked to *)
  assert (exists s',
    copy_chain (_begin o)
      (mk_stream (_begin s ++ [new_chunk (_size o)]) (Some (length (_begin s)))
                 (to_size_type (_size s + _size o)))
      (mk_pointer (length (_begin s)) 0) = Ok s' /\ within s') as Hnew.
  { pose proof (storage_value (new_chunk (_size o))) as Hsv.
    rewrite copy_chain_last; auto; try lia.
    destruct (0 + len (concat (map payload (_begin o))) <=? storage (new_chunk (_size o)))
      eqn:Ec; [|apply Z.leb_gt in Ec; lia].
    eexists. split; [reflexivity|]. unfold within. cbn [_begin].
    apply Forall_last. split; [exact Hw|].
    unfold chunk_within. cbn [capacity offset]. lia. }
  destruct (linked_facing s Hl) as [Hb Hc|init cur Hb Hc].
  - rewrite (alloc_none s _ Hb Hc).
    destruct (_size o <=? 0) eqn:E0; [apply Z.leb_le in E0; lia|].
    cbn [bind]. exact Hnew.
  - rewrite (alloc_last s init cur _ Hb Hc).
    assert (capacity cur = usable_chunk_size) as Hcap.
    { apply (Hcs (length init) cur Hc). rewrite Hb. apply nth_error_last. }
    unfold within in Hw. rewrite Hb in Hw, Ho, Hn.
    apply Forall_last in Hw. apply Forall_last in Ho.
    destruct Hw as [Hwi Hwc]. destruct Ho as [Hoi [Hoc Hlc]].
    unfold chunk_within in Hwc. rewrite filled_app in Hn.
    cbn [filled fold_right] in Hn. pose proof (filled_nonneg _ Hoi) as Hfi.
    rewrite usable_chunk_size_value in *.
    rewrite (wrap32_small (496 - offset cur)) by lia.
    destruct (_size o <=? 496 - offset cur) eqn:Ef; [|cbn [bind]; exact Hnew].
    apply Z.leb_le in Ef. cbn [bind].
    rewrite storage_value in Hlc.
    rewrite copy_chain_last; rewrite ?storage_value; cbn [capacity offset data];
      auto; try lia.
    destruct (offset cur + len (concat (map payload (_begin o))) <=? capacity cur + 4)
      eqn:Ec; [|apply Z.leb_gt in Ec; lia].
    eexists. split; [reflexivity|]. unfold within. cbn [_begin].
    apply Forall_last. split; [exact Hwi|].
    unfold chunk_within. cbn [capacity offset]. rewrite wrap32_small; lia.
Qed.

Lemma put_same (h : objects) (x : nat) (s : bytes_ostream) : put h x s x = s.
Proof. unfold put. now rewrite Nat.eqb_refl. Qed.

Lemma put_other (h : objects) (x y : nat) (s : bytes_ostream) :
  y <> x -> put h x s y = h y.
Proof. intros H. unfold put. apply Nat.eqb_neq in H. now rewrite H. Qed.

Lemma append_to_other (h : objects) (this o : nat) (s : bytes_ostream) :
  this <> o ->
  append (h this) (h o) = Ok s ->
  exists h',
    append_to h this o = Ok h' /\
    h' this = s /\ (forall x, x <> this -> h' x = h x).
Proof.
  intros Hne. unfold append_to, append. apply Nat.eqb_neq in Hne.
  destruct (0 <? size (h o)).
  - destruct (alloc (h this) (size (h o))) as [[s1 dst]|f]; [|discriminate].
    cbn [bind]. rewrite Hne. intros H. rewrite H. cbn [bind].
    exists (put h this s). split; [reflexivity|]. split; [apply put_same|].
    intros x Hx. now apply put_other.
  - intros H. inversion H; subst. exists h. repeat split.
Qed.

Lemma alloc_two_gibibytes (a : bytes_ostream) :
  standard a -> filled (_begin a) = 2 ^ 31 ->
  alloc a (2 ^ 31) =
    Ok (mk_stream (_begin a ++ [new_chunk (2 ^ 31)]) (Some (length (_begin a)))
                  (to_size_type (_size a + 2 ^ 31)),
        mk_pointer (length (_begin a)) 0).
Proof.
  intros [Hla Hsa] Hf.
  destruct (linked_facing a Hla) as [Hb Hc|init cur Hb Hc].
  - rewrite Hb in Hf. cbn in Hf. lia.
  - rewrite (alloc_last a init cur _ Hb Hc).
    rewrite Hb in Hsa. apply Forall_last in Hsa.
    destruct Hsa as [_ (Hcc & Hco & _)].
    rewrite usable_chunk_size_value in *.
    rewrite (wrap32_small (496 - offset cur)) by lia.
    destruct (2 ^ 31 <=? 496 - offset cur) eqn:E; [apply Z.leb_le in E; lia|].
    reflexivity.
Qed.

(** A stream of standard chunks that holds 2^31 bytes, appended to itself
    as another object would be: the bytes go to one new chunk, and [_size]
    comes back to 0. *)
Lemma append_two_gibibytes (a : bytes_ostream) :
  standard a -> _size a = 2 ^ 31 -> filled (_begin a) = 2 ^ 31 ->
  exists s,
    append a a = Ok s /\
    Forall readable (_begin s) /\
    is_linearized s = false /\
    0 <= _size s /\ _size s + sizeof_chunk - offsetof_data < filled (_begin s).
Proof.
  intros Hs Hz Hf.
  assert (counted a) as Hk by (apply standard_counted; [exact Hs|congruence]).
  pose proof (standard_within a Hs) as Hw.
  pose proof (counted_readable a Hk Hw) as Hra.
  pose proof (len_chain_payload _ Hra) as Hlen.
  pose proof (alloc_two_gibibytes a Hs Hf) as Ha.
  destruct (new_chunk_capacity (2 ^ 31) ltac:(lia)) as (Hfit & Hnl & Hno & _).
  pose proof (storage_value (new_chunk (2 ^ 31))) as Hsv.
  set (nc := new_chunk (2 ^ 31)) in *. clearbody nc.
  unfold append, size. rewrite Hz in *.
  destruct (0 <? 2 ^ 31) eqn:E0; [|apply Z.ltb_ge in E0; lia].
  rewrite Ha. cbn [bind].
  rewrite copy_chain_last; auto; try lia.
  destruct (_ <=? _) eqn:E; [|apply Z.leb_gt in E; lia].
  eexists. split; [reflexivity|]. cbn [_begin _size]. split; [|split; [|split]].
  - apply Forall_last. split; [exact Hra|].
    unfold readable. rewrite storage_value. cbn [capacity offset data].
    rewrite splice_length by lia. lia.
  - unfold is_linearized. cbn [_begin].
    destruct (_begin a) as [|c l]; [cbn in Hf; lia|].
    destruct l; reflexivity.
  - replace (to_size_type (2 ^ 31 + 2 ^ 31)) with 0 by reflexivity. lia.
  - rewrite filled_app. cbn [filled fold_right offset].
    rewrite Hno, Hf.
    replace (to_size_type (2 ^ 31 + 2 ^ 31)) with 0 by reflexivity.
    unfold sizeof_chunk, offsetof_data. lia.
Qed.

(** C6, as stated, fails: two streams of 2^31 bytes each are linearized
    without harm, and the first, once the second is appended to it, has a
    [_size] of 0 and cannot be. *)
Lemma append_overruns_at_four_gibibytes :
  exists a sa va,
    run fresh (eight_bytes (Z.to_nat (2 ^ 28))) = Ok a /\
    linearize a = Ok (sa, va) /\
    exists h',
      append_to (fun _ => a) 0 1 = Ok h' /\
      linearize (h' 0%nat) = Fault Overrun.
Proof.
  destruct (eight_bytes_run (Z.to_nat (2 ^ 28)) fresh standard_fresh)
    as (a & Hr & Hs & Hf).
  rewrite Z2Nat.id in Hf by lia. cbn [fresh _begin filled fold_right] in Hf.
  pose proof (run_size _ fresh a (eight_bytes_typed _) ltac:(cbn; lia) Hr) as Hz.
  rewrite eight_bytes_total, Z2Nat.id in Hz by lia.
  assert (_size a = 2 ^ 31) as Hz' by (rewrite Hz; reflexivity).
  assert (filled (_begin a) = 2 ^ 31) as Hf' by (rewrite Hf; reflexivity).
  assert (counted a) as Hk by (apply standard_counted; [exact Hs|congruence]).
  pose proof (standard_within a Hs) as Hw.
  destruct (linearize_contents a Hk Hw ltac:(lia)) as (sa & Hl & _).
  exists a, sa, (contents a). split; [exact Hr|]. split; [exact Hl|].
  destruct (append_two_gibibytes a Hs Hz' Hf') as (s & Happ & Hrd & Hlin & Hs0 & Hsz).
  destruct (append_to_other (fun _ => a) 0 1 s ltac:(lia) Happ) as (h' & Hh & Hh0 & _).
  exists h'. split; [exact Hh|]. rewrite Hh0.
  apply linearize_wrapped; auto. now apply readable_counted.
Qed.

(** C6, amended.  Appending a stream of size zero changes nothing.  For two
    distinct well-formed streams [a] and [b] of less than 2^32 bytes
    together, [a] having a current chunk of the standard size or none,
    [a.append(b)] is carried out, leaves every other stream as it was, [b]
    among them, and [linearize()] on [a] then yields what [linearize()] yielded
    on [a] before followed by what it yields on [b]. *)
Theorem append_then_linearize_concatenates :
  (forall (h : objects) (a b : nat),
     size (h b) = 0 -> append_to h a b = Ok h) /\
  (forall (h : objects) (a b : nat),
     a <> b ->
     counted (h a) -> within (h a) -> cells_ok (h a) -> current_standard (h a) ->
     counted (h b) -> within (h b) ->
     size (h a) + size (h b) < 2 ^ 32 ->
     exists h' sa sb sab,
       append_to h a b = Ok h' /\
       (forall x, x <> a -> h' x = h x) /\
       (forall s, put h' b s a = h' a) /\
       linearize (h a) = Ok (sa, contents (h a)) /\
       linearize (h b) = Ok (sb, contents (h b)) /\
       linearize (h' a) = Ok (sab, contents (h a) ++ contents (h b))).
Proof.
  split.
  - intros h a b Hz. unfold append_to. now rewrite Hz.
  - intros h a b Hne Hka Hwa Hca Hsa Hkb Hwb Hn.
    pose proof Hka as (_ & Hoa & Hza). pose proof Hkb as (_ & Hob & Hzb).
    pose proof (filled_nonneg _ Hoa) as Hfa. pose proof (filled_nonneg _ Hob) as Hfb.
    unfold size in Hn.
    destruct (append_total (h a) (h b) Hka Hwa Hsa Hkb Hwb
                ltac:(unfold size; lia)) as (s' & Happ & Hw').
    destruct (append_advances (h a) (h b) s' Hka Hkb Hwb ltac:(unfold size; lia) Happ)
      as (Hk' & Hf' & _ & Hc').
    destruct (Hc' Hca Hw') as [_ Hcont].
    destruct (append_to_other h a b s' Hne Happ) as (h' & Hh & Hha & Hother).
    pose proof (len_chain_payload _ (counted_readable _ Hkb Hwb)) as Hlb.
    fold (contents (h b)) in Hlb.
    destruct (linearize_contents (h a) Hka Hwa ltac:(lia)) as (sa & Hla & _).
    destruct (linearize_contents (h b) Hkb Hwb ltac:(lia)) as (sb & Hlb' & _).
    destruct (linearize_contents s' Hk' Hw' ltac:(lia)) as (sab & Hlab & _).
    exists h', sa, sb, sab.
    split; [exact Hh|]. split; [exact Hother|].
    split; [intros s; apply put_other; exact Hne|].
    split; [exact Hla|]. split; [exact Hlb'|].
    rewrite Hha, <- Hcont. exact Hlab.
Qed.

Lemma append_then_linearize_concatenates_witness :
  exists h' sab,
    append_to two_streams 0 1 = Ok h' /\
    linearize (h' 0%nat) = Ok (sab, [Some x41; Some x42; Some x43]).
Proof.
  assert (counted (two_streams 0%nat)) as Hka.
  { split; [reflexivity|]. split; [|reflexivity].
    repeat constructor; vm_compute; discriminate. }
  assert (counted (two_streams 1%nat)) as Hkb.
  { split; [reflexivity|]. split; [|reflexivity].
    repeat constructor; vm_compute; discriminate. }
  assert (within (two_streams 0%nat)) as Hwa
      by (repeat constructor; vm_compute; discriminate).
  assert (within (two_streams 1%nat)) as Hwb
      by (repeat constructor; vm_compute; discriminate).
  assert (cells_ok (two_streams 0%nat)) as Hca by (repeat constructor).
  assert (current_standard (two_streams 0%nat)) as Hsa.
  { intros i ch Hi Hch. cbn in Hi. inversion Hi; subst. cbn in Hch.
    inversion Hch. reflexivity. }
  destruct (proj2 append_then_linearize_concatenates two_streams 0%nat 1%nat
              ltac:(lia) Hka Hwa Hca Hsa Hkb Hwb ltac:(vm_compute; reflexivity))
    as (h' & sa & sb & sab & Hh & _ & _ & _ & _ & Hl).
  exists h', sab. split; [exact Hh|exact Hl].
Defined.

(* ================================================================== *)
(** * Copy-assignment of a stream to itself *)
(* ================================================================== *)

(** C9.  [s = s] leaves [s] empty, whatever it held: [_size], [_current]
    and [_begin] are reset first, and [append] then finds the size of its
    argument, the same object, to be zero. *)
Theorem copy_assign_to_self_empties (h : objects) (a : nat) :
  exists h',
    copy_assign h a a = Ok h' /\
    h' a = fresh /\
    size (h' a) = 0 /\ empty (h' a) = true /\ view (h' a) = Ok [] /\
    forall x, x <> a -> h' x = h x.
Proof.
  unfold copy_assign, append_to. rewrite !put_same. cbn [_begin _current _size size].
  cbn [Z.ltb Z.compare]. eexists. split; [reflexivity|].
  rewrite put_same. repeat split.
  intros x Hx. now rewrite !put_other.
Qed.

(* ================================================================== *)
(** * A chunk larger than the standard one *)
(* ================================================================== *)

(** C2 does not hold of the code.  A write of 600 bytes to an empty stream
    creates a chunk of 600 bytes, filled, in a block that has 604 bytes from
    [data] on; [current_space_left] then computes [496 - 600] in
    [size_type], 4294967192, and the next allocation is taken from that
    chunk.  A placeholder or a write of one byte leaves it with an offset of
    601 for a capacity of 600, the byte being the first of the four that end
    the block.  A placeholder of eight bytes leaves it with an offset of
    608, past the end of the block, and a write of eight bytes is a store
    past the end of the block.  The same happens to the chunk of 600 bytes
    that [linearize] makes of two chunks. *)
Theorem oversized_chunk_is_overfilled :
  (exists s,
     run fresh [WriteBytes (repeat x41 600)] = Ok s /\
     layout s = [(600, 600)] /\
     map storage (_begin s) = [604] /\
     current_space_left s = Ok 4294967192 /\
     (exists s1, step s (WritePlaceHolder 1) = Ok s1 /\ layout s1 = [(600, 601)]) /\
     (exists s1, step s (Write 1 0) = Ok s1 /\ layout s1 = [(600, 601)]) /\
     (exists s1, step s (WritePlaceHolder 8) = Ok s1 /\ layout s1 = [(600, 608)]) /\
     step s (Write 8 0) = Fault Overrun) /\
  (exists s s1 v,
     run fresh [WriteBytes (repeat x41 400); WriteBytes (repeat x42 200)] = Ok s /\
     layout s = [(496, 496); (496, 104)] /\
     linearize s = Ok (s1, v) /\
     layout s1 = [(600, 600)] /\
     map storage (_begin s1) = [604] /\
     (exists s2, step s1 (WritePlaceHolder 1) = Ok s2 /\ layout s2 = [(600, 601)]) /\
     (exists s2, step s1 (Write 1 0) = Ok s2 /\ layout s2 = [(600, 601)]) /\
     (exists s2, step s1 (WritePlaceHolder 8) = Ok s2 /\ layout s2 = [(600, 608)]) /\
     step s1 (Write 8 0) = Fault Overrun).
Proof.
  split.
  - destruct (run fresh [WriteBytes (repeat x41 600)]) as [s|f] eqn:Hr;
      [|vm_compute in Hr; discriminate].
    exists s. split; [reflexivity|].
    vm_compute in Hr. inversion Hr; subst s. clear Hr.
    split; [reflexivity|]. split; [reflexivity|]. split; [reflexivity|].
    split; [|split; [|split]].
    + eexists. split; vm_compute; reflexivity.
    + eexists. split; vm_compute; reflexivity.
    + eexists. split; vm_compute; reflexivity.
    + vm_compute. reflexivity.
  - destruct (run fresh [WriteBytes (repeat x41 400); WriteBytes (repeat x42 200)])
      as [s|f] eqn:Hr; [|vm_compute in Hr; discriminate].
    vm_compute in Hr. inversion Hr; subst s. clear Hr.
    eexists _, _, _. split; [reflexivity|]. split; [reflexivity|].
    split; [vm_compute; reflexivity|]. split; [reflexivity|].
    split; [reflexivity|]. split; [|split; [|split]].
    + eexists. split; vm_compute; reflexivity.
    + eexists. split; vm_compute; reflexivity.
    + eexists. split; vm_compute; reflexivity.
    + vm_compute. reflexivity.
Qed.

(** C5 does not hold of the code.  The current chunk of [full_oversized]
    has no byte of unused capacity, and [alloc(1)] neither creates nor links
    a chunk: it returns the location one past the capacity of the current
    chunk and moves its filled length to 601. *)
Theorem alloc_from_a_full_oversized_chunk :
  run fresh [WriteBytes (repeat x41 600)] = Ok full_oversized /\
  alloc full_oversized 1 =
    Ok (mk_stream [mk_chunk 600 601 (repeat (Some x41) 600 ++ spare)] (Some 0%nat) 601,
        mk_pointer 0 600).
Proof. split; vm_compute; reflexivity. Qed.

(** C7 does not hold of the code.  After a write of 600 bytes, the length
    prefix of [write_blob] is allocated past the capacity of the current chunk
    and stored in the four bytes that end its block; the bytes of the blob
    are then stored past the end of the block. *)
Theorem write_blob_after_an_oversized_chunk :
  run fresh [WriteBytes (repeat x41 600)] = Ok full_oversized /\
  write_blob full_oversized [x63; x61; x66; xc3; xa9] = Fault Overrun.
Proof. split; vm_compute; reflexivity. Qed.

(* ================================================================== *)
(** * Where the allocation does as the data model says *)
(* ================================================================== *)

(** With a current chunk of the standard size, filled within its capacity,
    [alloc] decides on the room the chunk really has. *)
Lemma alloc_on_a_standard_chunk (s : bytes_ostream) (init : list chunk)
    (cur : chunk) (n : Z) :
  _begin s = init ++ [cur] -> _current s = Some (length init) ->
  capacity cur = usable_chunk_size -> 0 <= offset cur <= capacity cur ->
  0 <= n ->
  alloc s n =
    if n <=? capacity cur - offset cur then
      Ok (mk_stream
            (init ++ [mk_chunk (capacity cur) (offset cur + n) (data cur)])
            (Some (length init)) (to_size_type (_size s + n)),
          mk_pointer (length init) (offset cur))
    else
      Ok (mk_stream (_begin s ++ [new_chunk n]) (Some (length (_begin s)))
                    (to_size_type (_size s + n)),
          mk_pointer (length (_begin s)) 0).
Proof.
  intros Hb Hc Hcap Ho Hn. rewrite (alloc_last s init cur n Hb Hc).
  rewrite Hcap in *. rewrite usable_chunk_size_value in *.
  rewrite (wrap32_small (496 - offset cur)) by lia.
  destruct (n <=? 496 - offset cur) eqn:E; [|reflexivity].
  apply Z.leb_le in E. rewrite wrap32_small by lia. reflexivity.
Qed.

(** The block of a new chunk: 512 bytes when the request fits in 496, the
    request and the header otherwise. *)
Lemma new_chunk_block (n : Z) :
  capacity (new_chunk n) + sizeof_chunk =
    if n <=? usable_chunk_size then chunk_size else n + sizeof_chunk.
Proof. unfold new_chunk. cbn [capacity]. destruct (n <=? usable_chunk_size); lia. Qed.

(* ================================================================== *)
(** * Moves, and the example of the specification *)
(* ================================================================== *)

(** A stream moved from is empty, and the stream built from it is what it
    was. *)
Lemma move_construct_takes_all (h : objects) (this o : nat) :
  this <> o ->
  move_construct h this o this =
    mk_stream (_begin (h o)) (_current (h o)) (_size (h o)) /\
  move_construct h this o o = fresh /\
  size (move_construct h this o o) = 0 /\ empty (move_construct h this o o) = true.
Proof.
  intros Hne. unfold move_construct.
  rewrite put_other by exact Hne. rewrite !put_same. repeat split.
Qed.

(** A two-byte 0x1234 and the blob 63 61 66 C3 A9, with its 32-bit length
    before it. *)
Example integer_then_blob :
  exists s s',
    run fresh [Write 2 0x1234; WriteBlob [x63; x61; x66; xc3; xa9]] = Ok s /\
    linearize s =
      Ok (s', map Some [x12; x34; x00; x00; x00; x05; x63; x61; x66; xc3; xa9]) /\
    validate [x63; x61; x66; xc3; xa9] = true.
Proof.
  destruct (run fresh [Write 2 0x1234; WriteBlob [x63; x61; x66; xc3; xa9]])
    as [s|f] eqn:Hr; [|vm_compute in Hr; discriminate].
  vm_compute in Hr. inversion Hr; subst s. clear Hr.
  eexists _, _. split; [reflexivity|]. split; vm_compute; reflexivity.
Qed.

(* ================================================================== *)
(** * Streams whose current chunk is of the standard size *)
(* ================================================================== *)

Lemma new_chunk_max (n : Z) :
  0 <= n -> capacity (new_chunk n) = Z.max usable_chunk_size n.
Proof.
  intros H. unfold new_chunk. cbn [capacity].
  rewrite usable_chunk_size_value. unfold chunk_size, sizeof_chunk.
  destruct (n <=? 496) eqn:E; [apply Z.leb_le in E|apply Z.leb_gt in E]; lia.
Qed.

Lemma current_standard_last (init : list chunk) (cur : chunk) (z : Z) :
  capacity cur = usable_chunk_size ->
  current_standard (mk_stream (init ++ [cur]) (Some (length init)) z).
Proof.
  intros H i ch Hc Hn. cbn [_current _begin] in *.
  inversion Hc; subst i. rewrite nth_error_last in Hn. now inversion Hn; subst.
Qed.

Lemma stream_eta (s : bytes_ostream) (l : list chunk) (c : option nat) :
  _begin s = l -> _current s = c -> s = mk_stream l c (_size s).
Proof. destruct s as [b c' z]. cbn. intros; now subst. Qed.

(** On a stream whose current chunk is of the standard size, [alloc]
    returns a region that lies within one chunk. *)
Lemma alloc_total (s : bytes_ostream) (n : Z) :
  counted s -> within s -> current_standard s ->
  1 <= n -> filled (_begin s) + n < 2 ^ 32 ->
  exists init cur at_,
    alloc s n = Ok (mk_stream (init ++ [cur]) (Some (length init))
                      (to_size_type (_size s + n)),
                    mk_pointer (length init) at_) /\
    0 <= at_ /\ offset cur = at_ + n /\ offset cur <= capacity cur /\
    len (data cur) = storage cur /\
    Forall chunk_within init /\
    (n <= usable_chunk_size -> capacity cur = usable_chunk_size) /\
    ((exists cur0, _begin s = init ++ [cur0] /\
        cur = mk_chunk (capacity cur0) (offset cur0 + n) (data cur0) /\
        at_ = offset cur0 /\ capacity cur0 = usable_chunk_size) \/
     (init = _begin s /\ cur = new_chunk n /\ at_ = 0 /\
      forall init0 cur0, _begin s = init0 ++ [cur0] ->
        usable_chunk_size - offset cur0 < n)).
Proof.
  intros Hk Hw Hcs Hn Hf. pose proof Hk as (Hl & Ho & Hz).
  destruct (new_chunk_capacity n ltac:(lia)) as (Hfit & Hnl & Hno & Hnd).
  pose proof (new_chunk_max n ltac:(lia)) as Hmax.
  destruct (linked_facing s Hl) as [Hb Hc|init cur Hb Hc].
  - rewrite (alloc_none s _ Hb Hc).
    destruct (n <=? 0) eqn:E; [apply Z.leb_le in E; lia|].
    exists (_begin s), (new_chunk n), 0.
    split; [reflexivity|]. split; [lia|]. split; [lia|]. split; [lia|].
    split; [exact Hnl|]. split; [exact Hw|]. split; [lia|].
    right. split; [reflexivity|]. split; [reflexivity|]. split; [reflexivity|].
    intros init0 cur0 H0. rewrite Hb in H0. now destruct init0.
  - rewrite (alloc_last s init cur _ Hb Hc).
    assert (capacity cur = usable_chunk_size) as Hcap.
    { apply (Hcs (length init) cur Hc). rewrite Hb. apply nth_error_last. }
    unfold within in Hw. pose proof Hw as Hw'. rewrite Hb in Hw', Ho, Hf.
    apply Forall_last in Hw'. apply Forall_last in Ho.
    destruct Hw' as [Hwi Hwc]. destruct Ho as [Hoi [Hoc Hlc]].
    unfold chunk_within in Hwc. rewrite filled_app in Hf.
    cbn [filled fold_right] in Hf. pose proof (filled_nonneg _ Hoi) as Hfi.
    rewrite usable_chunk_size_value in *.
    rewrite (wrap32_small (496 - offset cur)) by lia.
    destruct (n <=? 496 - offset cur) eqn:Ef.
    + apply Z.leb_le in Ef. rewrite (wrap32_small (offset cur + n)) by lia.
      exists init, (mk_chunk (capacity cur) (offset cur + n) (data cur)), (offset cur).
      cbn [capacity offset data].
      split; [reflexivity|]. split; [lia|]. split; [lia|]. split; [lia|].
      split; [exact Hlc|]. split; [exact Hwi|]. split; [lia|].
      left. exists cur. repeat split; auto.
    + apply Z.leb_gt in Ef.
      exists (_begin s), (new_chunk n), 0.
      split; [reflexivity|]. split; [lia|]. split; [lia|]. split; [lia|].
      split; [exact Hnl|]. split; [exact Hw|]. split; [lia|].
      right. split; [reflexivity|]. split; [reflexivity|]. split; [reflexivity|].
      intros init0 cur0 H0. rewrite Hb in H0. apply app_inj_tail in H0.
      destruct H0 as [_ <-]. lia.
Qed.

(** The bytes of a value are stored in the region [alloc] returned. *)
Lemma fill_total (s : bytes_ostream) (w : list cell) :
  counted s -> within s -> current_standard s ->
  1 <= len w -> filled (_begin s) + len w < 2 ^ 32 ->
  exists s1 p s',
    alloc s (len w) = Ok (s1, p) /\ memcpy s1 p w = Ok s' /\
    within s' /\
    (len w <= usable_chunk_size -> current_standard s').
Proof.
  intros Hk Hw Hcs Hn Hf.
  destruct (alloc_total s (len w) Hk Hw Hcs Hn Hf)
    as (init & cur & at_ & Ha & H0 & Hoff & Hcap & Hlen & Hwi & Hstd & _).
  rewrite Ha. eexists _, _, _. split; [reflexivity|].
  rewrite memcpy_last.
  pose proof (storage_value cur) as Hsv.
  destruct ((0 <=? at_) && (at_ + len w <=? storage cur)) eqn:E.
  2:{ apply andb_false_iff in E. destruct E as [E|E]; apply Z.leb_gt in E; lia. }
  split; [reflexivity|]. split.
  - unfold within. cbn [_begin]. apply Forall_last. split; [exact Hwi|].
    unfold chunk_within. cbn [capacity offset]. lia.
  - intros Hs. apply current_standard_last. cbn [capacity]. auto.
Qed.

Lemma write_bytes_nonempty (s : bytes_ostream) (v : list byte) :
  v <> [] ->
  write_bytes s v =
    (space_left <- current_space_left s ;;
      if len v <=? space_left then
        match _current s with
        | None => Fault NullPointer
        | Some i =>
            ch <- deref s i ;;
            s1 <- memcpy s (mk_pointer i (offset ch)) (map Some v) ;;
            advance s1 i (len v)
        end
      else
        '(s1, v1) <-
          (if space_left =? 0 then Ok (s, v)
           else
             match _current s with
             | None => Fault NullPointer
             | Some i =>
                 ch <- deref s i ;;
                 s1 <- memcpy s (mk_pointer i (offset ch))
                         (map Some (firstn (Z.to_nat space_left) v)) ;;
                 s2 <- advance s1 i space_left ;;
                 Ok (s2, skipn (Z.to_nat space_left) v)
             end) ;;
        '(s2, p) <- alloc s1 (to_size_type (len v1)) ;;
        memcpy s2 p (map Some v1)).
Proof. destruct v; [congruence|reflexivity]. Qed.

Lemma deref_last (init : list chunk) (cur : chunk) (c : option nat) (z : Z) :
  deref (mk_stream (init ++ [cur]) c z) (length init) = Ok cur.
Proof. unfold deref. cbn [_begin]. now rewrite nth_error_last. Qed.

Lemma layout_chain (l : list chunk) (c : option nat) (z : Z) :
  layout (mk_stream l c z) = map (fun ch => (capacity ch, offset ch)) l.
Proof. reflexivity. Qed.

(** A request that the current chunk does not take is stored at the start
    of a chunk of its own. *)
Lemma open_chunk (l : list chunk) (z : Z) (w : list cell) :
  1 <= len w ->
  memcpy (mk_stream (l ++ [new_chunk (len w)]) (Some (length l)) z)
         (mk_pointer (length l) 0) w =
    Ok (mk_stream
          (l ++ [mk_chunk (Z.max usable_chunk_size (len w)) (len w)
                   (splice (data (new_chunk (len w))) 0 w)])
          (Some (length l)) z).
Proof.
  intros Hw. rewrite memcpy_last.
  destruct (new_chunk_capacity (len w) ltac:(lia)) as (Hfit & Hnl & Hno & Hnd).
  rewrite <- (new_chunk_max (len w)) by lia. rewrite Hno.
  pose proof (storage_value (new_chunk (len w))) as Hsv.
  destruct ((0 <=? 0) && (0 + len w <=? storage (new_chunk (len w)))) eqn:E.
  2:{ apply andb_false_iff in E. destruct E as [E|E]; apply Z.leb_gt in E; lia. }
  reflexivity.
Qed.

(** [write(bytes_view)] on a stream whose current chunk is of the standard
    size: the chunk is filled to its end before another is opened. *)
Lemma write_bytes_total (s : bytes_ostream) (v : list byte) :
  counted s -> within s -> current_standard s ->
  filled (_begin s) + len v < 2 ^ 32 ->
  exists s', write_bytes s v = Ok s' /\ within s' /\
    (len v <= usable_chunk_size -> current_standard s') /\
    (v <> [] -> _begin s = [] ->
       layout s' = [(Z.max usable_chunk_size (len v), len v)]) /\
    (forall init cur, v <> [] -> _begin s = init ++ [cur] ->
       layout s' = map (fun ch => (capacity ch, offset ch)) init ++
         (if len v <=? usable_chunk_size - offset cur
          then [(usable_chunk_size, offset cur + len v)]
          else [(usable_chunk_size, usable_chunk_size);
                (Z.max usable_chunk_size (len v - (usable_chunk_size - offset cur)),
                 len v - (usable_chunk_size - offset cur))])).
Proof.
  intros Hk Hw Hcs Hf.
  destruct v as [|b v0].
  { exists s. split; [reflexivity|]. split; [exact Hw|]. split; [auto|].
    split; [congruence|]. intros; congruence. }
  assert (b :: v0 <> []) as Hne by discriminate.
  rewrite (write_bytes_nonempty s _ Hne).
  assert (1 <= len (b :: v0)) as Hlen by (rewrite len_cons; pose proof (len_nonneg v0); lia).
  set (v := b :: v0) in *. clearbody v. clear b v0.
  pose proof Hk as (Hl & Ho & Hz).
  pose proof (filled_nonneg _ Ho) as Hfs.
  destruct (linked_facing s Hl) as [Hb Hc|init cur Hb Hc].
  - rewrite (current_space_left_none s Hc). cbn [bind].
    destruct (len v <=? 0) eqn:E; [apply Z.leb_le in E; lia|]. clear E.
    cbn [Z.eqb bind]. rewrite wrap32_small by lia.
    rewrite (alloc_none s _ Hb Hc).
    destruct (len v <=? 0) eqn:E; [apply Z.leb_le in E; lia|]. clear E.
    cbn [bind]. rewrite <- (len_map Some v). rewrite open_chunk by (rewrite len_map; lia).
    rewrite !len_map.
    eexists. split; [reflexivity|]. split; [|split; [|split]].
    + unfold within. cbn [_begin]. apply Forall_last. split; [exact Hw|].
      unfold chunk_within. cbn [capacity offset]. lia.
    + intros Hs. apply current_standard_last. cbn [capacity]. lia.
    + intros _ _. rewrite layout_chain, Hb. reflexivity.
    + intros init cur _ H. rewrite Hb in H. now destruct init.
  - rewrite (current_space_left_last s init cur Hb Hc). cbn [bind].
    assert (capacity cur = usable_chunk_size) as Hcap.
    { apply (Hcs (length init) cur Hc). rewrite Hb. apply nth_error_last. }
    unfold within in Hw. pose proof Hw as Hw'. pose proof Ho as Ho'.
    rewrite Hb in Hw', Ho', Hf.
    apply Forall_last in Hw'. apply Forall_last in Ho'.
    destruct Hw' as [Hwi Hwc]. destruct Ho' as [Hoi [Hoc Hlc]].
    unfold chunk_within in Hwc. rewrite filled_app in Hf.
    cbn [filled fold_right] in Hf. pose proof (filled_nonneg _ Hoi) as Hfi.
    rewrite (wrap32_small (usable_chunk_size - offset cur)) by (rewrite usable_chunk_size_value in *; lia).
    rewrite Hc. rewrite (stream_eta s _ _ Hb Hc). rewrite deref_last. cbn [bind].
    assert (forall init0 cur0, init ++ [cur] = init0 ++ [cur0] -> init0 = init /\ cur0 = cur)
      as Hinj.
    { intros init0 cur0 H. apply app_inj_tail in H. destruct H; now subst. }
    destruct (len v <=? usable_chunk_size - offset cur) eqn:Efit.
    + apply Z.leb_le in Efit.
      rewrite memcpy_last. rewrite len_map.
      pose proof (storage_value cur) as Hsv.
      destruct ((0 <=? offset cur) && (offset cur + len v <=? storage cur)) eqn:E.
      2:{ apply andb_false_iff in E. destruct E as [E|E]; apply Z.leb_gt in E; lia. }
      cbn [bind]. rewrite advance_last. cbn [capacity offset data].
      rewrite (wrap32_small (offset cur + len v)) by (rewrite usable_chunk_size_value in *; lia).
      eexists. split; [reflexivity|]. split; [|split; [|split]].
      * unfold within. cbn [_begin]. apply Forall_last. split; [exact Hwi|].
        unfold chunk_within. cbn [capacity offset]. lia.
      * intros _. apply current_standard_last. exact Hcap.
      * intros _ H. cbn [_begin] in H. now destruct init.
      * intros init0 cur0 _ H. cbn [_begin] in H. apply Hinj in H.
        destruct H as [-> ->].
        rewrite layout_chain, map_app. cbn [map capacity offset].
        apply Z.leb_le in Efit. rewrite Efit, Hcap. reflexivity.
    + apply Z.leb_gt in Efit.
      set (room := usable_chunk_size - offset cur) in *.
      assert (0 <= room) as Hroom by (unfold room; lia).
      assert (exists s1,
        (if room =? 0
         then Ok (mk_stream (init ++ [cur]) (Some (length init)) (_size s), v)
         else
           s1 <- memcpy (mk_stream (init ++ [cur]) (Some (length init)) (_size s))
                   (mk_pointer (length init) (offset cur))
                   (map Some (firstn (Z.to_nat room) v)) ;;
           s2 <- advance s1 (length init) room ;;
           Ok (s2, skipn (Z.to_nat room) v)) =
        Ok (mk_stream
              (init ++ [mk_chunk usable_chunk_size usable_chunk_size (data s1)])
              (Some (length init)) (to_size_type (_size s + room)),
            skipn (Z.to_nat room) v) /\
        len (data s1) = usable_chunk_size + 4) as (c1 & Hfill & Hc1).
      { pose proof (storage_value cur) as Hsc.
        destruct (room =? 0) eqn:Er.
        - apply Z.eqb_eq in Er. exists cur. split; [|lia].
          rewrite Er. cbn [Z.to_nat skipn]. rewrite Z.add_0_r.
          rewrite (wrap32_small (_size s)) by (rewrite Hz, Hb, filled_app; cbn [filled fold_right]; lia).
          replace usable_chunk_size with (offset cur) at 2 by (unfold room in Er; lia).
          rewrite <- Hcap at 1. now rewrite chunk_eta.
        - apply Z.eqb_neq in Er.
          rewrite memcpy_last, len_map, len_firstn by lia.
          destruct ((0 <=? offset cur) && (offset cur + room <=? storage cur)) eqn:E.
          2:{ apply andb_false_iff in E. destruct E as [E|E]; apply Z.leb_gt in E;
              unfold room in *; lia. }
          cbn [bind]. rewrite advance_last. cbn [capacity offset data bind].
          eexists (mk_chunk 0 0 _). cbn [data]. split.
          + rewrite Hcap.
            replace (offset cur + room) with usable_chunk_size by (unfold room; lia).
            rewrite (wrap32_small usable_chunk_size) by (rewrite usable_chunk_size_value; lia).
            reflexivity.
          + rewrite splice_length; rewrite ?len_map, ?len_firstn; unfold room in *; lia. }
      rewrite Hfill. cbn [bind].
      set (v1 := skipn (Z.to_nat room) v) in *.
      assert (len v1 = len v - room) as Hv1 by (unfold v1; rewrite len_skipn; lia).
      rewrite (wrap32_small (len v1)) by lia.
      rewrite (alloc_last _ init (mk_chunk usable_chunk_size usable_chunk_size (data c1)))
        by reflexivity.
      cbn [capacity offset data _begin _size].
      rewrite Z.sub_diag. change (to_size_type 0) with 0.
      destruct (len v1 <=? 0) eqn:E; [apply Z.leb_le in E; lia|]. clear E.
      cbn [bind]. rewrite <- (len_map Some v1).
      rewrite open_chunk by (rewrite len_map; lia). rewrite !len_map.
      eexists. split; [reflexivity|]. split; [|split; [|split]].
      * unfold within. cbn [_begin]. rewrite <- app_assoc. cbn [app].
        apply Forall_app. split; [exact Hwi|].
        constructor; [|constructor; [|constructor]];
          unfold chunk_within; cbn [capacity offset]; lia.
      * intros Hs. apply current_standard_last. cbn [capacity]. lia.
      * intros _ H. cbn [_begin] in H. now destruct init.
      * intros init0 cur0 _ H. cbn [_begin] in H. apply Hinj in H.
        destruct H as [-> ->].
        rewrite layout_chain, !map_app. cbn [map capacity offset].
        apply Z.leb_gt in Efit. fold room. rewrite Efit, Hv1.
        rewrite <- app_assoc. reflexivity.
Qed.

Lemma write_total (s : bytes_ostream) (n : nat) (val : Z) :
  counted s -> within s -> current_standard s ->
  1 <= Z.of_nat n -> filled (_begin s) + Z.of_nat n < 2 ^ 32 ->
  exists s', write s n val = Ok s' /\ within s' /\
    (Z.of_nat n <= usable_chunk_size -> current_standard s').
Proof.
  intros Hk Hw Hcs Hn Hf. unfold write.
  assert (len (map Some (hton n val)) = Z.of_nat n) as Hlen
      by now rewrite len_map, len_hton.
  destruct (fill_total s (map Some (hton n val)) Hk Hw Hcs
              ltac:(rewrite Hlen; lia) ltac:(rewrite Hlen; lia))
    as (s1 & p & s' & Ha & Hm & Hw' & Hs').
  rewrite Hlen in *. rewrite Ha. cbn [bind]. exists s'. auto.
Qed.

Lemma write_place_holder_total (s : bytes_ostream) (n : nat) :
  counted s -> within s -> current_standard s ->
  1 <= Z.of_nat n -> filled (_begin s) + Z.of_nat n < 2 ^ 32 ->
  exists s' p, write_place_holder s n = Ok (s', p) /\ within s' /\
    (Z.of_nat n <= usable_chunk_size -> current_standard s').
Proof.
  intros Hk Hw Hcs Hn Hf. unfold write_place_holder.
  destruct (alloc_total s _ Hk Hw Hcs Hn Hf)
    as (init & cur & at_ & Ha & H0 & Hoff & Hcap & Hlen & Hwi & Hstd & _).
  rewrite Ha. eexists _, _. split; [reflexivity|]. split.
  - unfold within. cbn [_begin]. apply Forall_last. split; [exact Hwi|exact Hcap].
  - intros Hs. apply current_standard_last. auto.
Qed.

Lemma write_blob_total (s : bytes_ostream) (v : list byte) :
  counted s -> within s -> current_standard s ->
  filled (_begin s) + (4 + len v) < 2 ^ 32 ->
  exists s', write_blob s v = Ok s' /\ within s' /\
    (4 + len v <= usable_chunk_size -> current_standard s').
Proof.
  intros Hk Hw Hcs Hf. unfold write_blob.
  pose proof Hk as (_ & Ho & _). pose proof (filled_nonneg _ Ho) as Hfs.
  pose proof (len_nonneg v) as Hv.
  rewrite (wrap32_small (len v)) by lia. rewrite Z.eqb_refl.
  destruct (write_total s 4 (len v) Hk Hw Hcs ltac:(lia) ltac:(lia))
    as (s1 & Hw1 & Hwi1 & Hcs1).
  rewrite Hw1. cbn [bind].
  pose proof (write_advances s s1 4 (len v) Hk ltac:(lia) Hw1) as (Hk1 & Hf1 & _).
  rewrite len_map, len_hton in Hf1.
  specialize (Hcs1 ltac:(rewrite usable_chunk_size_value; lia)).
  destruct (write_bytes_total s1 v Hk1 Hwi1 Hcs1 ltac:(lia))
    as (s' & Hb & Hw' & Hcs' & _).
  exists s'. split; [exact Hb|]. split; [exact Hw'|].
  intros H. apply Hcs'. lia.
Qed.

Lemma append_standard (s o : bytes_ostream) :
  counted s -> within s -> current_standard s ->
  counted o -> within o ->
  filled (_begin s) + size o < 2 ^ 32 ->
  exists s', append s o = Ok s' /\ within s' /\
    (size o <= usable_chunk_size -> current_standard s').
Proof.
  intros Hk Hw Hcs Hko Hwo Hn. unfold append.
  pose proof (counted_readable o Hko Hwo) as Hr.
  pose proof (len_chain_payload _ Hr) as Hlen.
  pose proof Hko as (_ & Hoo & Hzo). unfold size in *.
  destruct (0 <? _size o) eqn:E; [|exists s; auto].
  apply Z.ltb_lt in E.
  destruct (alloc_total s (_size o) Hk Hw Hcs ltac:(lia) Hn)
    as (init & cur & at_ & Ha & H0 & Hoff & Hcap & Hlc & Hwi & Hstd & _).
  rewrite Ha. cbn [bind]. pose proof (storage_value cur) as Hsc.
  rewrite copy_chain_last; auto; try lia.
  destruct (at_ + len (concat (map payload (_begin o))) <=? storage cur) eqn:Ec;
    [|apply Z.leb_gt in Ec; lia].
  eexists. split; [reflexivity|]. split.
  - unfold within. cbn [_begin]. apply Forall_last. split; [exact Hwi|].
    unfold chunk_within. cbn [capacity offset]. lia.
  - intros Hs. apply current_standard_last. cbn [capacity]. auto.
Qed.

(** Every operation is carried out on a stream whose current chunk is of
    the standard size. *)
Lemma step_total (s : bytes_ostream) (o : op) :
  counted s -> within s -> current_standard s ->
  op_ok o -> op_sized o ->
  filled (_begin s) + byte_length o < 2 ^ 32 ->
  exists s', step s o = Ok s' /\ within s' /\
    (op_small o -> current_standard s').
Proof.
  intros Hk Hw Hcs Hok Hsz Hf. unfold op_small.
  destruct o as [n val|v|v|n|o]; cbn [step byte_length op_ok op_sized] in *.
  - now apply write_total.
  - destruct (write_bytes_total s v Hk Hw Hcs Hf) as (s' & H1 & H2 & H3 & _).
    exists s'. auto.
  - now apply write_blob_total.
  - destruct (write_place_holder_total s n Hk Hw Hcs Hsz Hf) as (s' & p & H1 & H2 & H3).
    rewrite H1. cbn [bind]. exists s'. auto.
  - destruct Hok as [Hko Hwo]. now apply append_standard.
Qed.

Lemma step_kept (s : bytes_ostream) (o : op) :
  well_kept s -> op_ok o -> op_sized o ->
  filled (_begin s) + byte_length o < 2 ^ 32 ->
  exists s', step s o = Ok s' /\
    counted s' /\ within s' /\ cells_ok s' /\
    (op_small o -> current_standard s') /\
    filled (_begin s') = filled (_begin s) + byte_length o /\
    contents s' = contents s ++ written o.
Proof.
  intros (Hk & Hw & Hc & Hcs) Hok Hsz Hf.
  destruct (step_total s o Hk Hw Hcs Hok Hsz Hf) as (s' & Hs & Hw' & Hcs').
  pose proof (step_advances s s' o Hok Hk Hf Hs) as (Hk' & Hf' & _ & Hcont).
  destruct (Hcont Hc Hw') as [Hc' Hct].
  rewrite (len_written o Hok) in Hf'.
  exists s'. repeat split; auto; try apply Hk'.
Qed.

Lemma run_kept (ops : list op) : forall (s : bytes_ostream),
  well_kept s -> Forall op_ok ops -> Forall op_sized ops ->
  Forall op_small (removelast ops) ->
  filled (_begin s) + total_length ops < 2 ^ 32 ->
  exists s', run s ops = Ok s' /\
    counted s' /\ within s' /\ cells_ok s' /\
    filled (_begin s') = filled (_begin s) + total_length ops /\
    contents s' = contents s ++ concat (map written ops).
Proof.
  induction ops as [|o ops IH]; intros s Hs Hok Hsz Hsm Hf.
  - exists s. destruct Hs as (Hk & Hw & Hc & _). cbn [run total_length fold_right map concat].
    rewrite app_nil_r, Z.add_0_r. auto 10.
  - inversion Hok as [|? ? Hok1 Hok2]; subst.
    inversion Hsz as [|? ? Hsz1 Hsz2]; subst.
    cbn [total_length fold_right] in Hf. fold (total_length ops) in Hf.
    pose proof (total_length_nonneg ops Hok2) as Ht.
    destruct (step_kept s o Hs Hok1 Hsz1 ltac:(lia))
      as (s1 & Hstep & Hk1 & Hw1 & Hc1 & Hcs1 & Hf1 & Hct1).
    cbn [run]. rewrite Hstep. cbn [bind].
    destruct ops as [|o2 ops].
    + exists s1. cbn [run total_length fold_right map concat]. rewrite app_nil_r.
      rewrite Z.add_0_r. auto 10.
    + change (removelast (o :: o2 :: ops)) with (o :: removelast (o2 :: ops)) in Hsm.
      inversion Hsm as [|? ? Hsm1 Hsm2]; subst.
      destruct (IH s1) as (s' & Hr & Hk' & Hw' & Hc' & Hf' & Hct'); auto.
      { repeat split; auto; try apply Hk1. }
      { lia. }
      exists s'. split; [exact Hr|]. repeat split; auto; try apply Hk'.
      * change (total_length (o :: o2 :: ops))
          with (byte_length o + total_length (o2 :: ops)). lia.
      * rewrite Hct', Hct1. cbn [map concat]. now rewrite <- app_assoc.
Qed.

Lemma well_kept_fresh : well_kept fresh.
Proof.
  split; [apply counted_fresh|]. split; [constructor|]. split; [apply cells_ok_fresh|].
  intros i ch H. discriminate.
Qed.

(** X1.  The writes that never come near the end of an oversized chunk: on a
    well-kept stream, operations of which every one but the last adds at
    most 496 bytes are all carried out, and [linearize] then returns what
    the stream held followed by what they wrote, in order. *)
Theorem writes_of_a_chunk_or_less_are_carried_out
    (s : bytes_ostream) (ops : list op) :
  well_kept s ->
  Forall op_ok ops -> Forall op_sized ops ->
  Forall op_small (removelast ops) ->
  size s + total_length ops < 2 ^ 32 ->
  exists s' s'',
    run s ops = Ok s' /\
    counted s' /\ within s' /\ cells_ok s' /\
    size s' = size s + total_length ops /\
    contents s' = contents s ++ concat (map written ops) /\
    linearize s' = Ok (s'', contents s ++ concat (map written ops)) /\
    view s'' = Ok (contents s ++ concat (map written ops)).
Proof.
  intros Hs Hok Hsz Hsm Hf. pose proof Hs as ((_ & _ & Hz) & _).
  unfold size in *. rewrite Hz in Hf.
  destruct (run_kept ops s Hs Hok Hsz Hsm Hf)
    as (s' & Hr & Hk' & Hw' & Hc' & Hf' & Hct').
  pose proof (total_length_nonneg ops Hok) as Ht.
  destruct (linearize_contents s' Hk' Hw' ltac:(lia)) as (s'' & Hl & Hv & _).
  exists s', s''. rewrite <- Hct'. pose proof Hk' as (_ & _ & Hz').
  repeat split; auto; try apply Hk'. lia.
Qed.

Lemma writes_of_a_chunk_or_less_are_carried_out_witness :
  exists s' s'',
    run fresh [Write 2 0x1234; WriteBlob [x63; x61; x66]; WritePlaceHolder 4;
               WriteBytes (repeat x41 600)] = Ok s' /\
    size s' = 613 /\
    linearize s' =
      Ok (s'', map Some [x12; x34; x00; x00; x00; x03; x63; x61; x66] ++
               repeat None 4 ++ map Some (repeat x41 600)).
Proof.
  destruct (writes_of_a_chunk_or_less_are_carried_out fresh
              [Write 2 0x1234; WriteBlob [x63; x61; x66]; WritePlaceHolder 4;
               WriteBytes (repeat x41 600)])
    as (s' & s'' & Hr & _ & _ & _ & Hz & _ & Hl & _).
  - apply well_kept_fresh.
  - repeat constructor.
  - repeat constructor; cbn; lia.
  - repeat constructor; unfold op_small; rewrite usable_chunk_size_value; cbn; lia.
  - vm_compute. reflexivity.
  - exists s', s''. split; [exact Hr|]. split; [exact Hz|]. exact Hl.
Defined.

(* ================================================================== *)
(** * Stores to cells already handed out *)
(* ================================================================== *)

Lemma nth_error_patch_chain (k : nat) (at_ : Z) (w : list cell) (l : list chunk) :
  forall i,
    nth_error (patch_chain k at_ w l) i =
    option_map (fun ch => if Nat.eqb i k then patch_chunk at_ w ch else ch)
               (nth_error l i).
Proof.
  revert k. induction l as [|c l IH]; intros k i.
  - destruct k, i; reflexivity.
  - destruct k, i; cbn [patch_chain nth_error option_map Nat.eqb]; try reflexivity.
    + destruct (nth_error l i); reflexivity.
    + apply IH.
Qed.

Lemma length_patch_chain (k : nat) (at_ : Z) (w : list cell) (l : list chunk) :
  length (patch_chain k at_ w l) = length l.
Proof.
  revert k. induction l as [|c l IH]; intros [|k]; cbn [patch_chain length]; auto.
Qed.

Lemma patch_chain_update (k : nat) (at_ : Z) (w : list cell) (l : list chunk) :
  forall (i : nat) (x : chunk),
    patch_chain k at_ w (update_nth i x l) =
    update_nth i (if Nat.eqb i k then patch_chunk at_ w x else x)
               (patch_chain k at_ w l).
Proof.
  revert k. induction l as [|c l IH]; intros k i x.
  - destruct k, i; reflexivity.
  - destruct k, i; cbn [patch_chain update_nth Nat.eqb]; try reflexivity.
    now rewrite IH.
Qed.

Lemma patch_chain_app (k : nat) (at_ : Z) (w : list cell) (l m : list chunk) :
  (k < length l)%nat ->
  patch_chain k at_ w (l ++ m) = patch_chain k at_ w l ++ m.
Proof.
  revert k. induction l as [|c l IH]; intros k Hk; cbn [length] in Hk; [lia|].
  destruct k; cbn [patch_chain app]; [reflexivity|].
  rewrite IH by lia. reflexivity.
Qed.

Lemma patch_chain_beyond (k : nat) (at_ : Z) (w : list cell) (l : list chunk) :
  (length l <= k)%nat -> patch_chain k at_ w l = l.
Proof.
  revert k. induction l as [|c l IH]; intros k Hk; [now destruct k|].
  cbn [length] in Hk. destruct k; [lia|]. cbn [patch_chain]. rewrite IH by lia.
  reflexivity.
Qed.

Lemma update_nth_patch (k : nat) (at_ : Z) (w : list cell) (l : list chunk) :
  forall ch, nth_error l k = Some ch ->
    update_nth k (patch_chunk at_ w ch) l = patch_chain k at_ w l.
Proof.
  revert k. induction l as [|c l IH]; intros k ch H.
  - destruct k; discriminate.
  - destruct k; cbn [nth_error] in H.
    + inversion H; subst. reflexivity.
    + cbn [update_nth patch_chain]. now rewrite (IH k ch H).
Qed.

(** The cell at index [i] after a store. *)
Lemma nth_error_splice (cells : list cell) (at_ : Z) (w : list cell) (i : nat) :
  0 <= at_ -> at_ + len w <= len cells ->
  nth_error (splice cells at_ w) i =
    if (i <? Z.to_nat at_)%nat then nth_error cells i
    else if (i <? Z.to_nat at_ + length w)%nat then nth_error w (i - Z.to_nat at_)
    else nth_error cells i.
Proof.
  intros Ha Hb. unfold splice, len in *.
  assert (length (firstn (Z.to_nat at_) cells) = Z.to_nat at_) as Hf
    by (rewrite length_firstn; lia).
  rewrite nth_error_app, Hf.
  destruct (i <? Z.to_nat at_)%nat eqn:E1.
  - rewrite nth_error_firstn, E1. reflexivity.
  - apply Nat.ltb_ge in E1. rewrite nth_error_app.
    destruct (i <? Z.to_nat at_ + length w)%nat eqn:E2.
    + apply Nat.ltb_lt in E2.
      destruct (i - Z.to_nat at_ <? length w)%nat eqn:E3; [reflexivity|].
      apply Nat.ltb_ge in E3. lia.
    + apply Nat.ltb_ge in E2.
      destruct (i - Z.to_nat at_ <? length w)%nat eqn:E3.
      { apply Nat.ltb_lt in E3. lia. }
      rewrite nth_error_skipn. f_equal. lia.
Qed.

(** Two stores to cells that do not overlap can be made in either order. *)
Lemma splice_commute (cells : list cell) (a b : Z) (w v : list cell) :
  0 <= a -> a + len w <= b -> b + len v <= len cells ->
  splice (splice cells a w) b v = splice (splice cells b v) a w.
Proof.
  intros Ha Hab Hb. pose proof (len_nonneg w) as Hw. pose proof (len_nonneg v) as Hv.
  apply nth_error_ext. intros i.
  rewrite (nth_error_splice (splice cells a w) b v)
    by (rewrite ?splice_length; lia).
  rewrite (nth_error_splice (splice cells b v) a w)
    by (rewrite ?splice_length; lia).
  rewrite !nth_error_splice by lia.
  unfold len in *.
  destruct (i <? Z.to_nat b)%nat eqn:E1, (i <? Z.to_nat a)%nat eqn:E2,
           (i <? Z.to_nat a + length w)%nat eqn:E3,
           (i <? Z.to_nat b + length v)%nat eqn:E4; try reflexivity;
    repeat match goal with
           | H : (_ <? _)%nat = true |- _ => apply Nat.ltb_lt in H
           | H : (_ <? _)%nat = false |- _ => apply Nat.ltb_ge in H
           end; lia.
Qed.

Lemma deref_patch (p : pointer) (w : list cell) (s : bytes_ostream) (i : nat) :
  deref (patch p w s) i =
    (ch <- deref s i ;;
     Ok (if Nat.eqb i (in_chunk p) then patch_chunk (at_byte p) w ch else ch)).
Proof.
  unfold deref, patch. cbn [_begin]. rewrite nth_error_patch_chain.
  destruct (nth_error (_begin s) i); reflexivity.
Qed.

Lemma current_space_left_patch (p : pointer) (w : list cell) (s : bytes_ostream) :
  current_space_left (patch p w s) = current_space_left s.
Proof.
  unfold current_space_left. cbn [patch _current].
  destruct (_current s) as [i|]; [|reflexivity].
  rewrite deref_patch. destruct (deref s i) as [ch|f]; [|reflexivity].
  cbn [bind]. destruct (Nat.eqb i (in_chunk p)); reflexivity.
Qed.

Lemma alloc_patch (p : pointer) (w : list cell) (s : bytes_ostream) (n : Z) :
  linked s -> (in_chunk p < length (_begin s))%nat ->
  alloc (patch p w s) n = ('(s1, q) <- alloc s n ;; Ok (patch p w s1, q)).
Proof.
  intros Hl Hp. unfold alloc. rewrite current_space_left_patch.
  destruct (current_space_left s) as [space|f]; [|reflexivity].
  cbn [bind]. unfold linked in Hl. cbn [patch _current _begin _size].
  destruct (n <=? space).
  - destruct (_current s) as [i|]; [|reflexivity].
    rewrite deref_patch. destruct (deref s i) as [ch|f]; [|reflexivity].
    cbn [bind]. unfold patch. cbn [_begin _current _size in_chunk at_byte].
    rewrite patch_chain_update.
    destruct (Nat.eqb i (in_chunk p)); reflexivity.
  - destruct (_current s) as [i|].
    + rewrite deref_patch. destruct (deref s i) as [ch|f]; [|reflexivity].
      cbn [bind]. unfold patch. cbn [_begin _current _size].
      rewrite Hl, firstn_all.
      rewrite <- (length_patch_chain (in_chunk p) (at_byte p) w (_begin s)), firstn_all.
      rewrite patch_chain_app by exact Hp. reflexivity.
    + rewrite Hl in Hp. cbn in Hp. lia.
Qed.

Lemma memcpy_patch (p : pointer) (w : list cell) (s : bytes_ostream)
    (q : pointer) (v : list cell) :
  0 <= at_byte p -> beyond p w q ->
  (forall ch, nth_error (_begin s) (in_chunk q) = Some ch ->
     len (data ch) = storage ch) ->
  memcpy (patch p w s) q v = (s' <- memcpy s q v ;; Ok (patch p w s')).
Proof.
  intros Hp Hq Hlen. unfold memcpy. rewrite deref_patch. unfold deref.
  destruct (nth_error (_begin s) (in_chunk q)) as [ch|] eqn:Hn; [|reflexivity].
  cbn [bind]. specialize (Hlen ch eq_refl).
  assert (capacity (if Nat.eqb (in_chunk q) (in_chunk p)
                    then patch_chunk (at_byte p) w ch else ch) = capacity ch) as Hcp
    by (destruct (Nat.eqb _ _); reflexivity).
  rewrite (storage_same _ _ Hcp), Hcp.
  assert (offset (if Nat.eqb (in_chunk q) (in_chunk p)
                  then patch_chunk (at_byte p) w ch else ch) = offset ch) as ->
    by (destruct (Nat.eqb _ _); reflexivity).
  pose proof (storage_value ch) as Hsv.
  destruct ((0 <=? at_byte q) && (at_byte q + len v <=? storage ch)) eqn:E;
    [|reflexivity].
  apply andb_prop in E. destruct E as [E1 E2]. apply Z.leb_le in E1, E2.
  cbn [bind]. unfold patch. cbn [_begin _current _size]. f_equal. f_equal.
  rewrite patch_chain_update.
  destruct (Nat.eqb (in_chunk q) (in_chunk p)) eqn:Ek; [|reflexivity].
  apply Nat.eqb_eq in Ek. destruct Hq as [Hq|Hq]; [congruence|].
  f_equal. unfold patch_chunk. cbn [capacity offset data]. f_equal.
  apply splice_commute; lia.
Qed.

Lemma advance_patch (p : pointer) (w : list cell) (s : bytes_ostream) (i : nat) (n : Z) :
  advance (patch p w s) i n = (s' <- advance s i n ;; Ok (patch p w s')).
Proof.
  unfold advance. rewrite deref_patch.
  destruct (deref s i) as [ch|f]; [|reflexivity].
  cbn [bind]. unfold patch. cbn [_begin _current _size]. f_equal. f_equal.
  rewrite patch_chain_update. destruct (Nat.eqb i (in_chunk p)); reflexivity.
Qed.

Lemma memcpy_is_patch (s : bytes_ostream) (p : pointer) (w : list cell) (ch : chunk) :
  nth_error (_begin s) (in_chunk p) = Some ch ->
  0 <= at_byte p -> at_byte p + len w <= storage ch ->
  memcpy s p w = Ok (patch p w s).
Proof.
  intros Hn H0 Hc. unfold memcpy, deref. rewrite Hn. cbn [bind].
  pose proof (storage_value ch) as Hsv.
  destruct ((0 <=? at_byte p) && (at_byte p + len w <=? storage ch)) eqn:E.
  2:{ apply andb_false_iff in E. destruct E as [E|E]; apply Z.leb_gt in E; lia. }
  unfold patch. f_equal. f_equal.
  now apply update_nth_patch.
Qed.

Lemma memcpy_keeps_length (s s1 : bytes_ostream) (q : pointer) (v : list cell) :
  memcpy s q v = Ok s1 ->
  (forall ch, nth_error (_begin s) (in_chunk q) = Some ch ->
     len (data ch) = storage ch) ->
  forall ch, nth_error (_begin s1) (in_chunk q) = Some ch ->
    len (data ch) = storage ch.
Proof.
  unfold memcpy, deref. intros H Hlen ch1 Hn1.
  destruct (nth_error (_begin s) (in_chunk q)) as [ch|] eqn:Hn; [|discriminate].
  cbn [bind] in H.
  pose proof (storage_value ch) as Hsv.
  destruct ((0 <=? at_byte q) && (at_byte q + len v <=? storage ch)) eqn:E;
    [|discriminate].
  apply andb_prop in E. destruct E as [E1 E2]. apply Z.leb_le in E1, E2.
  inversion H; subst s1. clear H. cbn [_begin] in Hn1.
  specialize (Hlen ch eq_refl).
  change (mk_chunk (capacity ch) (offset ch) (splice (data ch) (at_byte q) v))
    with (patch_chunk (at_byte q) v ch) in Hn1.
  rewrite (update_nth_patch _ (at_byte q) v _ ch Hn) in Hn1.
  rewrite nth_error_patch_chain, Hn, Nat.eqb_refl in Hn1. cbn in Hn1.
  inversion Hn1; subst ch1. unfold patch_chunk.
  rewrite (storage_value (mk_chunk _ _ _)). cbn [data capacity].
  rewrite splice_length; lia.
Qed.

Lemma copy_chain_patch (p : pointer) (w : list cell) (src : list chunk) :
  forall (s : bytes_ostream) (q : pointer),
  0 <= at_byte p -> beyond p w q ->
  Forall (fun r => 0 <= offset r) src ->
  (forall ch, nth_error (_begin s) (in_chunk q) = Some ch ->
     len (data ch) = storage ch) ->
  copy_chain src (patch p w s) q = (s' <- copy_chain src s q ;; Ok (patch p w s')).
Proof.
  induction src as [|r src IH]; intros s q Hp Hq Hsrc Hlen; [reflexivity|].
  inversion Hsrc as [|? ? Hr Hrest]; subst.
  cbn [copy_chain]. destruct (read r (offset r)) as [cells|f]; [|reflexivity].
  cbn [bind]. rewrite memcpy_patch by assumption.
  destruct (memcpy s q cells) as [s1|f] eqn:Hm; [|reflexivity].
  cbn [bind]. apply IH; auto.
  - destruct Hq as [Hq|Hq]; [left; exact Hq|right; cbn [at_byte]; lia].
  - cbn [in_chunk]. eapply memcpy_keeps_length; eauto.
Qed.

Lemma covered_in_chain (s : bytes_ostream) (p : pointer) (w : list cell) :
  covered s p w -> (in_chunk p < length (_begin s))%nat.
Proof.
  intros (ch & Hn & _). apply nth_error_Some. congruence.
Qed.

Lemma below_nth (l l' : list chunk) :
  below l l' ->
  forall k c, nth_error l k = Some c ->
    exists c', nth_error l' k = Some c' /\
      capacity c = capacity c' /\ offset c <= offset c'.
Proof.
  induction 1 as [l'|c c' l l' Hc Ho Hb IH]; intros k x Hn.
  - destruct k; discriminate.
  - destruct k; cbn [nth_error] in *.
    + inversion Hn; subst. exists c'. auto.
    + apply IH. exact Hn.
Qed.

Lemma covered_below (s s' : bytes_ostream) (p : pointer) (w : list cell) :
  covered s p w -> below (_begin s) (_begin s') -> covered s' p w.
Proof.
  intros (ch & Hn & H0 & Ho & Hc) Hb.
  destruct (below_nth _ _ Hb _ _ Hn) as (ch' & Hn' & Hcap & Hoff).
  pose proof (storage_same _ _ Hcap).
  exists ch'. repeat split; auto; lia.
Qed.

Lemma counted_nth (s : bytes_ostream) (i : nat) (ch : chunk) :
  counted s -> nth_error (_begin s) i = Some ch ->
  0 <= offset ch /\ len (data ch) = storage ch.
Proof.
  intros (_ & Ho & _) Hn. apply nth_error_In in Hn.
  rewrite Forall_forall in Ho. exact (Ho ch Hn).
Qed.

(** The region [alloc] hands out lies past every region handed out
    before. *)
Lemma alloc_beyond (s s1 : bytes_ostream) (n : Z) (p q : pointer) (w : list cell) :
  linked s -> covered s p w ->
  alloc s n = Ok (s1, q) -> beyond p w q.
Proof.
  intros Hl (ch & Hn & H0 & Ho & Hc) Ha.
  destruct (linked_facing s Hl) as [Hb _|init cur Hb Hcur].
  - rewrite Hb in Hn. destruct (in_chunk p); discriminate.
  - rewrite (alloc_last s init cur n Hb Hcur) in Ha.
    assert (in_chunk p < length (_begin s))%nat as Hlt
      by (apply nth_error_Some; congruence).
    destruct (n <=? to_size_type (usable_chunk_size - offset cur)).
    + inversion Ha; subst. unfold beyond. cbn [in_chunk at_byte].
      destruct (Nat.eq_dec (length init) (in_chunk p)) as [E|E]; [|left; exact E].
      right. rewrite Hb, <- E, nth_error_last in Hn. inversion Hn; subst. exact Ho.
    + inversion Ha; subst. left. cbn [in_chunk]. lia.
Qed.

Lemma alloc_target (s s1 : bytes_ostream) (n : Z) (q : pointer) :
  counted s -> 0 <= n -> filled (_begin s) + n < 2 ^ 32 ->
  alloc s n = Ok (s1, q) ->
  forall ch, nth_error (_begin s1) (in_chunk q) = Some ch ->
    len (data ch) = storage ch.
Proof.
  intros Hk H0 Hf Ha ch Hn.
  destruct (alloc_spec s s1 n q Hk H0 Hf Ha)
    as (init & cur & at_ & z1 & -> & -> & _ & _ & Hlen & _).
  cbn [_begin in_chunk] in Hn. rewrite nth_error_last in Hn.
  now inversion Hn; subst.
Qed.

Lemma counted_linked (s : bytes_ostream) : counted s -> linked s.
Proof. now intros (H & _). Qed.

Ltac patch_side :=
  first [ assumption
        | apply counted_linked; assumption
        | eapply covered_in_chain; eassumption ].

Lemma write_patch (s : bytes_ostream) (n : nat) (val : Z) (p : pointer) (w : list cell) :
  counted s -> filled (_begin s) + Z.of_nat n < 2 ^ 32 -> covered s p w ->
  write (patch p w s) n val = (s' <- write s n val ;; Ok (patch p w s')).
Proof.
  intros Hk Hf Hcov. unfold write.
  rewrite alloc_patch by patch_side.
  destruct (alloc s (Z.of_nat n)) as [[s1 q]|f] eqn:Ha; [|reflexivity].
  cbn [bind]. apply memcpy_patch.
  - now destruct Hcov as (ch & _ & H0 & _).
  - eapply alloc_beyond; eauto using counted_linked.
  - apply (alloc_target s s1 (Z.of_nat n) q); auto; lia.
Qed.

Lemma write_bytes_patch (s : bytes_ostream) (v : list byte) (p : pointer) (w : list cell) :
  counted s -> filled (_begin s) + len v < 2 ^ 32 -> covered s p w ->
  write_bytes (patch p w s) v = (s' <- write_bytes s v ;; Ok (patch p w s')).
Proof.
  intros Hk Hf Hcov.
  destruct v as [|b v0]; [reflexivity|].
  assert (b :: v0 <> []) as Hne by discriminate.
  assert (1 <= len (b :: v0)) as Hlen by (rewrite len_cons; pose proof (len_nonneg v0); lia).
  set (v := b :: v0) in *. clearbody v. clear b v0.
  rewrite !(write_bytes_nonempty _ _ Hne). rewrite current_space_left_patch.
  pose proof Hk as (Hl & Ho & Hz). pose proof Hcov as (chp & Hnp & Hp0 & Hpo & Hpc).
  destruct (linked_facing s Hl) as [Hb _|init cur Hb Hc].
  { rewrite Hb in Hnp. destruct (in_chunk p); discriminate. }
  rewrite (current_space_left_last s init cur Hb Hc). cbn [bind].
  pose proof (wrap32_range (usable_chunk_size - offset cur)) as Hroom.
  set (room := to_size_type (usable_chunk_size - offset cur)) in *. clearbody room.
  cbn [patch _current]. rewrite Hc. rewrite !deref_patch.
  assert (deref s (length init) = Ok cur) as Hd
    by (unfold deref; rewrite Hb, nth_error_last; reflexivity).
  rewrite Hd. cbn [bind].
  assert (offset (if Nat.eqb (length init) (in_chunk p)
                  then patch_chunk (at_byte p) w cur else cur) = offset cur) as ->
    by (destruct (Nat.eqb _ _); reflexivity).
  assert (beyond p w (mk_pointer (length init) (offset cur))) as Hbey.
  { unfold beyond. cbn [in_chunk at_byte].
    destruct (Nat.eq_dec (length init) (in_chunk p)) as [E|E]; [|left; exact E].
    right. rewrite Hb, <- E, nth_error_last in Hnp. inversion Hnp; subst. exact Hpo. }
  assert (forall ch, nth_error (_begin s) (in_chunk (mk_pointer (length init) (offset cur)))
                       = Some ch -> len (data ch) = storage ch) as Hcur.
  { intros ch Hn. eapply counted_nth; eauto. }
  pose proof Ho as Ho'. rewrite Hb in Ho'. apply Forall_last in Ho'.
  destruct Ho' as [Hoi [Hoc Hlc]]. pose proof (filled_nonneg _ Hoi) as Hfi.
  pose proof Hf as Hf'. rewrite Hb, filled_app in Hf'. cbn [filled fold_right] in Hf'.
  destruct (len v <=? room) eqn:Efit.
  - rewrite memcpy_patch by assumption.
    destruct (memcpy s _ (map Some v)) as [s1|f]; [|reflexivity].
    cbn [bind]. apply advance_patch.
  - apply Z.leb_gt in Efit.
    destruct (room =? 0) eqn:Er.
    + cbn [bind]. rewrite wrap32_small by lia.
      rewrite alloc_patch by patch_side.
      destruct (alloc s (len v)) as [[s1 q]|f] eqn:Ha; [|reflexivity].
      cbn [bind]. apply memcpy_patch; auto.
      * eapply alloc_beyond; eauto.
      * apply (alloc_target s s1 (len v) q); auto; lia.
    + apply Z.eqb_neq in Er.
      rewrite memcpy_patch by assumption.
      destruct (memcpy s _ (map Some (firstn (Z.to_nat room) v))) as [s1|f] eqn:Hm;
        [|reflexivity].
      cbn [bind]. rewrite advance_patch.
      destruct (advance s1 (length init) room) as [s2|f] eqn:Had; [|reflexivity].
      cbn [bind].
      assert (len (map Some (firstn (Z.to_nat room) v) : list (option byte)) = room) as Hw1
        by (rewrite len_map, len_firstn; lia).
      assert (advances s s2 (map Some (firstn (Z.to_nat room) v))) as Hadv.
      { rewrite (stream_eta s _ _ Hb Hc) in Hm, Hk |- *.
        eapply store_advances; eauto.
        - rewrite filled_app. cbn [filled fold_right]. lia.
        - rewrite Hw1. exact Had. }
      destruct Hadv as (Hk2 & Hf2 & Hb2 & _). rewrite Hw1 in Hf2.
      pose proof (covered_below _ _ _ _ Hcov Hb2) as Hcov2.
      set (v1 := skipn (Z.to_nat room) v) in *.
      assert (len v1 = len v - room) as Hv1 by (unfold v1; rewrite len_skipn; lia).
      rewrite wrap32_small by lia.
      rewrite alloc_patch
        by patch_side.
      destruct (alloc s2 (len v1)) as [[s3 q]|f] eqn:Ha; [|reflexivity].
      cbn [bind]. apply memcpy_patch; auto.
      * apply (alloc_beyond s2 s3 (len v1) p q w); auto using counted_linked.
      * apply (alloc_target s2 s3 (len v1) q); auto; lia.
Qed.

Lemma write_blob_patch (s : bytes_ostream) (v : list byte) (p : pointer) (w : list cell) :
  counted s -> filled (_begin s) + (4 + len v) < 2 ^ 32 -> covered s p w ->
  write_blob (patch p w s) v = (s' <- write_blob s v ;; Ok (patch p w s')).
Proof.
  intros Hk Hf Hcov. unfold write_blob. pose proof (len_nonneg v) as Hv.
  destruct (to_size_type (len v) =? len v); [|reflexivity].
  rewrite write_patch by (auto; lia).
  destruct (write s 4 (len v)) as [s1|f] eqn:Hw; [|reflexivity].
  cbn [bind].
  pose proof (write_advances s s1 4 (len v) Hk ltac:(lia) Hw) as (Hk1 & Hf1 & Hb1 & _).
  rewrite len_map, len_hton in Hf1.
  apply write_bytes_patch; auto; [lia|].
  eapply covered_below; eauto.
Qed.

Lemma append_patch (s o : bytes_ostream) (p : pointer) (w : list cell) :
  counted s -> counted o -> filled (_begin s) + size o < 2 ^ 32 -> covered s p w ->
  append (patch p w s) o = (s' <- append s o ;; Ok (patch p w s')).
Proof.
  intros Hk Hko Hf Hcov. unfold append.
  destruct (0 <? size o) eqn:E; [|reflexivity]. apply Z.ltb_lt in E.
  rewrite alloc_patch by patch_side.
  destruct (alloc s (size o)) as [[s1 q]|f] eqn:Ha; [|reflexivity].
  cbn [bind]. apply copy_chain_patch.
  - now destruct Hcov as (ch & _ & H0 & _).
  - apply (alloc_beyond s s1 (size o) p q w); auto using counted_linked.
  - destruct Hko as (_ & Ho & _). eapply Forall_impl; [|exact Ho].
    intros r [Hr _]. exact Hr.
  - apply (alloc_target s s1 (size o) q); auto; lia.
Qed.

(** A store to cells that have been handed out and an operation that
    follows can be made in either order. *)
Lemma step_patch (s : bytes_ostream) (o : op) (p : pointer) (w : list cell) :
  counted s -> op_ok o -> filled (_begin s) + byte_length o < 2 ^ 32 ->
  covered s p w ->
  step (patch p w s) o = (s' <- step s o ;; Ok (patch p w s')).
Proof.
  intros Hk Hok Hf Hcov.
  destruct o as [n val|v|v|n|o]; cbn [step byte_length op_ok] in *.
  - now apply write_patch.
  - now apply write_bytes_patch.
  - now apply write_blob_patch.
  - unfold write_place_holder.
    rewrite alloc_patch by patch_side.
    destruct (alloc s (Z.of_nat n)) as [[s1 q]|f]; reflexivity.
  - destruct Hok as [Hko _]. now apply append_patch.
Qed.

Lemma run_patch (ops : list op) : forall (s : bytes_ostream) (p : pointer) (w : list cell),
  counted s -> Forall op_ok ops ->
  filled (_begin s) + total_length ops < 2 ^ 32 ->
  covered s p w ->
  run (patch p w s) ops = (s' <- run s ops ;; Ok (patch p w s')).
Proof.
  induction ops as [|o ops IH]; intros s p w Hk Hok Hf Hcov; [reflexivity|].
  inversion Hok as [|? ? Hok1 Hok2]; subst.
  cbn [total_length fold_right] in Hf. fold (total_length ops) in Hf.
  pose proof (total_length_nonneg ops Hok2) as Ht.
  pose proof (byte_length_nonneg o Hok1) as Hl.
  cbn [run]. rewrite step_patch by (auto; lia).
  destruct (step s o) as [s1|f] eqn:Hs; [|reflexivity].
  cbn [bind].
  pose proof (step_advances s s1 o Hok1 Hk ltac:(lia) Hs) as (Hk1 & Hf1 & Hb1 & _).
  rewrite (len_written o Hok1) in Hf1.
  apply IH; auto; [lia|]. eapply covered_below; eauto.
Qed.

(* ================================================================== *)
(** * Place holders *)
(* ================================================================== *)

(** Setting a place holder after further writes comes to the same as
    writing the value where the place holder was taken. *)
Lemma set_after_run (s s1 s2 : bytes_ostream) (n : nat) (val : Z) (ops : list op)
    (ph : pointer) :
  counted s -> Forall op_ok ops ->
  filled (_begin s) + Z.of_nat n + total_length ops < 2 ^ 32 ->
  write_place_holder s n = Ok (s1, ph) ->
  run s1 ops = Ok s2 ->
  set s2 ph n val = (s1' <- write s n val ;; run s1' ops).
Proof.
  intros Hk Hok Hf Hph Hrun. unfold write_place_holder in Hph.
  pose proof (total_length_nonneg ops Hok) as Ht.
  pose proof (alloc_advances s s1 (Z.of_nat n) ph Hk ltac:(lia) ltac:(lia) Hph) as (Hk1 & Hf1 & _).
  rewrite len_repeat, Nat2Z.id in Hf1.
  destruct (alloc_spec s s1 (Z.of_nat n) ph Hk ltac:(lia) ltac:(lia) Hph)
    as (init & cur & at_ & z1 & Hs1 & Hp & H0 & Hoff & Hlen & _).
  pose proof (run_advances ops s1 s2 Hok Hk1 ltac:(lia) Hrun) as (Hk2 & _ & Hb2 & _).
  unfold write, set. rewrite Hph. cbn [bind].
  set (w := map Some (hton n val)).
  assert (len w = Z.of_nat n) as Hw by (unfold w; now rewrite len_map, len_hton).
  assert (nth_error (_begin s1) (in_chunk ph) = Some cur) as Hn1.
  { subst s1 ph. cbn [_begin in_chunk]. apply nth_error_last. }
  destruct (below_nth _ _ Hb2 _ _ Hn1) as (cur2 & Hn2 & Hcap2 & Hoff2).
  assert (at_byte ph = at_) as Hat by (subst ph; reflexivity).
  pose proof (storage_same _ _ Hcap2) as Hst2.
  destruct (Z_le_gt_dec (at_ + Z.of_nat n) (storage cur)) as [Hin|Hout].
  - assert (covered s1 ph w) as Hcov.
    { exists cur. rewrite Hat, Hw. repeat split; auto; lia. }
    rewrite (memcpy_is_patch s1 ph w cur Hn1) by (rewrite ?Hat, ?Hw; lia).
    cbn [bind]. rewrite run_patch by (auto; lia). rewrite Hrun. cbn [bind].
    apply (memcpy_is_patch s2 ph w cur2 Hn2); rewrite ?Hat, ?Hw; lia.
  - assert (forall t c, nth_error (_begin t) (in_chunk ph) = Some c ->
              capacity c = capacity cur -> memcpy t ph w = Fault Overrun) as Hover.
    { intros t c Hn Hc. unfold memcpy, deref. rewrite Hn. cbn [bind].
      rewrite Hat, Hw, (storage_same _ _ Hc).
      pose proof (storage_value cur) as Hsv.
      destruct ((0 <=? at_) && (at_ + Z.of_nat n <=? storage cur)) eqn:E; [|reflexivity].
      apply andb_prop in E. destruct E as [_ E]. apply Z.leb_le in E. lia. }
    rewrite (Hover s1 cur Hn1 eq_refl). cbn [bind].
    apply (Hover s2 cur2 Hn2). congruence.
Qed.

(** X2.  A place holder can be set after any further writes; the stream is then
    what it would be had the value been written in its place. *)
Theorem set_later_is_write_before
    (s s1 s2 : bytes_ostream) (n : nat) (val : Z) (ops : list op) (ph : pointer) :
  counted s -> Forall op_ok ops ->
  size s + Z.of_nat n + total_length ops < 2 ^ 32 ->
  write_place_holder s n = Ok (s1, ph) ->
  run s1 ops = Ok s2 ->
  set s2 ph n val = run s (Write n val :: ops).
Proof.
  intros Hk Hok Hf Hph Hrun. pose proof Hk as (_ & _ & Hz).
  unfold size in Hf. rewrite Hz in Hf.
  cbn [run step]. eapply set_after_run; eauto.
Qed.

Lemma set_later_is_write_before_witness :
  exists s1 ph s2 s3,
    write_place_holder fresh 4 = Ok (s1, ph) /\
    run s1 [WriteBytes (repeat x41 500); Write 2 0x1234] = Ok s2 /\
    set s2 ph 4 506 = Ok s3 /\
    run fresh [Write 4 506; WriteBytes (repeat x41 500); Write 2 0x1234] = Ok s3.
Proof.
  eexists _, _, _, _.
  split; [reflexivity|]. split; [reflexivity|].
  match goal with
  | |- set ?s2 ?ph _ _ = _ /\ _ =>
      pose proof (set_later_is_write_before fresh _ s2 4 506
                    [WriteBytes (repeat x41 500); Write 2 0x1234] ph
                    counted_fresh ltac:(repeat constructor)
                    ltac:(vm_compute; reflexivity) eq_refl eq_refl) as E
  end.
  rewrite E. split; reflexivity.
Defined.



(* ================================================================== *)
(** * linearize, once more *)
(* ================================================================== *)

(** Evaluation of closed statements about concrete streams. *)
Ltac evaluated :=
  repeat (split || constructor); vm_compute;
  try reflexivity; try (intro; discriminate).

Ltac with_run s0 ops k :=
  let r := eval vm_compute in (run s0 ops) in
  lazymatch r with
  | Ok ?s => k s
  end.

Lemma payload_whole (z : Z) (cells rest : list cell) :
  len cells = z -> payload (mk_chunk z z (cells ++ rest)) = cells.
Proof.
  intros H. unfold payload. cbn [offset data]. unfold len in H.
  rewrite firstn_app, firstn_all2 by lia.
  replace (Z.to_nat z - length cells)%nat with 0%nat by lia.
  cbn [firstn]. apply app_nil_r.
Qed.

Lemma len_contents (s : bytes_ostream) :
  counted s -> within s -> len (contents s) = size s.
Proof.
  intros Hk Hw. unfold contents, size.
  rewrite (len_chain_payload _ (counted_readable s Hk Hw)).
  now destruct Hk as (_ & _ & ->).
Qed.

(** X4.  [linearize] brings the stream to a single chunk and changes neither
    its size nor its bytes; a second call finds the stream linearized and
    returns the same view of the same stream. *)
Theorem linearize_is_idempotent (s : bytes_ostream) :
  counted s -> within s -> size s < 2 ^ 32 ->
  exists s',
    linearize s = Ok (s', contents s) /\
    (is_linearized s = true -> s' = s) /\
    is_linearized s' = true /\
    size s' = size s /\
    contents s' = contents s /\
    view s' = Ok (contents s) /\
    linearize s' = Ok (s', contents s).
Proof.
  intros Hk Hw Hz. pose proof Hk as (_ & _ & Hsz). unfold size in Hz.
  destruct (linearize_contents s Hk Hw ltac:(lia)) as (s' & Hl & Hv & Hs & Hyes & Hno).
  assert (is_linearized s' = true /\ contents s' = contents s) as [Hlin Hct].
  { destruct (is_linearized s) eqn:E.
    - rewrite (Hyes eq_refl). auto.
    - destruct (Hno eq_refl) as [Hb Hc]. unfold is_linearized, contents. rewrite Hb.
      split; [reflexivity|]. cbn [map concat]. rewrite app_nil_r.
      apply payload_whole. now apply len_contents. }
  exists s'. repeat split; auto.
  unfold linearize. rewrite Hlin, Hv. reflexivity.
Qed.

Lemma linearize_is_idempotent_witness :
  exists s s',
    run fresh [WriteBytes (repeat x41 400); WriteBytes (repeat x42 200); Write 2 0x1234] = Ok s /\
    is_linearized s = false /\
    linearize s = Ok (s', map Some (repeat x41 400 ++ repeat x42 200 ++ [x12; x34])) /\
    linearize s' = Ok (s', map Some (repeat x41 400 ++ repeat x42 200 ++ [x12; x34])).
Proof.
  with_run Ostream.fresh [WriteBytes (repeat x41 400); WriteBytes (repeat x42 200); Write 2 0x1234] ltac:(fun s =>
    exists s;
    destruct (linearize_is_idempotent s) as (s' & H1 & _ & _ & _ & _ & _ & H2);
    [evaluated|evaluated|evaluated|]).
  exists s'. split; [vm_compute; reflexivity|]. split; [reflexivity|].
  split; [exact H1|exact H2].
Defined.

(** A fixed-width write that [current_space_left] lets into the current
    chunk is stored there if the block has the room, and past its end
    otherwise. *)
Lemma write_in_place (s : bytes_ostream) (init : list chunk) (cur : chunk)
    (n : nat) (val : Z) :
  _begin s = init ++ [cur] -> _current s = Some (length init) ->
  Z.of_nat n <= to_size_type (usable_chunk_size - offset cur) ->
  write s n val =
    if (0 <=? offset cur) && (offset cur + Z.of_nat n <=? storage cur) then
      Ok (mk_stream
            (init ++ [mk_chunk (capacity cur) (to_size_type (offset cur + Z.of_nat n))
                        (splice (data cur) (offset cur) (map Some (hton n val)))])
            (Some (length init)) (to_size_type (_size s + Z.of_nat n)))
    else Fault Overrun.
Proof.
  intros Hb Hc Hn. unfold write. rewrite (alloc_last s init cur _ Hb Hc).
  apply Z.leb_le in Hn. rewrite Hn. cbn [bind].
  rewrite memcpy_last, len_map, len_hton.
  rewrite (storage_same (mk_chunk _ _ _) cur eq_refl). reflexivity.
Qed.

(** The same for a write of bytes. *)
Lemma write_bytes_in_place (s : bytes_ostream) (init : list chunk) (cur : chunk)
    (v : list byte) :
  _begin s = init ++ [cur] -> _current s = Some (length init) ->
  1 <= len v <= to_size_type (usable_chunk_size - offset cur) ->
  write_bytes s v =
    if (0 <=? offset cur) && (offset cur + len v <=? storage cur) then
      Ok (mk_stream
            (init ++ [mk_chunk (capacity cur) (to_size_type (offset cur + len v))
                        (splice (data cur) (offset cur) (map Some v))])
            (Some (length init)) (to_size_type (_size s + len v)))
    else Fault Overrun.
Proof.
  intros Hb Hc [Hv Hn]. rewrite write_bytes_nonempty.
  2:{ intros ->. rewrite len_nil in Hv. lia. }
  rewrite (current_space_left_last s init cur Hb Hc). cbn [bind].
  apply Z.leb_le in Hn. rewrite Hn.
  rewrite Hc. rewrite (stream_eta s _ _ Hb Hc). rewrite deref_last. cbn [bind].
  rewrite memcpy_last, len_map.
  destruct ((0 <=? offset cur) && (offset cur + len v <=? storage cur)); [|reflexivity].
  cbn [bind]. rewrite advance_last. reflexivity.
Qed.

(** What is written to a full chunk within the measure of
    [current_space_left]: the four bytes that end the block take what fits
    in them, the filled length of the chunk moving on by as much; anything
    longer is stored past the end of the block. *)
Lemma writes_to_a_full_chunk (s : bytes_ostream) (init : list chunk) (cur : chunk) :
  _begin s = init ++ [cur] -> _current s = Some (length init) ->
  offset cur = capacity cur -> 0 <= capacity cur ->
  (forall (n : nat) (val : Z),
     sizeof_chunk - offsetof_data < Z.of_nat n
       <= to_size_type (usable_chunk_size - capacity cur) ->
     write s n val = Fault Overrun) /\
  (forall v : list byte,
     sizeof_chunk - offsetof_data < len v
       <= to_size_type (usable_chunk_size - capacity cur) ->
     write_bytes s v = Fault Overrun) /\
  (forall (n : nat) (val : Z),
     1 <= Z.of_nat n <= to_size_type (usable_chunk_size - capacity cur) ->
     Z.of_nat n <= sizeof_chunk - offsetof_data ->
     exists s1,
       write s n val = Ok s1 /\
       layout s1 = map (fun ch => (capacity ch, offset ch)) init ++
                   [(capacity cur, to_size_type (capacity cur + Z.of_nat n))]) /\
  (forall v : list byte,
     1 <= len v <= to_size_type (usable_chunk_size - capacity cur) ->
     len v <= sizeof_chunk - offsetof_data ->
     exists s1,
       write_bytes s v = Ok s1 /\
       layout s1 = map (fun ch => (capacity ch, offset ch)) init ++
                   [(capacity cur, to_size_type (capacity cur + len v))]).
Proof.
  intros Hb Hc Hfull Hcap. pose proof (storage_value cur) as Hsv.
  unfold sizeof_chunk, offsetof_data.
  split; [|split; [|split]].
  - intros n val Hn. rewrite (write_in_place s init cur n val Hb Hc) by (rewrite Hfull; lia).
    rewrite Hfull.
    destruct ((0 <=? capacity cur) && (capacity cur + Z.of_nat n <=? storage cur)) eqn:E;
      [|reflexivity].
    apply andb_prop in E. destruct E as [_ E]. apply Z.leb_le in E. lia.
  - intros v Hv. rewrite (write_bytes_in_place s init cur v Hb Hc) by (rewrite Hfull; lia).
    rewrite Hfull.
    destruct ((0 <=? capacity cur) && (capacity cur + len v <=? storage cur)) eqn:E;
      [|reflexivity].
    apply andb_prop in E. destruct E as [_ E]. apply Z.leb_le in E. lia.
  - intros n val Hn Hfit.
    rewrite (write_in_place s init cur n val Hb Hc) by (rewrite Hfull; lia).
    rewrite Hfull.
    destruct ((0 <=? capacity cur) && (capacity cur + Z.of_nat n <=? storage cur)) eqn:E.
    2:{ apply andb_false_iff in E. destruct E as [E|E]; apply Z.leb_gt in E; lia. }
    eexists. split; [reflexivity|].
    unfold layout. cbn [_begin]. rewrite map_app. reflexivity.
  - intros v Hv Hfit.
    rewrite (write_bytes_in_place s init cur v Hb Hc) by (rewrite Hfull; lia).
    rewrite Hfull.
    destruct ((0 <=? capacity cur) && (capacity cur + len v <=? storage cur)) eqn:E.
    2:{ apply andb_false_iff in E. destruct E as [E|E]; apply Z.leb_gt in E; lia. }
    eexists. split; [reflexivity|].
    unfold layout. cbn [_begin]. rewrite map_app. reflexivity.
Qed.

(** X5.  The chunk [linearize] allocates for a chain of several chunks has a
    capacity of [_size] bytes, in a block that ends four bytes further, and
    is full, while [current_space_left] measures every chunk as one of the
    standard size.  Of what this measure lets into the chunk, a write of up
    to four bytes is stored in the end of the block, the filled length of
    the chunk moving on by as much, past its capacity; a longer one is stored
    past the end of the block. *)
Theorem no_room_after_a_merging_linearize (s : bytes_ostream) :
  counted s -> within s -> size s < 2 ^ 32 ->
  is_linearized s = false ->
  exists s',
    linearize s = Ok (s', contents s) /\
    layout s' = [(size s, size s)] /\
    map storage (_begin s') = [size s + sizeof_chunk - offsetof_data] /\
    current_space_left s' = Ok (to_size_type (usable_chunk_size - size s)) /\
    (forall (n : nat) (val : Z),
       sizeof_chunk - offsetof_data < Z.of_nat n
         <= to_size_type (usable_chunk_size - size s) ->
       write s' n val = Fault Overrun) /\
    (forall v : list byte,
       sizeof_chunk - offsetof_data < len v
         <= to_size_type (usable_chunk_size - size s) ->
       write_bytes s' v = Fault Overrun) /\
    (forall (n : nat) (val : Z),
       1 <= Z.of_nat n <= to_size_type (usable_chunk_size - size s) ->
       Z.of_nat n <= sizeof_chunk - offsetof_data ->
       exists s1,
         write s' n val = Ok s1 /\
         layout s1 = [(size s, to_size_type (size s + Z.of_nat n))]) /\
    (forall v : list byte,
       1 <= len v <= to_size_type (usable_chunk_size - size s) ->
       len v <= sizeof_chunk - offsetof_data ->
       exists s1,
         write_bytes s' v = Ok s1 /\
         layout s1 = [(size s, to_size_type (size s + len v))]).
Proof.
  intros Hk Hw Hz Hlin. pose proof Hk as (_ & Ho & Hsz). unfold size in *.
  pose proof (filled_nonneg _ Ho) as Hf0.
  destruct (linearize_contents s Hk Hw ltac:(lia)) as (s' & Hl & _ & Hs & _ & Hno).
  destruct (Hno Hlin) as [Hb Hc]. unfold size in *.
  exists s'. split; [exact Hl|].
  set (cur := mk_chunk (_size s) (_size s) (contents s ++ spare)) in *.
  change [cur] with ([] ++ [cur]) in Hb. change 0%nat with (length (@nil chunk)) in Hc.
  split; [unfold layout; rewrite Hb; reflexivity|].
  split; [rewrite Hb; reflexivity|].
  split; [now rewrite (current_space_left_last s' [] cur Hb Hc)|].
  exact (writes_to_a_full_chunk s' [] cur Hb Hc eq_refl ltac:(cbn [cur capacity]; lia)).
Qed.

Lemma no_room_after_a_merging_linearize_witness :
  exists s s' s1,
    run fresh [Append (two_streams 0%nat); WritePlaceHolder 495;
               WriteBytes [x41; x42]] = Ok s /\
    layout s = [(496, 2); (496, 496); (496, 1)] /\
    linearize s = Ok (s', contents s) /\
    layout s' = [(499, 499)] /\
    map storage (_begin s') = [503] /\
    write s' 8 0 = Fault Overrun /\
    write s' 1 0 = Ok s1 /\ layout s1 = [(499, 500)].
Proof.
  with_run Ostream.fresh [Append (two_streams 0%nat); WritePlaceHolder 495;
                  WriteBytes [x41; x42]] ltac:(fun s =>
    exists s;
    destruct (no_room_after_a_merging_linearize s)
      as (s' & H1 & H2 & H3 & _ & H4 & _ & H5 & _);
    [evaluated|evaluated|evaluated|reflexivity|]).
  destruct (H5 1%nat 0) as (s1 & H6 & H7); [evaluated|evaluated|].
  exists s', s1. split; [vm_compute; reflexivity|]. split; [reflexivity|].
  split; [exact H1|]. split; [exact H2|]. split; [exact H3|].
  split; [apply H4; evaluated|]. split; [exact H6|exact H7].
Defined.

(** X6.  [current_space_left] takes every chunk for one of 496 bytes.  When the
    current chunk is full and of another size, as are the chunk [alloc] makes
    for a request of more than 496 bytes and the chunk [linearize] makes, the
    measure is not zero, and what is written next within that measure is
    placed past the capacity of the chunk: in the four bytes that end its
    block if it is no longer than that, the filled length of the chunk moving
    on by as much, and past the end of the block otherwise. *)
Theorem a_full_chunk_of_another_size_is_overrun
    (s : bytes_ostream) (init : list chunk) (cur : chunk) :
  _begin s = init ++ [cur] -> _current s = Some (length init) ->
  offset cur = capacity cur -> 0 <= capacity cur < 2 ^ 32 ->
  capacity cur <> usable_chunk_size ->
  current_space_left s = Ok (to_size_type (usable_chunk_size - capacity cur)) /\
  1 <= to_size_type (usable_chunk_size - capacity cur) /\
  (forall (n : nat) (val : Z),
     sizeof_chunk - offsetof_data < Z.of_nat n
       <= to_size_type (usable_chunk_size - capacity cur) ->
     write s n val = Fault Overrun) /\
  (forall v : list byte,
     sizeof_chunk - offsetof_data < len v
       <= to_size_type (usable_chunk_size - capacity cur) ->
     write_bytes s v = Fault Overrun) /\
  (forall (n : nat) (val : Z),
     1 <= Z.of_nat n <= to_size_type (usable_chunk_size - capacity cur) ->
     Z.of_nat n <= sizeof_chunk - offsetof_data ->
     exists s1,
       write s n val = Ok s1 /\
       layout s1 = map (fun ch => (capacity ch, offset ch)) init ++
                   [(capacity cur, to_size_type (capacity cur + Z.of_nat n))]) /\
  (forall v : list byte,
     1 <= len v <= to_size_type (usable_chunk_size - capacity cur) ->
     len v <= sizeof_chunk - offsetof_data ->
     exists s1,
       write_bytes s v = Ok s1 /\
       layout s1 = map (fun ch => (capacity ch, offset ch)) init ++
                   [(capacity cur, to_size_type (capacity cur + len v))]) /\
  (forall n : nat,
     1 <= Z.of_nat n <= to_size_type (usable_chunk_size - capacity cur) ->
     exists s1,
       write_place_holder s n = Ok (s1, mk_pointer (length init) (capacity cur)) /\
       layout s1 = map (fun ch => (capacity ch, offset ch)) init ++
                   [(capacity cur, to_size_type (capacity cur + Z.of_nat n))]).
Proof.
  intros Hb Hc Hfull Hcap Hne.
  assert (1 <= to_size_type (usable_chunk_size - capacity cur)) as Hroom.
  { unfold to_size_type, size_type_modulus.
    rewrite usable_chunk_size_value in *.
    destruct (Z_le_gt_dec (capacity cur) 496).
    - rewrite Z.mod_small; lia.
    - replace (496 - capacity cur) with ((2 ^ 32 + 496 - capacity cur) + (-1) * 2 ^ 32)
        by lia.
      rewrite Z.mod_add by lia. rewrite Z.mod_small; lia. }
  split; [now rewrite (current_space_left_last s init cur Hb Hc), Hfull|].
  split; [exact Hroom|].
  destruct (writes_to_a_full_chunk s init cur Hb Hc Hfull ltac:(lia))
    as (H1 & H2 & H3 & H4).
  split; [exact H1|]. split; [exact H2|]. split; [exact H3|]. split; [exact H4|].
  intros n Hn. unfold write_place_holder.
  rewrite (alloc_last s init cur _ Hb Hc), Hfull.
  destruct (Z.of_nat n <=? to_size_type (usable_chunk_size - capacity cur)) eqn:E;
    [|apply Z.leb_gt in E; lia].
  eexists. split; [reflexivity|].
  unfold layout. cbn [_begin]. rewrite map_app. reflexivity.
Qed.

Lemma a_full_chunk_of_another_size_is_overrun_witness :
  exists s s1,
    run fresh [WriteBytes (repeat x41 600)] = Ok s /\
    layout s = [(600, 600)] /\
    write s 8 0 = Fault Overrun /\
    write_bytes s [x42; x42; x42; x42; x42] = Fault Overrun /\
    write_bytes s [x42] = Ok s1 /\ layout s1 = [(600, 601)].
Proof.
  destruct (a_full_chunk_of_another_size_is_overrun full_oversized []
              (mk_chunk 600 600 (repeat (Some x41) 600 ++ spare)))
    as (_ & _ & Hw & Hb & _ & Hs & _); try reflexivity.
  - vm_compute. split; [intro; discriminate|reflexivity].
  - vm_compute. discriminate.
  - destruct (Hs [x42]) as (s1 & H1 & H2); [evaluated|evaluated|].
    exists full_oversized, s1.
    split; [vm_compute; reflexivity|]. split; [reflexivity|]. split.
    + apply Hw. vm_compute. split; [reflexivity|intro; discriminate].
    + split; [apply Hb; vm_compute; split; [reflexivity|intro; discriminate]|].
      split; [exact H1|exact H2].
Defined.


(* ================================================================== *)
(** * Copies, and streams of a single chunk *)
(* ================================================================== *)

Lemma length_update_nth {A : Type} (i : nat) (x : A) (l : list A) :
  length (update_nth i x l) = length l.
Proof.
  revert i. induction l as [|y l IH]; intros [|i]; cbn [update_nth length]; auto.
Qed.

Lemma memcpy_chain_length (s s1 : bytes_ostream) (q : pointer) (v : list cell) :
  memcpy s q v = Ok s1 -> length (_begin s1) = length (_begin s).
Proof.
  unfold memcpy. destruct (deref s (in_chunk q)) as [ch|f]; [|discriminate].
  cbn [bind]. destruct (_ && _); [|discriminate].
  intros H. inversion H; subst. cbn [_begin]. apply length_update_nth.
Qed.

Lemma copy_chain_length (src : list chunk) : forall (s s1 : bytes_ostream) (q : pointer),
  copy_chain src s q = Ok s1 -> length (_begin s1) = length (_begin s).
Proof.
  induction src as [|r src IH]; intros s s1 q H; cbn [copy_chain] in H.
  - now inversion H.
  - destruct (read r (offset r)) as [cells|f]; [|discriminate]. cbn [bind] in H.
    destruct (memcpy s q cells) as [s2|f] eqn:Hm; [|discriminate]. cbn [bind] in H.
    rewrite (IH _ _ _ H). eapply memcpy_chain_length; eauto.
Qed.

(** A stream appended to an empty one comes out in a single chunk. *)
Lemma append_to_fresh (o : bytes_ostream) :
  counted o -> within o -> size o < 2 ^ 32 ->
  exists s,
    append fresh o = Ok s /\ counted s /\ within s /\
    contents s = contents o /\ size s = size o /\ is_linearized s = true.
Proof.
  intros Hk Hw Hz.
  assert (filled (_begin fresh) + size o < 2 ^ 32) as Hf0
    by (change (filled (_begin fresh)) with 0; lia).
  destruct well_kept_fresh as (_ & Hwf & _ & Hcf).
  destruct (append_standard fresh o counted_fresh Hwf Hcf Hk Hw Hf0) as (s & Ha & Hws & _).
  pose proof (append_advances fresh o s counted_fresh Hk Hw Hf0 Ha)
    as (Hks & Hf & _ & Hct).
  destruct (Hct cells_ok_fresh Hws) as [_ Hc]. cbn [contents fresh _begin map concat app] in Hc.
  exists s. split; [exact Ha|]. split; [exact Hks|]. split; [exact Hws|].
  split; [exact Hc|]. split.
  - rewrite <- (len_contents s Hks Hws), <- (len_contents o Hk Hw). now rewrite Hc.
  - unfold append in Ha. destruct (0 <? size o).
    + destruct (alloc fresh (size o)) as [[s1 q]|f] eqn:Hal; [|discriminate].
      cbn [bind] in Ha. apply copy_chain_length in Ha.
      rewrite (alloc_none fresh (size o) eq_refl eq_refl) in Hal.
      destruct (size o <=? 0); [discriminate|]. inversion Hal; subst s1.
      cbn [_begin fresh app length] in Ha. unfold is_linearized.
      destruct (_begin s) as [|c [|c2 l]]; try reflexivity. cbn in Ha. lia.
    + inversion Ha; subst. reflexivity.
Qed.

(** X7.  The copy constructor and the copy assignment from another stream give
    a stream of a single chunk that holds the bytes of the source; what the
    target held before an assignment is dropped, and no other stream is
    touched. *)
Theorem a_copy_is_a_single_chunk (h : objects) (a b : nat) :
  a <> b -> counted (h b) -> within (h b) -> size (h b) < 2 ^ 32 ->
  exists h1 h2,
    copy_construct h a b = Ok h1 /\
    copy_assign h a b = Ok h2 /\
    h2 a = h1 a /\
    is_linearized (h1 a) = true /\
    size (h1 a) = size (h b) /\
    contents (h1 a) = contents (h b) /\
    view (h1 a) = Ok (contents (h b)) /\
    (forall x, x <> a -> h1 x = h x /\ h2 x = h x).
Proof.
  intros Hab Hk Hw Hz.
  destruct (append_to_fresh (h b) Hk Hw Hz) as (s & Ha & Hks & Hws & Hct & Hsz & Hlin).
  destruct (append_to_other (put h a fresh) a b s Hab) as (h1 & H1 & H1a & H1x).
  { rewrite put_same, put_other by auto. exact Ha. }
  set (h3 := put (put (put h a (mk_stream (_begin (h a)) (_current (h a)) 0)) a
                   (mk_stream (_begin (h a)) None 0)) a (mk_stream [] None 0)).
  assert (copy_assign h a b = append_to h3 a b) as Hca.
  { unfold copy_assign, h3. rewrite !put_same. reflexivity. }
  destruct (append_to_other h3 a b s Hab) as (h2 & H2 & H2a & H2x).
  { unfold h3. rewrite put_same, !put_other by auto. exact Ha. }
  exists h1, h2. split; [exact H1|]. split; [now rewrite Hca|].
  split; [congruence|]. rewrite H1a.
  split; [exact Hlin|]. split; [exact Hsz|]. split; [exact Hct|]. split.
  - pose proof Hks as (_ & _ & Hzs). unfold size in *.
    destruct (linearize_contents s Hks Hws ltac:(lia)) as (s' & _ & Hv & _ & Hsame & _).
    rewrite (Hsame Hlin) in Hv. now rewrite <- Hct.
  - intros x Hx. split.
    + rewrite (H1x x Hx). now rewrite put_other.
    + rewrite (H2x x Hx). unfold h3. now rewrite !put_other.
Qed.

Lemma a_copy_is_a_single_chunk_witness :
  exists s h1 h2,
    run fresh [WriteBytes (repeat x41 400); WriteBytes (repeat x42 200)] = Ok s /\
    is_linearized s = false /\
    copy_construct (fun _ => s) 0 1 = Ok h1 /\
    copy_assign (fun _ => s) 0 1 = Ok h2 /\
    is_linearized (h1 0%nat) = true /\
    view (h2 0%nat) = Ok (map Some (repeat x41 400 ++ repeat x42 200)).
Proof.
  with_run Ostream.fresh [WriteBytes (repeat x41 400); WriteBytes (repeat x42 200)]
    ltac:(fun s =>
      exists s;
      destruct (a_copy_is_a_single_chunk (fun _ => s) 0 1)
        as (h1 & h2 & H1 & H2 & H3 & H4 & _ & _ & H5 & _);
      [discriminate|evaluated|evaluated|evaluated|]).
  exists h1, h2. split; [vm_compute; reflexivity|]. split; [reflexivity|].
  split; [exact H1|]. split; [exact H2|]. split; [exact H4|].
  rewrite H3. exact H5.
Defined.

Lemma filled_one (c : chunk) : filled [c] = offset c.
Proof. cbn [filled fold_right]. lia. Qed.

Lemma alloc_one_chunk (s s1 : bytes_ostream) (n : Z) (p : pointer) :
  counted s -> within s -> current_standard s ->
  (length (_begin s) <= 1)%nat ->
  1 <= n -> filled (_begin s) + n <= usable_chunk_size ->
  alloc s n = Ok (s1, p) -> (length (_begin s1) <= 1)%nat.
Proof.
  intros Hk Hw Hcs Hlen Hn Hf Ha. rewrite usable_chunk_size_value in Hf.
  destruct (alloc_total s n Hk Hw Hcs Hn ltac:(lia))
    as (init & cur & at_ & Ha' & _ & _ & _ & _ & _ & _ & Hshape).
  rewrite Ha' in Ha. inversion Ha; subst s1 p. cbn [_begin].
  destruct Hshape as [(cur0 & Hb & _)|(-> & _ & _ & Hno)].
  - rewrite Hb in Hlen. rewrite length_app in *. exact Hlen.
  - destruct (_begin s) as [|c [|c2 l]] eqn:Hb; cbn [length app] in *; try lia.
    specialize (Hno [] c eq_refl). rewrite filled_one in Hf.
    rewrite usable_chunk_size_value in Hno. lia.
Qed.

Lemma length_layout (s : bytes_ostream) : length (layout s) = length (_begin s).
Proof. unfold layout. apply length_map. Qed.

Lemma step_one_chunk (s s' : bytes_ostream) (o : op) :
  well_kept s -> (length (_begin s) <= 1)%nat ->
  op_ok o -> op_sized o ->
  filled (_begin s) + byte_length o <= usable_chunk_size ->
  step s o = Ok s' -> (length (_begin s') <= 1)%nat.
Proof.
  intros Hs Hlen Hok Hsz Hf Hstep. pose proof Hs as (Hk & Hw & Hc & Hcs).
  pose proof usable_chunk_size_value as Hu.
  assert (forall v s0 s1, well_kept s0 -> (length (_begin s0) <= 1)%nat ->
            filled (_begin s0) + len v <= usable_chunk_size ->
            write_bytes s0 v = Ok s1 -> (length (_begin s1) <= 1)%nat) as Hbytes.
  { intros v s0 s1 (Hk0 & Hw0 & _ & Hcs0) Hl0 Hf0 Hwb.
    destruct (write_bytes_total s0 v Hk0 Hw0 Hcs0 ltac:(lia))
      as (s2 & Hwb2 & _ & _ & Hnil & Hlast).
    rewrite Hwb in Hwb2. inversion Hwb2; subst s2. clear Hwb2.
    destruct v as [|b v0]; [inversion Hwb; subst; exact Hl0|].
    rewrite <- length_layout.
    destruct (_begin s0) as [|c [|c2 l]] eqn:Hb; cbn [length] in Hl0; try lia.
    - rewrite Hnil by (auto; discriminate). cbn. lia.
    - rewrite (Hlast [] c) by (auto; discriminate).
      rewrite filled_one in Hf0.
      destruct (len (b :: v0) <=? usable_chunk_size - offset c) eqn:E;
        [cbn; lia|apply Z.leb_gt in E; lia]. }
  destruct o as [n val|v|v|n|o]; cbn [step byte_length op_ok op_sized] in *.
  - unfold write in Hstep.
    destruct (alloc s (Z.of_nat n)) as [[s1 p]|f] eqn:Ha; [|discriminate].
    cbn [bind] in Hstep. rewrite (memcpy_chain_length _ _ _ _ Hstep).
    eapply alloc_one_chunk; eauto.
  - eapply Hbytes; eauto.
  - unfold write_blob in Hstep.
    destruct (to_size_type (len v) =? len v); [|discriminate].
    destruct (write s 4 (len v)) as [s1|f] eqn:Hw1; [|discriminate].
    cbn [bind] in Hstep. pose proof (len_nonneg v) as Hv.
    assert (filled (_begin s) + byte_length (Write 4 (len v)) < 2 ^ 32) as Hfit
      by (unfold byte_length; lia).
    destruct (step_kept s (Write 4 (len v)) Hs I ltac:(unfold op_sized; lia) Hfit)
      as (s2 & Hw2 & Hk2 & Hwi2 & Hc2 & Hcs2 & Hf2 & _).
    cbn [step] in Hw2. rewrite Hw1 in Hw2. inversion Hw2; subst s2. clear Hw2.
    unfold byte_length in Hf2.
    apply (Hbytes v s1 s'); auto.
    + repeat split; auto; try apply Hk2. apply Hcs2. unfold op_small, byte_length. lia.
    + unfold write in Hw1.
      destruct (alloc s (Z.of_nat 4)) as [[s3 p]|f] eqn:Ha; [|discriminate].
      cbn [bind] in Hw1. rewrite (memcpy_chain_length _ _ _ _ Hw1).
      apply (alloc_one_chunk s s3 (Z.of_nat 4) p); auto; lia.
    + lia.
  - unfold write_place_holder in Hstep.
    destruct (alloc s (Z.of_nat n)) as [[s1 p]|f] eqn:Ha; [|discriminate].
    cbn [bind] in Hstep. inversion Hstep; subst s1.
    eapply alloc_one_chunk; eauto.
  - unfold append in Hstep. destruct (0 <? size o) eqn:E.
    + apply Z.ltb_lt in E.
      destruct (alloc s (size o)) as [[s1 p]|f] eqn:Ha; [|discriminate].
      cbn [bind] in Hstep. rewrite (copy_chain_length _ _ _ _ Hstep).
      apply (alloc_one_chunk s s1 (size o) p); auto; lia.
    + inversion Hstep; subst. exact Hlen.
Qed.

Lemma run_one_chunk (ops : list op) : forall (s s' : bytes_ostream),
  well_kept s -> (length (_begin s) <= 1)%nat ->
  Forall op_ok ops -> Forall op_sized ops ->
  filled (_begin s) + total_length ops <= usable_chunk_size ->
  run s ops = Ok s' -> (length (_begin s') <= 1)%nat.
Proof.
  induction ops as [|o ops IH]; intros s s' Hs Hlen Hok Hsz Hf Hrun.
  - inversion Hrun; subst. exact Hlen.
  - inversion Hok as [|? ? Hok1 Hok2]; subst.
    inversion Hsz as [|? ? Hsz1 Hsz2]; subst.
    cbn [total_length fold_right] in Hf. fold (total_length ops) in Hf.
    pose proof (total_length_nonneg ops Hok2) as Ht.
    pose proof (byte_length_nonneg o Hok1) as Hb.
    pose proof usable_chunk_size_value as Hu.
    pose proof Hs as ((_ & Ho & _) & _). pose proof (filled_nonneg _ Ho) as Hf0.
    cbn [run] in Hrun. destruct (step s o) as [s1|f] eqn:Hstep; [|discriminate].
    cbn [bind] in Hrun.
    destruct (step_kept s o Hs Hok1 Hsz1 ltac:(lia))
      as (s2 & Hstep2 & Hk2 & Hw2 & Hc2 & Hcs2 & Hf2 & _).
    rewrite Hstep in Hstep2. inversion Hstep2; subst s2. clear Hstep2.
    apply (IH s1 s'); auto.
    + repeat split; auto; try apply Hk2. apply Hcs2. unfold op_small. lia.
    + eapply step_one_chunk; eauto. lia.
    + lia.
Qed.

(** X8.  Up to 496 bytes, whatever the operations that write them, are held in
    one chunk: the stream is linearized as it stands, [view] gives its bytes,
    and [linearize] returns them without copying. *)
Theorem up_to_a_chunk_the_stream_is_linearized (ops : list op) :
  Forall op_ok ops -> Forall op_sized ops ->
  total_length ops <= usable_chunk_size ->
  exists s,
    run fresh ops = Ok s /\
    is_linearized s = true /\
    size s = total_length ops /\
    view s = Ok (concat (map written ops)) /\
    linearize s = Ok (s, concat (map written ops)).
Proof.
  intros Hok Hsz Ht. pose proof usable_chunk_size_value as Hu.
  assert (Forall op_small (removelast ops)) as Hsm.
  { assert (forall l, Forall op_ok l -> total_length l <= usable_chunk_size ->
              Forall op_small l) as Hall.
    { induction l as [|o l IH]; intros Hl Hf; [constructor|].
      inversion Hl as [|? ? Ho1 Ho2]; subst.
      cbn [total_length fold_right] in Hf. fold (total_length l) in Hf.
      pose proof (total_length_nonneg l Ho2). pose proof (byte_length_nonneg o Ho1).
      constructor; [unfold op_small; lia|apply IH; auto; lia]. }
    specialize (Hall ops Hok Ht). clear - Hall.
    induction Hall as [|o l Ho Hl IH]; [constructor|].
    destruct l as [|o2 l]; [constructor|].
    change (removelast (o :: o2 :: l)) with (o :: removelast (o2 :: l)).
    constructor; auto. }
  destruct (run_kept ops fresh well_kept_fresh Hok Hsz Hsm)
    as (s & Hr & Hk & Hw & Hc & Hf & Hct).
  { change (filled (_begin fresh)) with 0. lia. }
  change (filled (_begin fresh)) with 0 in Hf.
  cbn [contents fresh _begin map concat app] in Hct.
  assert (is_linearized s = true) as Hlin.
  { pose proof (run_one_chunk ops fresh s well_kept_fresh ltac:(cbn; lia) Hok Hsz
                  ltac:(change (filled (_begin fresh)) with 0; lia) Hr) as Hlen.
    unfold is_linearized. destruct (_begin s) as [|c [|c2 l]]; try reflexivity.
    cbn in Hlen. lia. }
  destruct (linearize_contents s Hk Hw ltac:(lia)) as (s' & Hl & Hv & _ & Hsame & _).
  rewrite (Hsame Hlin) in *.
  exists s. split; [exact Hr|]. split; [exact Hlin|]. split.
  { destruct Hk as (_ & _ & Hz). unfold size. lia. }
  rewrite <- Hct. split; [exact Hv|exact Hl].
Qed.

Lemma up_to_a_chunk_the_stream_is_linearized_witness :
  exists s,
    run fresh [Write 2 0x1234; WritePlaceHolder 4; WriteBlob [x63; x61; x66];
               Append (two_streams 1%nat)] = Ok s /\
    is_linearized s = true /\
    view s = Ok (map Some [x12; x34] ++ repeat None 4 ++
                 map Some [x00; x00; x00; x03; x63; x61; x66; x43]).
Proof.
  destruct (up_to_a_chunk_the_stream_is_linearized
              [Write 2 0x1234; WritePlaceHolder 4; WriteBlob [x63; x61; x66];
               Append (two_streams 1%nat)])
    as (s & Hr & Hl & _ & Hv & _).
  - repeat constructor; evaluated.
  - repeat constructor; evaluated.
  - vm_compute. discriminate.
  - exists s. split; [exact Hr|]. split; [exact Hl|]. exact Hv.
Defined.

(* ================================================================== *)
(** * A stream moved onto itself *)
(* ================================================================== *)

Lemma view_without_current (l : list chunk) (z : Z) :
  view (mk_stream l None z) =
    if is_linearized (mk_stream l None z) then Ok [] else Fault AssertionFailed.
Proof. unfold view. cbn [_current]. reflexivity. Qed.

(** X9.  Between two different objects the move assignment gives the
    target the chain, the current chunk and the size of the source and leaves
    the source empty.  A stream move-assigned to itself keeps its chain, but
    with [_current] null and a size of zero: it reads as empty and takes
    writes as an empty stream does, dropping the chain; if the chain has
    several chunks [view] stops at its assertion, and [linearize] copies the
    chain into a block allocated for a header and no byte more, which has
    room for four bytes: a chain that holds more leaves it, as does every
    chain of several chunks that writes to an empty stream have built. *)
Theorem move_assign_to_self_keeps_the_chain (h : objects) (a : nat) :
  (forall this o x, this <> o ->
     move_assign_in_place h this o x = move_assign h this o x) /\
  move_assign_in_place h a a a = mk_stream (_begin (h a)) None 0 /\
  (forall x, x <> a -> move_assign_in_place h a a x = h x) /\
  size (move_assign_in_place h a a a) = 0 /\
  empty (move_assign_in_place h a a a) = true /\
  is_linearized (move_assign_in_place h a a a) = is_linearized (h a) /\
  (forall (n : nat) (val : Z),
     write (move_assign_in_place h a a a) n val = write fresh n val) /\
  (is_linearized (h a) = true -> view (move_assign_in_place h a a a) = Ok []) /\
  (is_linearized (h a) = false ->
     view (move_assign_in_place h a a a) = Fault AssertionFailed /\
     (Forall readable (_begin (h a)) ->
      sizeof_chunk - offsetof_data < filled (_begin (h a)) ->
      linearize (move_assign_in_place h a a a) = Fault Overrun) /\
     (forall ops : list op,
        Forall op_ok ops -> Forall op_sized ops -> total_length ops < 2 ^ 32 ->
        run fresh ops = Ok (h a) ->
        linearize (move_assign_in_place h a a a) = Fault Overrun)).
Proof.
  assert (move_assign_in_place h a a a = mk_stream (_begin (h a)) None 0) as Hself.
  { unfold move_assign_in_place. rewrite !put_same. reflexivity. }
  split.
  { intros this o x Hne. unfold move_assign_in_place, move_assign.
    assert (o <> this) as Hne' by congruence.
    destruct (Nat.eq_dec x o) as [->|Hxo]; [|destruct (Nat.eq_dec x this) as [->|Hxt]];
      repeat first [ rewrite put_same
                   | rewrite put_other by assumption
                   | progress cbn [_begin _current _size] ];
      reflexivity. }
  rewrite Hself.
  split; [reflexivity|]. split.
  { intros x Hx. unfold move_assign_in_place. now rewrite !put_other. }
  split; [reflexivity|]. split; [reflexivity|]. split; [reflexivity|]. split.
  { intros n val. unfold write, alloc, current_space_left.
    cbn [_current _begin _size fresh bind]. reflexivity. }
  split.
  { intros Hl. rewrite view_without_current.
    change (is_linearized (mk_stream (_begin (h a)) None 0)) with (is_linearized (h a)).
    now rewrite Hl. }
  intros Hl. split; [|split].
  - rewrite view_without_current.
    change (is_linearized (mk_stream (_begin (h a)) None 0)) with (is_linearized (h a)).
    now rewrite Hl.
  - intros Hr Hf. apply linearize_wrapped; auto using readable_counted.
    cbn [_size]. lia.
  - intros ops Hok Hsz Ht Hr.
    destruct (run_advances ops fresh (h a) Hok counted_fresh ltac:(cbn; lia) Hr)
      as ((_ & Hc & _) & Hf & _).
    rewrite len_all_written in Hf by exact Hok. cbn [fresh _begin filled fold_right] in Hf.
    destruct (Z_le_gt_dec (total_length ops) usable_chunk_size) as [Hle|Hgt].
    + assert (filled (_begin fresh) + total_length ops <= usable_chunk_size) as Hfit
        by (cbn [fresh _begin filled fold_right]; lia).
      pose proof (run_one_chunk ops fresh (h a) well_kept_fresh (Nat.le_0_l 1)
                    Hok Hsz Hfit Hr) as Hone.
      unfold is_linearized in Hl.
      destruct (_begin (h a)) as [|c0 [|c1 l]]; [discriminate|discriminate|].
      cbn [length] in Hone. lia.
    + rewrite usable_chunk_size_value in Hgt.
      apply linearize_wrapped; cbn [_size _begin].
      * exact Hc.
      * exact Hl.
      * lia.
      * unfold sizeof_chunk, offsetof_data. lia.
Qed.

(* ================================================================== *)
(** * A stream appended to itself *)
(* ================================================================== *)

Lemma firstn_twice_splice (cells w : list cell) (n : Z) :
  0 <= n <= len cells -> n <= len w ->
  firstn (Z.to_nat (n + n)) (splice cells n w) =
    firstn (Z.to_nat n) cells ++ firstn (Z.to_nat n) w.
Proof.
  unfold len, splice. intros Hn Hw.
  rewrite firstn_app, length_firstn.
  replace (Nat.min (Z.to_nat n) (length cells)) with (Z.to_nat n) by lia.
  replace (Z.to_nat (n + n) - Z.to_nat n)%nat with (Z.to_nat n) by lia.
  rewrite firstn_firstn.
  replace (Nat.min (Z.to_nat (n + n)) (Z.to_nat n)) with (Z.to_nat n) by lia.
  f_equal. rewrite firstn_app.
  replace (Z.to_nat n - length w)%nat with 0%nat by lia.
  cbn [firstn]. apply app_nil_r.
Qed.

(** X20.  [s.append(s)] for a stream that fills less than half of its one
    chunk, of the standard size: the allocation is taken from that chunk,
    whose filled length is then twice what it was, and the loop copies that
    many bytes, not the half of them, to the place allocated.  If three times
    the old size fits in the block, the stream ends up as its bytes twice;
    if not, the copy is stored past the end of the block. *)
Theorem append_to_self_in_one_chunk (h : objects) (a : nat) (cur : chunk) :
  counted (h a) -> _begin (h a) = [cur] -> capacity cur = usable_chunk_size ->
  1 <= size (h a) -> 2 * size (h a) <= usable_chunk_size ->
  (3 * size (h a) <= storage cur ->
   exists h',
     append_to h a a = Ok h' /\
     size (h' a) = 2 * size (h a) /\
     layout (h' a) = [(usable_chunk_size, 2 * size (h a))] /\
     contents (h' a) = contents (h a) ++ contents (h a) /\
     view (h' a) = Ok (contents (h a) ++ contents (h a)) /\
     forall x, x <> a -> h' x = h x) /\
  (storage cur < 3 * size (h a) -> append_to h a a = Fault Overrun).
Proof.
  intros Hk Hb Hcap Hn1 Hn2. pose proof Hk as (Hl & Ho & Hz).
  unfold linked in Hl. rewrite Hb in Hl, Ho, Hz.
  destruct (_current (h a)) as [i|] eqn:Hc; [|discriminate].
  cbn [length] in Hl. assert (i = 0%nat) as -> by lia. clear Hl.
  apply Forall_inv in Ho. destruct Ho as [Ho Hlen].
  cbn [filled fold_right] in Hz. rewrite Z.add_0_r in Hz.
  pose proof (storage_value cur) as Hsv.
  unfold size in *. rewrite usable_chunk_size_value in *.
  set (n := _size (h a)) in *.
  assert (contents (h a) = firstn (Z.to_nat n) (data cur)) as Hct.
  { unfold contents, payload. rewrite Hb. cbn [map concat]. rewrite app_nil_r.
    now rewrite <- Hz. }
  assert (append_to h a a =
            (s2 <- (cells <- read (mk_chunk (capacity cur) (n + n) (data cur)) (n + n) ;;
                    memcpy (mk_stream [mk_chunk (capacity cur) (n + n) (data cur)]
                                      (Some 0%nat) (n + n))
                           (mk_pointer 0 n) cells) ;;
             Ok (put h a s2))) as Happ.
  { unfold append_to, size. fold n.
    destruct (0 <? n) eqn:E; [|apply Z.ltb_ge in E; lia].
    change [cur] with ([] ++ [cur]) in Hb.
    change 0%nat with (length (@nil chunk)) in Hc.
    rewrite (alloc_last (h a) [] cur n Hb Hc), <- Hz.
    rewrite usable_chunk_size_value, (wrap32_small (496 - n)) by lia.
    destruct (n <=? 496 - n) eqn:E2; [|apply Z.leb_gt in E2; lia].
    fold n. rewrite (wrap32_small (n + n)) by lia.
    cbn [bind app length]. rewrite Nat.eqb_refl.
    cbn [_begin length seq copy_own_chain deref nth_error bind offset in_chunk at_byte].
    destruct (read _ _) as [cells|f]; [|reflexivity].
    cbn [bind]. destruct (memcpy _ _ _); reflexivity. }
  rewrite Happ. unfold read. rewrite (storage_same (mk_chunk (capacity cur) (n + n) (data cur)) cur eq_refl).
  cbn [offset data].
  destruct ((0 <=? n + n) && (n + n <=? storage cur)) eqn:Er.
  2:{ apply andb_false_iff in Er. destruct Er as [Er|Er]; apply Z.leb_gt in Er; lia. }
  cbn [bind].
  change [mk_chunk (capacity cur) (n + n) (data cur)]
    with ([] ++ [mk_chunk (capacity cur) (n + n) (data cur)]).
  change (mk_pointer 0 n) with (mk_pointer (length (@nil chunk)) n).
  rewrite memcpy_last, (storage_same (mk_chunk (capacity cur) (n + n) (data cur)) cur eq_refl).
  rewrite len_firstn by lia. cbn [capacity offset data app].
  split.
  - intros Hfit.
    destruct ((0 <=? n) && (n + (n + n) <=? storage cur)) eqn:Em.
    2:{ apply andb_false_iff in Em. destruct Em as [Em|Em]; apply Z.leb_gt in Em; lia. }
    cbn [bind]. eexists. split; [reflexivity|]. rewrite put_same.
    assert (firstn (Z.to_nat (n + n))
              (splice (data cur) n (firstn (Z.to_nat (n + n)) (data cur))) =
            firstn (Z.to_nat n) (data cur) ++ firstn (Z.to_nat n) (data cur)) as Hdouble.
    { rewrite firstn_twice_splice by (rewrite ?len_firstn; lia).
      rewrite firstn_firstn.
      replace (Nat.min (Z.to_nat n) (Z.to_nat (n + n))) with (Z.to_nat n) by lia.
      reflexivity. }
    split; [cbn [_size]; lia|].
    split; [unfold layout; cbn [_begin map capacity offset]; rewrite Hcap;
            replace (n + n) with (2 * n) by lia; reflexivity|].
    split.
    { rewrite Hct. unfold contents, payload. cbn [_begin map concat offset data].
      rewrite app_nil_r. exact Hdouble. }
    split.
    { unfold view, is_linearized, deref, read.
      cbn [_begin _current _size nth_error bind].
      unfold storage. cbn [capacity data]. fold (storage cur).
      rewrite Er, Hct, Hdouble. reflexivity. }
    intros x Hx. now apply put_other.
  - intros Hover.
    destruct ((0 <=? n) && (n + (n + n) <=? storage cur)) eqn:Em; [|reflexivity].
    apply andb_prop in Em. destruct Em as [_ Em]. apply Z.leb_le in Em. lia.
Qed.


Lemma append_to_self_in_one_chunk_witness :
  (exists h',
     append_to two_streams 0 0 = Ok h' /\
     layout (h' 0%nat) = [(496, 4)] /\
     contents (h' 0%nat) = [Some x41; Some x42; Some x41; Some x42]) /\
  (exists s,
     run fresh [WriteBytes (repeat x41 200)] = Ok s /\
     layout s = [(496, 200)] /\
     append_to (fun _ => s) 0 0 = Fault Overrun).
Proof.
  split.
  - destruct (append_to_self_in_one_chunk two_streams 0%nat
                (mk_chunk 496 2 ([Some x41; Some x42] ++ repeat None 498)))
      as [H _]; [evaluated|reflexivity|reflexivity|evaluated|evaluated|].
    destruct H as (h' & Ha & _ & Hl & Hc & _); [evaluated|].
    exists h'. split; [exact Ha|]. split; [exact Hl|exact Hc].
  - with_run Ostream.fresh [WriteBytes (repeat x41 200)] ltac:(fun s =>
      exists s;
      lazymatch s with
      | mk_stream [?c] _ _ =>
          destruct (append_to_self_in_one_chunk (fun _ => s) 0%nat c)
            as [_ H]; [evaluated|reflexivity|reflexivity|evaluated|evaluated|]
      end).
    split; [vm_compute; reflexivity|]. split; [reflexivity|].
    apply H. evaluated.
Defined.


(* ================================================================== *)
(** * What each write leaves in the stream *)
(* ================================================================== *)

(** ** Values, the most significant byte first *)

Lemma u8_byte_of (z : Z) : u8 (byte_of z) = z mod 256.
Proof.
  unfold u8, byte_of.
  pose proof (Z.mod_pos_bound z 256 ltac:(lia)) as Hm.
  destruct (Byte.of_N (Z.to_N (z mod 256))) as [b|] eqn:E.
  - apply Byte.to_of_N in E. rewrite E. lia.
  - apply Byte.of_N_None_iff in E. lia.
Qed.

Lemma hton_succ (n : nat) (val : Z) :
  hton (S n) val = byte_of (Z.shiftr val (8 * Z.of_nat n)) :: hton n val.
Proof.
  unfold hton. rewrite seq_S, rev_app_distr. reflexivity.
Qed.

Lemma be_value_from (bs : list byte) : forall acc,
  fold_left (fun a b => 256 * a + u8 b) bs acc = acc * 256 ^ len bs + be_value bs.
Proof.
  unfold be_value. induction bs as [|b bs IH]; intros acc.
  - cbn. lia.
  - cbn [fold_left]. rewrite IH, (IH (256 * 0 + u8 b)), len_cons.
    rewrite Z.pow_add_r by (pose proof (len_nonneg bs); lia). lia.
Qed.

(** The bytes of [hton], read the most significant first, are the value
    in two's complement on [8 * n] bits. *)
Lemma be_value_hton (n : nat) (val : Z) :
  be_value (hton n val) = val mod 2 ^ (8 * Z.of_nat n).
Proof.
  induction n as [|n IH].
  - cbn. now rewrite Z.mod_1_r.
  - rewrite hton_succ. unfold be_value. cbn [fold_left].
    rewrite be_value_from, IH, len_hton, u8_byte_of.
    rewrite Z.shiftr_div_pow2 by lia.
    replace (8 * Z.of_nat (S n)) with (8 * Z.of_nat n + 8) by lia.
    rewrite Z.pow_add_r by lia.
    rewrite (Z.rem_mul_r val (2 ^ (8 * Z.of_nat n)) (2 ^ 8)) by lia.
    replace (256 ^ Z.of_nat n) with (2 ^ (8 * Z.of_nat n)).
    2:{ rewrite Z.pow_mul_r by lia. reflexivity. }
    change (2 ^ 8) with 256. lia.
Qed.

(** ** alloc *)

Lemma layout_app_last (s : bytes_ostream) (init : list chunk) (cur : chunk) :
  _begin s = init ++ [cur] ->
  layout s = map (fun ch => (capacity ch, offset ch)) init ++ [(capacity cur, offset cur)].
Proof. intros H. unfold layout. rewrite H, map_app. reflexivity. Qed.

(** X10.  [alloc] on a well-kept stream: the region it returns lies within one
    chunk, the current one, and holds no byte yet; it is the end of the chunk
    that was current when the request fits there, and the start of a new
    chunk of 496 bytes, or of the size asked for if that is more,
    otherwise. *)
Theorem alloc_returns_unwritten_room (s : bytes_ostream) (n : Z) :
  well_kept s -> 1 <= n -> size s + n < 2 ^ 32 ->
  exists s1 p ch,
    alloc s n = Ok (s1, p) /\
    _current s1 = Some (in_chunk p) /\
    nth_error (_begin s1) (in_chunk p) = Some ch /\
    0 <= at_byte p /\ at_byte p + n = offset ch /\ offset ch <= capacity ch /\
    firstn (Z.to_nat n) (skipn (Z.to_nat (at_byte p)) (data ch)) =
      repeat None (Z.to_nat n) /\
    size s1 = size s + n /\
    contents s1 = contents s ++ repeat None (Z.to_nat n) /\
    ((exists l cap off,
        layout s = l ++ [(cap, off)] /\ n <= cap - off /\
        layout s1 = l ++ [(cap, off + n)] /\ at_byte p = off) \/
     (layout s1 = layout s ++ [(Z.max usable_chunk_size n, n)] /\ at_byte p = 0 /\
      forall l cap off, layout s = l ++ [(cap, off)] -> cap - off < n)).
Proof.
  intros (Hk & Hw & Hc & Hcs) Hn Hz. pose proof Hk as (_ & Ho & Hsz).
  unfold size in *. rewrite Hsz in Hz.
  destruct (alloc_total s n Hk Hw Hcs Hn Hz)
    as (init & cur & at_ & Ha & H0 & Hoff & Hcap & Hlen & Hwi & _ & Hshape).
  pose proof (alloc_advances s _ n _ Hk ltac:(lia) Hz Ha) as (Hk1 & Hf1 & _ & Hct).
  assert (within (mk_stream (init ++ [cur]) (Some (length init))
                            (to_size_type (_size s + n)))) as Hw1.
  { unfold within. cbn [_begin]. apply Forall_last. split; [exact Hwi|exact Hcap]. }
  destruct (Hct Hc Hw1) as [Hc1 Hcont].
  rewrite len_repeat, Z2Nat.id in Hf1 by lia.
  eexists _, _, cur. split; [exact Ha|]. cbn [_current _begin in_chunk at_byte].
  split; [reflexivity|]. split; [apply nth_error_last|].
  split; [exact H0|]. split; [lia|]. split; [exact Hcap|]. split.
  { unfold cells_ok in Hc1. cbn [_begin] in Hc1. apply Forall_last in Hc1.
    destruct Hc1 as [_ Hcur]. unfold chunk_cells in Hcur.
    destruct Hshape as [(cur0 & Hb & -> & -> & Hc0)|(-> & -> & -> & _)].
    - cbn [data offset capacity] in *.
      unfold cells_ok in Hc. rewrite Hb in Hc. apply Forall_last in Hc.
      destruct Hc as [_ Hc]. unfold chunk_cells in Hc. rewrite Hc.
      pose proof (storage_value cur0).
      apply firstn_repeat. lia.
    - destruct (new_chunk_capacity n ltac:(lia)) as (Hfit & _ & _ & Hnd).
      pose proof (storage_value (new_chunk n)).
      rewrite Hnd. cbn [Z.to_nat skipn]. apply firstn_repeat. lia. }
  split.
  { destruct Hk1 as (_ & _ & Hz1). cbn [_size _begin] in Hz1. cbn [_size].
    rewrite Hz1. cbn [_begin] in Hf1. lia. }
  split; [exact Hcont|].
  destruct Hshape as [(cur0 & Hb & -> & -> & Hc0)|(-> & -> & -> & Hno)].
  - left. exists (map (fun ch => (capacity ch, offset ch)) init), (capacity cur0), (offset cur0).
    split; [now apply layout_app_last|]. cbn [offset capacity] in *.
    split; [lia|]. split; [|reflexivity].
    unfold layout. cbn [_begin]. rewrite map_app. reflexivity.
  - right. split; [|split; [reflexivity|]].
    + unfold layout. cbn [_begin]. rewrite map_app. cbn [map].
      rewrite new_chunk_max by lia.
      destruct (new_chunk_capacity n ltac:(lia)) as (_ & _ & -> & _). reflexivity.
    + intros l cap off Hl. unfold layout in Hl.
      destruct (_begin s) as [|c0 l0] eqn:Hb using rev_ind.
      { destruct l; discriminate. }
      clear IHl0. rewrite map_app in Hl. cbn [map] in Hl.
      apply app_inj_tail in Hl. destruct Hl as [_ Hl]. inversion Hl; subst.
      assert (capacity c0 = usable_chunk_size) as Hc0.
      { destruct Hk as (Hlk & _). unfold linked in Hlk.
        destruct (_current s) as [i|] eqn:Hcur.
        - apply (Hcs i c0 Hcur). rewrite Hb in *. rewrite length_app in Hlk.
          cbn [length] in Hlk. replace i with (length l0) by lia.
          apply nth_error_last.
        - rewrite Hb in Hlk. now destruct l0. }
      specialize (Hno l0 c0 eq_refl). lia.
Qed.

Lemma alloc_returns_unwritten_room_witness :
  exists s1 p,
    alloc (two_streams 0%nat) 495 = Ok (s1, p) /\
    p = mk_pointer 1 0 /\
    layout s1 = [(496, 2); (496, 495)] /\
    size s1 = 497.
Proof.
  destruct (alloc_returns_unwritten_room (two_streams 0%nat) 495)
    as (s1 & p & ch & Ha & _).
  - split; [evaluated|]. split; [evaluated|]. split; [evaluated|].
    intros i ch Hi Hn. vm_compute in Hi. inversion Hi; subst i.
    vm_compute in Hn. inversion Hn; subst ch. reflexivity.
  - lia.
  - vm_compute. reflexivity.
  - exists s1, p. split; [exact Ha|].
    vm_compute in Ha. inversion Ha; subst s1 p. repeat split.
Defined.

(** ** write<T> *)



(** ** write(bytes_view) *)

(** X12.  [write(bytes_view)] fills the current chunk to its last byte before it
    opens another, which takes the rest; nothing is allocated for an empty
    view. *)
Theorem write_bytes_fills_the_current_chunk_first
    (s : bytes_ostream) (init : list chunk) (cur : chunk) (v : list byte) :
  well_kept s -> _begin s = init ++ [cur] ->
  size s + len v < 2 ^ 32 ->
  write_bytes s [] = Ok s /\
  exists s',
    write_bytes s v = Ok s' /\
    counted s' /\ within s' /\ cells_ok s' /\
    size s' = size s + len v /\
    contents s' = contents s ++ map Some v /\
    (v <> [] ->
     layout s' = map (fun ch => (capacity ch, offset ch)) init ++
       (if len v <=? usable_chunk_size - offset cur
        then [(usable_chunk_size, offset cur + len v)]
        else [(usable_chunk_size, usable_chunk_size);
              (Z.max usable_chunk_size (len v - (usable_chunk_size - offset cur)),
               len v - (usable_chunk_size - offset cur))])).
Proof.
  intros Hs Hb Hz. split; [reflexivity|].
  pose proof Hs as (Hk & Hw & Hc & Hcs). pose proof Hk as (_ & _ & Hsz).
  unfold size in *. rewrite Hsz in Hz.
  destruct (write_bytes_total s v Hk Hw Hcs Hz) as (s' & Hwb & Hw' & _ & _ & Hlay).
  pose proof (write_bytes_advances s s' v Hk Hz Hwb) as (Hk' & Hf' & _ & Hct).
  destruct (Hct Hc Hw') as [Hc' Hcont]. rewrite len_map in Hf'.
  exists s'. repeat split; auto; try apply Hk'.
  destruct Hk' as (_ & _ & ->). lia.
Qed.

Lemma write_bytes_fills_the_current_chunk_first_witness :
  exists s',
    write_bytes (two_streams 0%nat) (repeat x43 1000) = Ok s' /\
    layout s' = [(496, 496); (506, 506)] /\
    size s' = 1002.
Proof.
  destruct (write_bytes_fills_the_current_chunk_first (two_streams 0%nat) []
              (mk_chunk 496 2 ([Some x41; Some x42] ++ repeat None 498))
              (repeat x43 1000))
    as (_ & s' & Hw & _ & _ & _ & Hz & _ & Hl).
  - split; [evaluated|]. split; [evaluated|]. split; [evaluated|].
    intros i ch Hi Hn. vm_compute in Hi. inversion Hi; subst i.
    vm_compute in Hn. inversion Hn; subst ch. reflexivity.
  - reflexivity.
  - vm_compute. reflexivity.
  - exists s'. split; [exact Hw|]. split; [|exact Hz].
    rewrite Hl by discriminate. reflexivity.
Defined.

(** ** write_blob *)

(** X13.  [write_blob] puts the length of the bytes before them, on four bytes,
    the most significant first: a reader finds the length, then as many
    bytes. *)
Theorem write_blob_is_length_then_bytes (s : bytes_ostream) (v : list byte) :
  well_kept s -> size s + 4 + len v < 2 ^ 32 ->
  exists s' prefix,
    write_blob s v = Ok s' /\
    counted s' /\ within s' /\ cells_ok s' /\
    size s' = size s + 4 + len v /\
    contents s' = contents s ++ map Some (prefix ++ v) /\
    length prefix = 4%nat /\
    be_value prefix = len v.
Proof.
  intros Hs Hz. pose proof Hs as ((_ & _ & Hsz) & _).
  unfold size in *. rewrite Hsz in Hz. pose proof (len_nonneg v) as Hv.
  assert (filled (_begin s) + byte_length (WriteBlob v) < 2 ^ 32) as Hfit
    by (unfold byte_length; lia).
  destruct (step_kept s (WriteBlob v) Hs I I Hfit)
    as (s' & Hw & Hk' & Hw' & Hc' & _ & Hf' & Hct').
  cbn [step byte_length written] in *.
  exists s', (hton 4 (len v)). split; [exact Hw|].
  split; [exact Hk'|]. split; [exact Hw'|]. split; [exact Hc'|].
  split; [destruct Hk' as (_ & _ & ->); lia|]. split; [exact Hct'|].
  split; [reflexivity|].
  rewrite be_value_hton. apply Z.mod_small.
  change (2 ^ (8 * Z.of_nat 4)) with (2 ^ 32).
  pose proof Hs as ((_ & Ho & _) & _). pose proof (filled_nonneg _ Ho). lia.
Qed.

Lemma write_blob_is_length_then_bytes_witness :
  exists s',
    write_blob fresh [x63; x61; x66; xc3; xa9] = Ok s' /\
    contents s' = map Some [x00; x00; x00; x05; x63; x61; x66; xc3; xa9].
Proof.
  destruct (write_blob_is_length_then_bytes fresh [x63; x61; x66; xc3; xa9])
    as (s' & prefix & Hw & _).
  - apply well_kept_fresh.
  - vm_compute. reflexivity.
  - exists s'. split; [exact Hw|]. vm_compute in Hw. inversion Hw; subst s'.
    reflexivity.
Defined.

(* ================================================================== *)
(** * The loop reads and writes within its buffers *)
(* ================================================================== *)

Section LoopIsSafe.

Variable vp : list byte -> partial_validation_results.
Variable vwep : list byte -> option Z.
Hypothesis vp_bounded : tail_report_bounded vp.
Hypothesis vp_unresolved : tail_report_unresolved vp.
Hypothesis vp_within : tail_in_fragment vp.
Hypothesis vwep_located : error_is_located vp vwep.

Lemma validate_rest_returns (c : carry) (data : list byte) :
  carry_shape c -> partial_filled c = 0 ->
  match validate_rest vp vwep c data with
  | inl c' => carry_in_bounds c'
  | inr o => exists r, o = Returned r
  end.
Proof.
  intros Hs Hf.
  pose proof (validate_rest_bounds vp vwep vp_bounded vp_unresolved c data Hs Hf) as Hb.
  unfold validate_rest in *.
  destruct (vp_bounded data) as (Ht & Hn & Hsum).
  pose proof (vp_within data) as Hin. pose proof (vwep_located data) as Hloc.
  destruct (error (vp data)).
  - destruct (vwep data) as [p|]; [eexists; reflexivity|]. now destruct Hloc.
  - specialize (Hin eq_refl).
    set (c1 := mk_carry _ _ _ _) in *.
    destruct (copy_tail_bytes (Z.to_nat (unvalidated_tail (vp data))) c1 data
                (len data - unvalidated_tail (vp data)))
      as (c2 & Hcp & _); try lia.
    + exact Hs.
    + unfold c1. cbn [partial_filled]. lia.
    + rewrite Hcp in *. exact Hb.
Qed.

Lemma fragment_step_returns (c : carry) (frag : list byte) :
  carry_in_bounds c ->
  match fragment_step vp vwep c frag with
  | inl c' => carry_in_bounds c'
  | inr o => exists r, o = Returned r
  end.
Proof.
  intros (Hs & Hm & Hsum & Hz). unfold fragment_step.
  destruct (partial_more_needed c =? 0) eqn:E.
  { apply Z.eqb_eq in E. apply validate_rest_returns; auto. }
  destruct (fill_partial_spec frag c Hs Hm Hsum)
    as (c1 & q & rest & Hfp & Hd & Hs1 & Hc1 & Hf1 & Hm1 & Hm0 & Hv1 & Hstop).
  rewrite Hfp. unfold close_partial.
  destruct (partial_more_needed c1 =? 0) eqn:E1.
  - destruct (error (vp (carried c1))); [eexists; reflexivity|].
    set (c2 := mk_carry _ _ _ _).
    assert (carry_in_bounds c2) as Hb2.
    { unfold c2, carry_in_bounds, carry_shape.
      cbn [partial_codepoint partial_filled partial_more_needed].
      repeat split; try apply Hs1; lia. }
    destruct rest as [|b rest]; [exact Hb2|].
    apply validate_rest_returns; [apply Hb2|reflexivity].
  - apply Z.eqb_neq in E1. destruct Hstop as [Hstop| ->]; [lia|].
    unfold carry_in_bounds. repeat split; try apply Hs1; lia.
Qed.

Lemma fragments_loop_returns (fv : list (list byte)) : forall (c : carry),
  carry_in_bounds c ->
  match fragments_loop vp vwep c fv with
  | inl c' => carry_in_bounds c'
  | inr o => exists r, o = Returned r
  end.
Proof.
  induction fv as [|frag fv IH]; intros c Hc.
  - exact Hc.
  - cbn [fragments_loop].
    pose proof (fragment_step_returns c frag Hc) as Hstep.
    destruct (fragment_step vp vwep c frag) as [c1|o]; [now apply IH|exact Hstep].
Qed.

End LoopIsSafe.

Lemma validate_partial_within : tail_in_fragment validate_partial.
Proof.
  intros data _. unfold validate_partial.
  pose proof (scan_accounted data) as [_ H]. pose proof (len_nonneg data).
  destruct (at_phase (scan scan_start data)) as [|have need lo hi|];
    cbn [unvalidated_tail]; try lia.
  destruct H as (pre & t & -> & _ & _ & (Hl & _)).
  rewrite len_app. pose proof (len_nonneg pre). lia.
Qed.

Lemma validate_partial_located :
  error_is_located validate_partial validate_with_error_position.
Proof.
  intros data. unfold validate_partial, validate_with_error_position.
  destruct (at_phase (scan scan_start data)); cbn [error]; discriminate.
Qed.

(** X14.  The loop of lines 72-118 asks four things of the two functions of
    utf8.cc: a tail of at most three bytes that with the bytes it needs makes
    at most four, no tail that needs nothing, a tail that lies within the
    buffer, and a position wherever an error is reported.  Given these, every
    run returns: no byte is read outside a fragment, none is written outside
    [partial_codepoint], and no empty optional is dereferenced. *)
Theorem the_loop_stays_within_its_buffers
    (vp : list byte -> partial_validation_results)
    (vwep : list byte -> option Z) (fv : list (list byte)) :
  tail_report_bounded vp -> tail_report_unresolved vp ->
  tail_in_fragment vp -> error_is_located vp vwep ->
  exists r, validate_with_error_position_fragmented vp vwep fv = Returned r.
Proof.
  intros Hb Hu Hw Hl. unfold validate_with_error_position_fragmented.
  pose proof (fragments_loop_returns vp vwep Hb Hu Hw Hl fv carry_start
                carry_start_in_bounds) as H.
  destruct (fragments_loop vp vwep carry_start fv) as [c|o]; [|exact H].
  destruct (partial_more_needed c =? 0); eexists; reflexivity.
Qed.

Lemma the_loop_stays_within_its_buffers_witness :
  exists r, fragmented [[x41; xf0]; [x9f; x98]; []; [x80; xe2]] = Returned r.
Proof.
  exact (the_loop_stays_within_its_buffers validate_partial validate_with_error_position
           [[x41; xf0]; [x9f; x98]; []; [x80; xe2]]
           validate_partial_bounded validate_partial_unresolved
           validate_partial_within validate_partial_located).
Defined.

(* ================================================================== *)
(** * Empty fragments *)
(* ================================================================== *)

Lemma to_size_t_range (x : Z) : 0 <= to_size_t x < 2 ^ 64.
Proof. unfold to_size_t, size_t_modulus. apply Z.mod_pos_bound. lia. Qed.

Lemma store_carry_position (c c1 : carry) (b : byte) :
  store_carry c b = Some c1 -> bytes_validated c1 = bytes_validated c.
Proof.
  unfold store_carry. destruct (poke _ _ _); [|discriminate].
  intros H. inversion H; subst. reflexivity.
Qed.

Lemma fill_partial_position (data : list byte) : forall (c c1 : carry) (rest : list byte),
  fill_partial c data = Some (c1, rest) -> bytes_validated c1 = bytes_validated c.
Proof.
  induction data as [|b data IH]; intros c c1 rest H; cbn [fill_partial] in H.
  - destruct (partial_more_needed c =? 0); inversion H; subst; reflexivity.
  - destruct (partial_more_needed c =? 0); [inversion H; subst; reflexivity|].
    destruct (store_carry c b) as [c2|] eqn:Hs; [|discriminate].
    apply IH in H. cbn [bytes_validated] in H. rewrite H.
    eapply store_carry_position; eauto.
Qed.

Lemma copy_tail_position (count : nat) : forall (c c' : carry) (frag : list byte) (at_ : Z),
  copy_tail c frag at_ count = inl c' -> bytes_validated c' = bytes_validated c.
Proof.
  induction count as [|k IH]; intros c c' frag at_ H; cbn [copy_tail] in H.
  - now inversion H.
  - destruct (at_ <? 0); [discriminate|].
    destruct (nth_error frag (Z.to_nat at_)) as [b|]; [|discriminate].
    destruct (store_carry c b) as [c1|] eqn:Hs; [|discriminate].
    rewrite (IH _ _ _ _ H). eapply store_carry_position; eauto.
Qed.

Section EmptyFragments.

Variable vp : list byte -> partial_validation_results.
Variable vwep : list byte -> option Z.

Lemma validate_rest_position (c c' : carry) (data : list byte) :
  validate_rest vp vwep c data = inl c' -> position_in_range c'.
Proof.
  unfold validate_rest, position_in_range. destruct (error (vp data)).
  - destruct (vwep data); discriminate.
  - destruct (copy_tail _ data _ _) as [c2|o] eqn:Hcp; [|discriminate].
    intros H. inversion H; subst. cbn [bytes_validated].
    rewrite (copy_tail_position _ _ _ _ _ Hcp). cbn [bytes_validated].
    apply to_size_t_range.
Qed.

Lemma fragment_step_position (c c' : carry) (frag : list byte) :
  position_in_range c -> fragment_step vp vwep c frag = inl c' ->
  position_in_range c'.
Proof.
  intros Hc. unfold fragment_step.
  destruct (partial_more_needed c =? 0); [apply validate_rest_position|].
  destruct (fill_partial c frag) as [[c1 rest]|] eqn:Hf; [|discriminate].
  apply fill_partial_position in Hf.
  unfold close_partial. destruct (partial_more_needed c1 =? 0).
  - destruct (error (vp (carried c1))); [discriminate|].
    destruct rest; [|apply validate_rest_position].
    intros H. inversion H; subst. unfold position_in_range. cbn [bytes_validated].
    apply to_size_t_range.
  - destruct rest; [|apply validate_rest_position].
    intros H. inversion H; subst. unfold position_in_range in *. now rewrite Hf.
Qed.

Lemma fragments_loop_position (fv : list (list byte)) : forall (c c' : carry),
  position_in_range c -> fragments_loop vp vwep c fv = inl c' ->
  position_in_range c'.
Proof.
  induction fv as [|frag fv IH]; intros c c' Hc H; cbn [fragments_loop] in H.
  - now inversion H; subst.
  - destruct (fragment_step vp vwep c frag) as [c1|o] eqn:Hs; [|discriminate].
    eapply IH; [|exact H]. eapply fragment_step_position; eauto.
Qed.

Lemma fragments_loop_app (fv1 fv2 : list (list byte)) : forall (c : carry),
  fragments_loop vp vwep c (fv1 ++ fv2) =
    match fragments_loop vp vwep c fv1 with
    | inl c1 => fragments_loop vp vwep c1 fv2
    | inr o => inr o
    end.
Proof.
  induction fv1 as [|frag fv1 IH]; intros c; [reflexivity|].
  cbn [app fragments_loop]. destruct (fragment_step vp vwep c frag); [apply IH|reflexivity].
Qed.

Hypothesis nothing_in_nothing : vp [] = mk_pvr false 0 0.

Lemma fragment_step_empty (c : carry) :
  position_in_range c -> fragment_step vp vwep c [] = inl c.
Proof.
  intros Hc. unfold fragment_step.
  destruct (partial_more_needed c =? 0) eqn:E.
  - apply Z.eqb_eq in E. unfold validate_rest. rewrite nothing_in_nothing.
    cbn [error unvalidated_tail bytes_needed_for_tail Z.to_nat copy_tail].
    cbn [partial_codepoint partial_filled bytes_validated].
    change (to_size_t (len (@nil byte) - 0)) with 0. rewrite Z.add_0_r.
    unfold position_in_range in Hc. rewrite (wrap_small _ Hc).
    destruct c as [pc pf pm bv]. cbn in *. now subst.
  - cbn [fill_partial]. rewrite E. unfold close_partial. rewrite E. reflexivity.
Qed.

End EmptyFragments.

Lemma position_in_range_start : position_in_range carry_start.
Proof. unfold position_in_range. cbn. lia. Qed.

(** X15.  An empty fragment, wherever it stands in the view, changes nothing,
    provided [validate_partial] finds no error and no tail in an empty
    buffer. *)
Theorem an_empty_fragment_changes_nothing
    (vp : list byte -> partial_validation_results)
    (vwep : list byte -> option Z) (fv1 fv2 : list (list byte)) :
  vp [] = mk_pvr false 0 0 ->
  validate_with_error_position_fragmented vp vwep (fv1 ++ [] :: fv2) =
  validate_with_error_position_fragmented vp vwep (fv1 ++ fv2).
Proof.
  intros Hvp. unfold validate_with_error_position_fragmented.
  rewrite !fragments_loop_app.
  destruct (fragments_loop vp vwep carry_start fv1) as [c|o] eqn:Hl; [|reflexivity].
  cbn [fragments_loop].
  rewrite fragment_step_empty; [reflexivity|exact Hvp|].
  eapply fragments_loop_position; [|exact Hl]. apply position_in_range_start.
Qed.

Lemma an_empty_fragment_changes_nothing_witness :
  fragmented ([[x41; xe2]] ++ [] :: [[x82; xac]]) = fragmented ([[x41; xe2]] ++ [[x82; xac]]) /\
  fragmented [[x41; xe2]; []; [x82; xac]] = Returned None.
Proof.
  split; [|reflexivity].
  exact (an_empty_fragment_changes_nothing validate_partial validate_with_error_position
           [[x41; xe2]] [[x82; xac]] eq_refl).
Defined.

(* ================================================================== *)
(** * What the position returned means *)
(* ================================================================== *)

Lemma scan_byte_keeps (s : scanner) (b : byte) :
  at_phase (scan_byte s b) <> Boundary -> confirmed (scan_byte s b) = confirmed s.
Proof.
  unfold scan_byte. destruct (at_phase s) as [|have need lo hi|].
  - destruct (leading (u8 b)); cbn [at_phase confirmed]; congruence.
  - destruct ((lo <=? u8 b) && (u8 b <=? hi)); [destruct (need =? 1)|];
      cbn [at_phase confirmed]; congruence.
  - reflexivity.
Qed.

Lemma at_phase_scan_snoc (d : list byte) (b : byte) :
  at_phase (scan (mk_scanner Boundary 0) (d ++ [b])) =
  phase_step (at_phase (scan (mk_scanner Boundary 0) d)) (u8 b).
Proof.
  rewrite scan_snoc. destruct (scan (mk_scanner Boundary 0) d) as [ph p].
  apply at_phase_scan_byte.
Qed.

(** The input splits into the sequences that are complete and well formed
    and the bytes of the one that is not. *)
Lemma scan_parts (data : list byte) :
  exists pre rest,
    data = pre ++ rest /\
    scan scan_start pre = mk_scanner Boundary (len pre) /\
    confirmed (scan scan_start data) = len pre /\
    at_phase (scan (mk_scanner Boundary 0) rest) = at_phase (scan scan_start data) /\
    forall k, (0 < k <= length rest)%nat ->
      at_phase (scan (mk_scanner Boundary 0) (firstn k rest)) <> Boundary.
Proof.
  induction data as [|b data IH] using rev_ind.
  - exists [], []. repeat split; try reflexivity. intros k Hk. cbn in Hk. lia.
  - destruct IH as (pre & rest & Hd & Hpre & Hconf & Hph & Hk).
    pose proof (scan_accounted (data ++ [b])) as [_ Hacc].
    assert (at_phase (scan scan_start (data ++ [b])) =
            phase_step (at_phase (scan scan_start data)) (u8 b)) as Hstep
      by apply at_phase_scan_snoc.
    destruct (at_phase (scan scan_start (data ++ [b]))) as [|have need lo hi|] eqn:E.
    + exists (data ++ [b]), []. rewrite app_nil_r.
      split; [reflexivity|]. split.
      { destruct (scan scan_start (data ++ [b])) as [ph p]. cbn in *. now subst. }
      split; [exact Hacc|]. split; [reflexivity|].
      intros k Hk'. cbn in Hk'. lia.
    + exists pre, (rest ++ [b]). split; [now rewrite app_assoc, <- Hd|].
      split; [exact Hpre|]. split.
      { rewrite scan_snoc, scan_byte_keeps; [exact Hconf|].
        rewrite <- scan_snoc, E. discriminate. }
      split; [now rewrite at_phase_scan_snoc, Hph|].
      intros k Hk'. rewrite length_app in Hk'. cbn [length] in Hk'.
      destruct (Nat.eq_dec k (length rest + 1)) as [->|Hne].
      * rewrite firstn_all2 by (rewrite length_app; cbn; lia).
        rewrite at_phase_scan_snoc, Hph, <- Hstep. discriminate.
      * rewrite firstn_app. replace (k - length rest)%nat with 0%nat by lia.
        cbn [firstn]. rewrite app_nil_r. apply Hk. lia.
    + exists pre, (rest ++ [b]). split; [now rewrite app_assoc, <- Hd|].
      split; [exact Hpre|]. split.
      { rewrite scan_snoc, scan_byte_keeps; [exact Hconf|].
        rewrite <- scan_snoc, E. discriminate. }
      split; [now rewrite at_phase_scan_snoc, Hph|].
      intros k Hk'. rewrite length_app in Hk'. cbn [length] in Hk'.
      destruct (Nat.eq_dec k (length rest + 1)) as [->|Hne].
      * rewrite firstn_all2 by (rewrite length_app; cbn; lia).
        rewrite at_phase_scan_snoc, Hph, <- Hstep. discriminate.
      * rewrite firstn_app. replace (k - length rest)%nat with 0%nat by lia.
        cbn [firstn]. rewrite app_nil_r. apply Hk. lia.
Qed.

(** The position the contiguous validator returns is the length of the
    longest prefix that is valid. *)
Lemma error_position_spec (data : list byte) (p : Z) :
  validate_with_error_position data = Some p ->
  0 <= p < len data /\
  validate (firstn (Z.to_nat p) data) = true /\
  forall q, p < q <= len data -> validate (firstn (Z.to_nat q) data) = false.
Proof.
  intros H. destruct (scan_parts data) as (pre & rest & Hd & Hpre & Hconf & Hph & Hk).
  unfold validate_with_error_position in H.
  assert (at_phase (scan scan_start data) <> Boundary /\ p = len pre) as [Hnb ->].
  { destruct (at_phase (scan scan_start data)); inversion H; subst; split;
      auto; discriminate. }
  clear H. pose proof (len_nonneg pre) as Hp0.
  assert (rest <> []) as Hne.
  { intros ->. apply Hnb. rewrite <- Hph. reflexivity. }
  assert (1 <= len rest) as Hr.
  { destruct rest; [congruence|]. rewrite len_cons. pose proof (len_nonneg rest). lia. }
  subst data. rewrite len_app. split; [lia|]. split.
  - unfold len at 1. rewrite Nat2Z.id.
    rewrite firstn_app, Nat.sub_diag, firstn_all. cbn [firstn]. rewrite app_nil_r.
    unfold validate, validate_with_error_position. now rewrite Hpre.
  - intros q Hq. rewrite firstn_app, firstn_all2 by (unfold len in *; lia).
    unfold validate, validate_with_error_position.
    rewrite scan_app, Hpre, scan_from. cbn [at_phase].
    specialize (Hk (Z.to_nat q - length pre)%nat ltac:(unfold len in *; lia)).
    destruct (at_phase (scan (mk_scanner Boundary 0)
                          (firstn (Z.to_nat q - length pre) rest)));
      [congruence|reflexivity|reflexivity].
Qed.

(** X16.  The fragmented validator returns the length of the longest prefix of
    the whole input that is valid UTF-8, and [std::nullopt] when the whole
    of it is. *)
Theorem the_position_is_the_longest_valid_prefix
    (fv : list (list byte)) (p : Z) :
  len (concat fv) < 2 ^ 64 ->
  fragmented fv = Returned (Some p) ->
  0 <= p < len (concat fv) /\
  validate (firstn (Z.to_nat p) (concat fv)) = true /\
  forall q, p < q <= len (concat fv) ->
    validate (firstn (Z.to_nat q) (concat fv)) = false.
Proof.
  intros Hlen H. rewrite (fragmented_is_contiguous fv Hlen) in H.
  inversion H as [Hv]. now apply error_position_spec.
Qed.

Lemma the_position_is_the_longest_valid_prefix_witness :
  fragmented [[x41; xe2]; [x82]; [x28; x42]] = Returned (Some 1) /\
  validate [x41] = true /\
  validate [x41; xe2] = false /\ validate [x41; xe2; x82] = false /\
  validate [x41; xe2; x82; x28] = false /\ validate [x41; xe2; x82; x28; x42] = false.
Proof.
  destruct (the_position_is_the_longest_valid_prefix [[x41; xe2]; [x82]; [x28; x42]] 1)
    as (_ & H1 & Hq).
  - vm_compute. reflexivity.
  - reflexivity.
  - split; [reflexivity|]. split; [exact H1|].
    split; [exact (Hq 2 ltac:(vm_compute; split; [reflexivity|discriminate]))|].
    split; [exact (Hq 3 ltac:(vm_compute; split; [reflexivity|discriminate]))|].
    split; [exact (Hq 4 ltac:(vm_compute; split; [reflexivity|discriminate]))|].
    exact (Hq 5 ltac:(vm_compute; split; [reflexivity|discriminate])).
Defined.

(** X17.  The fragmented validator accepts exactly the inputs whose bytes, put
    end to end, are well-formed UTF-8 in the sense of the Unicode standard,
    however they are cut into fragments. *)
Theorem fragmented_accepts_the_well_formed (fv : list (list byte)) :
  len (concat fv) < 2 ^ 64 ->
  (fragmented fv = Returned None <-> well_formed (concat fv)).
Proof.
  intros Hlen. rewrite (fragmented_is_contiguous fv Hlen).
  rewrite <- validate_iff_well_formed. unfold validate.
  destruct (validate_with_error_position (concat fv)); split;
    intros H; (reflexivity || discriminate || inversion H).
Qed.

Lemma fragmented_accepts_the_well_formed_witness :
  fragmented [[xf0; x9f]; [x98; x80; x41]] = Returned None /\
  well_formed [xf0; x9f; x98; x80; x41].
Proof.
  destruct (fragmented_accepts_the_well_formed [[xf0; x9f]; [x98; x80; x41]])
    as [H _].
  - vm_compute. reflexivity.
  - split; [reflexivity|]. apply H. reflexivity.
Defined.

(** X18.  The overload for a view of a single fragment and the general function
    agree on such a view. *)
Theorem the_two_overloads_agree (frag : list byte) :
  len frag < 2 ^ 64 ->
  fragmented [frag] = Returned (validate_with_error_position_fragmented_single frag).
Proof.
  intros H. unfold validate_with_error_position_fragmented_single.
  rewrite fragmented_is_contiguous; cbn [concat]; rewrite app_nil_r; auto.
Qed.

Lemma the_two_overloads_agree_witness :
  fragmented [[x41; xc3; x28]] = Returned (Some 1) /\
  validate_with_error_position_fragmented_single [x41; xc3; x28] = Some 1.
Proof.
  split; [|reflexivity].
  exact (the_two_overloads_agree [x41; xc3; x28] ltac:(vm_compute; reflexivity)).
Defined.

(* ================================================================== *)
(** * What the loop counts *)
(* ================================================================== *)

Section Tally.

Variable vp : list byte -> partial_validation_results.
Variable vwep : list byte -> option Z.
Hypothesis vp_bounded : tail_report_bounded vp.
Hypothesis vp_unresolved : tail_report_unresolved vp.
Hypothesis vp_within : tail_in_fragment vp.

Lemma validate_rest_tally (c : carry) (consumed data : list byte) :
  tallied c consumed -> partial_filled c = 0 ->
  len consumed + len data < 2 ^ 64 ->
  match validate_rest vp vwep c data with
  | inl c' => tallied c' (consumed ++ data)
  | inr _ => True
  end.
Proof.
  intros (Hb & pre & Hc & Hbv) Hf Hbound. pose proof Hb as (Hs & _).
  pose proof (validate_rest_bounds vp vwep vp_bounded vp_unresolved c data Hs Hf) as Hin.
  rewrite (carried_empty c Hf), app_nil_r in Hc. subst consumed.
  unfold validate_rest in *.
  destruct (vp_bounded data) as (Ht & Hn & Hsum).
  pose proof (vp_within data) as Hw.
  pose proof (len_nonneg pre) as Hp0. pose proof (len_nonneg data) as Hd0.
  destruct (error (vp data)); [destruct (vwep data); exact I|].
  specialize (Hw eq_refl).
  set (tail := unvalidated_tail (vp data)) in *.
  rewrite (wrap_small (len data - tail)) in * by lia.
  rewrite (wrap_small (bytes_validated c + (len data - tail))) in * by lia.
  set (c1 := mk_carry (partial_codepoint c) (partial_filled c)
               (partial_more_needed c) (bytes_validated c + (len data - tail))) in *.
  assert (carry_shape c1) as Hs1 by exact Hs.
  assert (partial_filled c1 + Z.of_nat (Z.to_nat tail) <= 4) as Hroom
    by (unfold c1; cbn [partial_filled]; lia).
  destruct (copy_tail_bytes (Z.to_nat tail) c1 data (len data - tail) Hs1 Hroom
              ltac:(lia) ltac:(lia)) as (c2 & Hcp & Hc2).
  pose proof (copy_tail_shape (Z.to_nat tail) c1 data (len data - tail) Hs1 Hroom)
    as Hshape.
  rewrite Hcp in *. destruct Hshape as (Hs2 & Hf2 & Hm2 & Hv2).
  split; [exact Hin|].
  exists (pre ++ firstn (Z.to_nat (len data - tail)) data).
  unfold carried at 1. cbn [partial_codepoint partial_filled bytes_validated].
  fold (carried c2). rewrite Hc2, Hv2.
  assert (carried c1 = []) as -> by (apply carried_empty; exact Hf).
  cbn [app]. split.
  - rewrite <- app_assoc. f_equal.
    assert (firstn (Z.to_nat tail) (skipn (Z.to_nat (len data - tail)) data) =
            skipn (Z.to_nat (len data - tail)) data) as ->
      by (apply firstn_all2; rewrite length_skipn; unfold len in *; lia).
    symmetry. apply firstn_skipn.
  - rewrite len_app, len_firstn by lia. unfold c1. cbn [bytes_validated]. lia.
Qed.

Lemma fragment_step_tally (c : carry) (consumed frag : list byte) :
  tallied c consumed -> len consumed + len frag < 2 ^ 64 ->
  match fragment_step vp vwep c frag with
  | inl c' => tallied c' (consumed ++ frag)
  | inr _ => True
  end.
Proof.
  intros Ht Hbound. pose proof Ht as (Hb & pre & Hc & Hbv).
  pose proof Hb as (Hs & Hm & Hsum & Hz). unfold fragment_step.
  destruct (partial_more_needed c =? 0) eqn:E.
  { apply Z.eqb_eq in E. apply validate_rest_tally; auto. }
  destruct (fill_partial_spec frag c Hs Hm Hsum)
    as (c1 & q & rest & Hfp & Hd & Hs1 & Hc1 & Hf1 & Hm1 & Hm0 & Hv1 & Hstop).
  rewrite Hfp. unfold close_partial.
  pose proof (len_nonneg pre) as Hp0. pose proof (len_nonneg q) as Hq0.
  pose proof (len_nonneg rest) as Hr0.
  pose proof (len_carried c Hs) as Hlc. pose proof (len_carried c1 Hs1) as Hlc1.
  pose proof Hs as [_ Hpf]. pose proof Hs1 as [_ Hpf1].
  assert (len consumed = len pre + partial_filled c) as Hlen
    by (rewrite Hc, len_app; lia).
  assert (len frag = len q + len rest) as Hlf by (rewrite Hd, len_app; lia).
  destruct (partial_more_needed c1 =? 0) eqn:E1.
  - destruct (error (vp (carried c1))); [exact I|].
    set (c2 := mk_carry _ _ _ _).
    assert (tallied c2 (consumed ++ q)) as Ht2.
    { split.
      - unfold c2, carry_in_bounds, carry_shape.
        cbn [partial_codepoint partial_filled partial_more_needed].
        repeat split; try apply Hs1; lia.
      - exists (pre ++ carried c1). unfold carried at 2, c2.
        cbn [partial_filled partial_codepoint bytes_validated Z.to_nat firstn].
        rewrite app_nil_r. split.
        + rewrite Hc, Hc1. now rewrite app_assoc.
        + rewrite len_app, wrap_small; lia. }
    destruct rest as [|b rest].
    + rewrite Hd, app_nil_r. exact Ht2.
    + rewrite Hd, app_assoc. apply validate_rest_tally; auto.
      rewrite len_app. lia.
  - apply Z.eqb_neq in E1. destruct Hstop as [Hstop| ->]; [lia|].
    rewrite Hd, app_nil_r. split.
    + unfold carry_in_bounds. repeat split; try apply Hs1; lia.
    + exists pre. split; [rewrite Hc, Hc1; now rewrite app_assoc|lia].
Qed.

Lemma fragments_loop_tally (fv : list (list byte)) :
  forall (c : carry) (consumed : list byte),
  tallied c consumed -> len (consumed ++ concat fv) < 2 ^ 64 ->
  match fragments_loop vp vwep c fv with
  | inl c' => tallied c' (consumed ++ concat fv)
  | inr _ => True
  end.
Proof.
  induction fv as [|frag fv IH]; intros c consumed Ht Hbound.
  - cbn [concat fragments_loop]. now rewrite app_nil_r.
  - cbn [concat fragments_loop] in *. rewrite app_assoc in *.
    pose proof (fragment_step_tally c consumed frag Ht) as Hstep.
    rewrite len_app in Hbound. pose proof (len_nonneg (concat fv)).
    specialize (Hstep ltac:(rewrite len_app in Hbound; lia)).
    destruct (fragment_step vp vwep c frag) as [c1|o]; [|exact I].
    apply IH; [exact Hstep|]. rewrite len_app. lia.
Qed.

End Tally.

Lemma tallied_start : tallied carry_start [].
Proof. split; [apply carry_start_in_bounds|]. exists []. split; reflexivity. Qed.

(** X19.  Whatever the two functions of utf8.cc answer within the bounds the loop
    relies on, a run that goes through every fragment ends with the carry
    holding the last [partial_filled] bytes of the input and
    [bytes_validated] counting the bytes before them; when bytes are still
    needed, the position returned is that of the first byte in the carry. *)
Theorem the_carry_is_the_end_of_the_input
    (vp : list byte -> partial_validation_results)
    (vwep : list byte -> option Z) (fv : list (list byte)) (c : carry) :
  tail_report_bounded vp -> tail_report_unresolved vp -> tail_in_fragment vp ->
  len (concat fv) < 2 ^ 64 ->
  fragments_loop vp vwep carry_start fv = inl c ->
  (exists pre,
     concat fv = pre ++ carried c /\
     len pre = bytes_validated c /\
     len (carried c) = partial_filled c) /\
  (partial_more_needed c = 0 -> carried c = []) /\
  validate_with_error_position_fragmented vp vwep fv =
    if partial_more_needed c =? 0 then Returned None
    else Returned (Some (len (concat fv) - partial_filled c)).
Proof.
  intros Hb Hu Hw Hlen Hloop.
  pose proof (fragments_loop_tally vp vwep Hb Hu Hw fv carry_start [] tallied_start Hlen)
    as H.
  rewrite Hloop in H. cbn [app] in H.
  destruct H as (Hin & pre & Hc & Hbv). pose proof Hin as (Hs & _ & _ & Hz).
  pose proof (len_carried c Hs) as Hlc.
  split; [exists pre; auto|]. split.
  - intros Hm. apply carried_empty. auto.
  - unfold validate_with_error_position_fragmented. rewrite Hloop.
    destruct (partial_more_needed c =? 0); [reflexivity|].
    rewrite Hc, len_app. do 2 f_equal. lia.
Qed.

Lemma the_carry_is_the_end_of_the_input_witness :
  fragments_loop validate_partial validate_with_error_position carry_start
    [[x41; xc3; xa9; xf0]; [x9f]] = inl (mk_carry [xf0; x9f; x00; x00] 2 2 3) /\
  fragmented [[x41; xc3; xa9; xf0]; [x9f]] = Returned (Some (5 - 2)).
Proof.
  split; [reflexivity|].
  exact (proj2 (proj2 (the_carry_is_the_end_of_the_input
           validate_partial validate_with_error_position
           [[x41; xc3; xa9; xf0]; [x9f]] (mk_carry [xf0; x9f; x00; x00] 2 2 3)
           validate_partial_bounded validate_partial_unresolved validate_partial_within
           ltac:(vm_compute; reflexivity) eq_refl))).
Defined.
